(** * Command execution and recovery engine of rltgjqm (class [Executor])

    A shallow embedding of the [Executor] class: the quote-aware tokenizer
    [parseCommand], the danger classifier [isDangerousCommand], the
    single-command runner [executeCommand], the batch executors
    [executeMultipleCommands] and [executeMultipleCommandsLegacy], the
    recovery dialogue ([suggestErrorSolution] .. [executeSpecificSolution]),
    the counters of [printExecutionSummary] and the reading of the name of
    the repository, [extractRepositoryName]; and of the two methods of
    [PromptTemplate] that stand between the response of the model and the
    executor, [parseCommands] and [validateCommands].

    JavaScript strings are sequences of UTF-16 code units; asynchronous
    functions are sequential (every call is awaited), so they are embedded in
    a state-and-exception monad over the trace of requests made to the
    external collaborators (execa, inquirer, aiService).  A failed command
    may open a recovery dialogue that runs a batch of its own, whose
    commands may fail in turn: [executeCommand] takes the number of
    dialogues allowed inside one another, and a run that needs more ends
    with [OutOfFuel].  The two regular-expression searches of the recovery
    dialogue are parameters ([TextParsers]); the regular expressions of
    [parseCommands], [validateCommands] and [extractRepositoryName] are
    written out as the functions that decide their matches.  Console output and the 500 ms
    pause between two commands of the automatic mode are not part of the
    model. *)

From Stdlib Require Import String Ascii List NArith ZArith Bool Lia.
From Stdlib Require DecimalString.
Import ListNotations.

(* ================================================================== *)
(** ** JavaScript strings *)

(** A UTF-16 code unit. *)
Definition char16 := N.

(** A JavaScript string value. *)
Definition jsstr := list char16.

(** The string literal of ASCII text [s]. *)
Definition js (s : string) : jsstr := map N_of_ascii (list_ascii_of_string s).

Definition char_eqb (a b : char16) : bool := N.eqb a b.

Fixpoint jsstr_eqb (a b : jsstr) : bool :=
  match a, b with
  | [], [] => true
  | x :: a', y :: b' => char_eqb x y && jsstr_eqb a' b'
  | _, _ => false
  end.

(** The double quote, the single quote, the space, the backtick, the line
    feed and the tab. *)
Definition DQUOTE : char16 := 34%N.
Definition SQUOTE : char16 := 39%N.
Definition SPACE  : char16 := 32%N.
Definition BACKTICK : char16 := 96%N.
Definition NEWLINE : char16 := 10%N.
Definition TAB : char16 := 9%N.

(** ECMAScript WhiteSpace and LineTerminator code points: the characters
    removed by [String.prototype.trim] and matched by the class [\s]. *)
Definition isWhiteSpace (c : char16) : bool :=
  ((9 <=? c) && (c <=? 13))%N          (* \t \n \v \f \r *)
  || (c =? 32)%N || (c =? 160)%N || (c =? 5760)%N
  || ((8192 <=? c) && (c <=? 8202))%N  (* U+2000 .. U+200A *)
  || (c =? 8232)%N || (c =? 8233)%N    (* U+2028, U+2029 *)
  || (c =? 8239)%N || (c =? 8287)%N
  || (c =? 12288)%N || (c =? 65279)%N.

Fixpoint trimStart (s : jsstr) : jsstr :=
  match s with
  | c :: s' => if isWhiteSpace c then trimStart s' else s
  | [] => []
  end.

Definition trimEnd (s : jsstr) : jsstr := rev (trimStart (rev s)).

(** [s.trim()] *)
Definition trim (s : jsstr) : jsstr := trimEnd (trimStart s).

(** Truthiness of a string: only the empty string is falsy. *)
Definition truthy (s : jsstr) : bool :=
  match s with [] => false | _ :: _ => true end.

(* ================================================================== *)
(** ** Tokenizer: [parseCommand] *)

(** The four local variables of the loop of [parseCommand]; [quoteChar] is
    [None] for the empty string. *)
Record ParseState := mkParseState {
  args : list jsstr;
  current : jsstr;
  inQuotes : bool;
  quoteChar : option char16
}.

Definition parseInit : ParseState := mkParseState [] [] false None.

Definition isQuoteChar (q : option char16) (c : char16) : bool :=
  match q with Some q' => char_eqb c q' | None => false end.

(** One iteration of the [for] loop, on the character [char]. *)
Definition parseStep (st : ParseState) (char : char16) : ParseState :=
  if (char_eqb char DQUOTE || char_eqb char SQUOTE) && negb (inQuotes st) then
    mkParseState (args st) (current st) true (Some char)
  else if isQuoteChar (quoteChar st) char && inQuotes st then
    mkParseState (args st) (current st) false None
  else if char_eqb char SPACE && negb (inQuotes st) then
    if truthy (trim (current st)) then
      mkParseState (args st ++ [trim (current st)]) [] (inQuotes st) (quoteChar st)
    else st
  else
    mkParseState (args st) (current st ++ [char]) (inQuotes st) (quoteChar st).

(** The code after the loop: the last argument is pushed when not blank. *)
Definition parseFinish (st : ParseState) : list jsstr :=
  if truthy (trim (current st)) then args st ++ [trim (current st)] else args st.

Definition parseLoop (st : ParseState) (command : jsstr) : ParseState :=
  fold_left parseStep command st.

Definition parseCommand (command : jsstr) : list jsstr :=
  parseFinish (parseLoop parseInit command).

(* ================================================================== *)
(** ** Danger classifier: [isDangerousCommand] *)

(** The regular expressions of [dangerousPatterns] only use literal
    characters and [\s+]. *)
Inductive Atom :=
| Chr (c : char16)   (* a literal character *)
| Ws1.               (* \s+ *)

Definition RegExp := list Atom.

Definition lit (s : string) : RegExp := map Chr (js s).

(** Does the pattern match a prefix of [s]? *)
Fixpoint matchHere (s : jsstr) (p : RegExp) {struct s} : bool :=
  match p with
  | [] => true
  | Chr c :: p' =>
      match s with
      | x :: s' => char_eqb x c && matchHere s' p'
      | [] => false
      end
  | Ws1 :: p' =>
      match s with
      | x :: s' => isWhiteSpace x && (matchHere s' (Ws1 :: p') || matchHere s' p')
      | [] => false
      end
  end.

(** [pattern.test(s)] for a pattern without flags: a match at some index. *)
Fixpoint test (p : RegExp) (s : jsstr) : bool :=
  matchHere s p ||
  match s with
  | [] => false
  | _ :: s' => test p s'
  end.

Definition dangerousPatterns : list RegExp :=
  [ lit "git" ++ [Ws1] ++ lit "reset" ++ [Ws1] ++ lit "--hard";
    lit "git" ++ [Ws1] ++ lit "clean" ++ [Ws1] ++ lit "-f";
    lit "git" ++ [Ws1] ++ lit "push" ++ [Ws1] ++ lit "--force";
    lit "git" ++ [Ws1] ++ lit "rebase" ++ [Ws1] ++ lit "--interactive";
    lit "git" ++ [Ws1] ++ lit "branch" ++ [Ws1] ++ lit "-D";
    lit "git" ++ [Ws1] ++ lit "tag" ++ [Ws1] ++ lit "-d";
    lit "rm" ++ [Ws1] ++ lit "-rf";
    lit "git" ++ [Ws1] ++ lit "filter-branch" ].

Definition isDangerousCommand (command : jsstr) : bool :=
  existsb (fun pattern => test pattern command) dangerousPatterns.

(* ================================================================== *)
(** ** Results and options *)

(** What [execa] resolves to (the child process exited with status 0). *)
Record ExecaResult := mkExecaResult {
  execaCommand : jsstr;
  exitCode : Z
}.

(** The object returned for one command.  A boolean property that an object
    literal of the source leaves out reads as [undefined], which is falsy: it
    is [false] here; the other properties are [None] when left out. *)
Record ExecResult := mkResult {
  success : bool;
  cancelled : bool;
  dryRun : bool;
  skipped : bool;
  command : option jsstr;
  error : option jsstr;
  result : option ExecaResult
}.

(** [{ success: false, cancelled: true }] *)
Definition cancelledResult : ExecResult :=
  mkResult false true false false None None None.

(** [{ success: true, dryRun: true, command }] *)
Definition dryRunResult (cmd : jsstr) : ExecResult :=
  mkResult true false true false (Some cmd) None None.

(** [{ success: true, result }] *)
Definition successResult (res : ExecaResult) : ExecResult :=
  mkResult true false false false None None (Some res).

(** [{ success: false, error: error.message }] *)
Definition failedResult (message : jsstr) : ExecResult :=
  mkResult false false false false None (Some message) None.

(** [{ success: true, skipped: true, command }] *)
Definition skippedResult (cmd : jsstr) : ExecResult :=
  mkResult true false false true (Some cmd) None None.

(** The values a mode takes in the program: ['dry'], ['auto'],
    ['interactive'], and ['cancel'] (the fourth choice of the mode prompt of
    the recovery dialogue). *)
Inductive Mode := dry | auto | interactive | cancel.

(** The values of the choices of the step prompt. *)
Inductive Action := execute | skip | quit.

(** The [options] argument of [executeCommand] and
    [executeMultipleCommands]; [opt_mode] is [None] when the property is
    left out. *)
Record Options := mkOptions {
  opt_mode : option Mode;
  opt_dryRun : bool;
  opt_skipSuggestion : bool
}.

(** [{ dryRun: false }] *)
Definition noDryRun : Options := mkOptions None false false.

(** [{ mode }] *)
Definition withMode (m : Mode) : Options := mkOptions (Some m) false false.

(** [{ mode: executionMode, skipSuggestion: true }] *)
Definition recoveryOptions (executionMode : Mode) : Options :=
  mkOptions (Some executionMode) false true.

(** The fields of the [Executor] instance. *)
Record Executor := mkExecutor {
  this_dryRun : bool;
  autoSuggestSolutions : bool
}.

(** [constructor()] *)
Definition newExecutor : Executor := mkExecutor false true.

(** [setDryRun(enabled)] *)
Definition setDryRun (this : Executor) (enabled : bool) : Executor :=
  mkExecutor enabled (autoSuggestSolutions this).

(** The object exported by lib/config.js, as far as the executor uses it:
    [getAutoSuggestSolutions] is [Some b] when the object has that method
    and it returns [b], and [None] when the object has no such property. *)
Record ConfigManager := mkConfig {
  getAutoSuggestSolutions : option bool
}.

(** The [ConfigManager] class of the repository defines no method
    [getAutoSuggestSolutions] (nor does anything assign one). *)
Definition config : ConfigManager := mkConfig None.

(** One candidate fix parsed from the first answer of the generator. *)
Record SolutionOption := mkSolutionOption {
  title : jsstr;
  description : jsstr;
  fullText : jsstr
}.

(* ================================================================== *)
(** ** External collaborators and the execution monad *)

(** The two prompts sent to the text generator. *)
Inductive GenRequest :=
| AskOptions (failedCommand errorMessage : jsstr)
| AskCommands (failedCommand errorMessage selectedSolution : jsstr).

(** A request made to a collaborator. *)
Inductive Request :=
| ReqConfirmExecution (cmd : jsstr)            (* confirm prompt of confirmExecution *)
| ReqExeca (file : option jsstr) (argv : list jsstr)  (* a process is spawned *)
| ReqAction (cmd : jsstr)                      (* execute / skip / quit *)
| ReqContinueOnError                           (* continue despite the failure? *)
| ReqGenerate (g : GenRequest)                 (* aiService.generateCommand *)
| ReqSelectedIndex (options : list SolutionOption)
| ReqCustomSolution
| ReqExecutionMode (commands : list jsstr).

(** The requests made so far, oldest first. *)
Definition Trace := list Request.

(** A settled promise of a collaborator. *)
Inductive Reply (A : Type) :=
| Resolve (a : A)
| Reject (message : jsstr).
Arguments Resolve {A} a.
Arguments Reject {A} message.

(** The collaborators: each answer may depend on everything requested so
    far.  A list prompt resolves to the value of one of its choices. *)
Record Env := mkEnv {
  execa : Trace -> option jsstr -> list jsstr -> Reply ExecaResult;
  confirmPrompt : Trace -> jsstr -> Reply bool;
  actionPrompt : Trace -> jsstr -> Reply Action;
  continuePrompt : Trace -> Reply bool;
  generateCommand : Trace -> GenRequest -> Reply jsstr;
  selectedIndexPrompt : Trace -> list SolutionOption -> Reply Z;
  customSolutionPrompt : Trace -> Reply jsstr;
  executionModePrompt : Trace -> list jsstr -> Reply Mode
}.

(** The regular-expression searches of the recovery dialogue, taken as
    parameters: the whole of [parseSolutionOptions], and
    [solution.match(gitCommandPattern)] ([None] for [null]). *)
Record TextParsers := mkTextParsers {
  parseSolutionOptions : jsstr -> list SolutionOption;
  matchGitCommandPattern : jsstr -> option (list jsstr)
}.

(** How an awaited call ends: with a value, with an exception, or not
    within the nesting depth granted to the model. *)
Inductive Outcome (A : Type) :=
| Ok (a : A)
| Throw (message : jsstr)
| OutOfFuel.
Arguments Ok {A} a.
Arguments Throw {A} message.
Arguments OutOfFuel {A}.

Definition M (A : Type) := Trace -> Outcome A * Trace.

Definition ret {A} (a : A) : M A := fun t => (Ok a, t).

Definition throw {A} (message : jsstr) : M A := fun t => (Throw message, t).

Definition bind {A B} (m : M A) (k : A -> M B) : M B :=
  fun t =>
    match m t with
    | (Ok a, t') => k a t'
    | (Throw e, t') => (Throw e, t')
    | (OutOfFuel, t') => (OutOfFuel, t')
    end.

Notation "x <- m ;; k" := (bind m (fun x => k))
  (at level 61, m at next level, right associativity).

(** [try { body } catch (error) { handler(error.message) }] *)
Definition tryCatch {A} (body : M A) (handler : jsstr -> M A) : M A :=
  fun t =>
    match body t with
    | (Throw e, t') => handler e t'
    | other => other
    end.

(** An awaited call of a collaborator: the request is recorded, a rejected
    promise is thrown. *)
Definition await {A} (req : Request) (answer : Trace -> Reply A) : M A :=
  fun t =>
    match answer t with
    | Resolve a => (Ok a, t ++ [req])
    | Reject e => (Throw e, t ++ [req])
    end.

(** Calling [config.getAutoSuggestSolutions()]. *)
Definition callGetAutoSuggestSolutions (cfg : ConfigManager) : M bool :=
  match getAutoSuggestSolutions cfg with
  | Some b => ret b
  | None => throw (js "config.getAutoSuggestSolutions is not a function")
  end.

(* ================================================================== *)
(** ** Batch executor: [executeMultipleCommands] *)

Section Batch.
Variable env : Env.
(** [this.executeCommand] *)
Variable executeCommand : jsstr -> Options -> M ExecResult.

(** The loop of the automatic mode, from the commands still to run and
    the results pushed so far. *)
Fixpoint autoLoop (commands : list jsstr) (results : list ExecResult)
  : M (list ExecResult) :=
  match commands with
  | [] => ret results
  | cmd :: rest =>
      r <- executeCommand cmd noDryRun ;;
      let results := results ++ [r] in
      if negb (success r) && negb (cancelled r) then ret results
      else if cancelled r then ret results
      else autoLoop rest results
  end.

(** The loop of the interactive mode. *)
Fixpoint interactiveLoop (commands : list jsstr) (results : list ExecResult)
  : M (list ExecResult) :=
  match commands with
  | [] => ret results
  | cmd :: rest =>
      action <- await (ReqAction cmd) (fun t => actionPrompt env t cmd) ;;
      match action with
      | quit => ret results
      | skip => interactiveLoop rest (results ++ [skippedResult cmd])
      | execute =>
          r <- executeCommand cmd noDryRun ;;
          let results := results ++ [r] in
          if negb (success r) && negb (cancelled r) then
            continueOnError <- await ReqContinueOnError (continuePrompt env) ;;
            if negb continueOnError then ret results
            else interactiveLoop rest results
          else interactiveLoop rest results
      end
  end.

Definition executeMultipleCommandsWith (commands : list jsstr)
  (options : Options) : M (list ExecResult) :=
  let mode := match opt_mode options with Some m => m | None => dry end in
  match mode with
  | dry => ret (map dryRunResult commands)
  | auto => autoLoop commands []
  | interactive => interactiveLoop commands []
  | cancel => ret []
  end.
End Batch.

(* ================================================================== *)
(** ** Recovery dialogue *)

(** [match.replace(/[`\n]/g, '').trim()] *)
Definition cleanMatch (m : jsstr) : jsstr :=
  trim (filter (fun c => negb (char_eqb c BACKTICK || char_eqb c NEWLINE)) m).

(** [options[selectedIndex]] *)
Definition optionAt (options : list SolutionOption) (selectedIndex : Z)
  : option SolutionOption :=
  if (selectedIndex <? 0)%Z then None
  else nth_error options (Z.to_nat selectedIndex).

Section Recovery.
Variable env : Env.
Variable rx : TextParsers.
(** [this.executeMultipleCommands] *)
Variable executeMultipleCommands : list jsstr -> Options -> M (list ExecResult).

Definition executeSpecificSolution (solution : jsstr) : M unit :=
  match matchGitCommandPattern rx solution with
  | Some ((_ :: _) as matches) =>
      let commands := map cleanMatch matches in
      executionMode <- await (ReqExecutionMode commands)
                             (fun t => executionModePrompt env t commands) ;;
      match executionMode with
      | cancel => ret tt
      | _ =>
          _ <- executeMultipleCommands commands (recoveryOptions executionMode) ;;
          ret tt
      end
  | _ => ret tt
  end.

Definition getSpecificSolution (cmd errorMessage selectedSolution : jsstr)
  : M unit :=
  tryCatch
    (let prompt := AskCommands cmd errorMessage selectedSolution in
     response <- await (ReqGenerate prompt)
                       (fun t => generateCommand env t prompt) ;;
     executeSpecificSolution response)
    (fun _ => ret tt).

Definition getUserSolutionChoice (cmd errorMessage solutionOptions : jsstr)
  : M unit :=
  tryCatch
    (let options := parseSolutionOptions rx solutionOptions in
     if Nat.eqb (length options) 0 then ret tt
     else
       let directInputIndex := Z.of_nat (length options) in
       selectedIndex <- await (ReqSelectedIndex options)
                              (fun t => selectedIndexPrompt env t options) ;;
       if (selectedIndex =? -1)%Z then ret tt
       else if (selectedIndex =? directInputIndex)%Z then
         customSolution <- await ReqCustomSolution (customSolutionPrompt env) ;;
         getSpecificSolution cmd errorMessage customSolution
       else
         match optionAt options selectedIndex with
         | Some option => getSpecificSolution cmd errorMessage (fullText option)
         | None => throw (js "Cannot read properties of undefined (reading 'fullText')")
         end)
    (fun _ => ret tt).

Definition suggestErrorSolution (cmd errorMessage : jsstr) : M unit :=
  tryCatch
    (let prompt := AskOptions cmd errorMessage in
     response <- await (ReqGenerate prompt)
                       (fun t => generateCommand env t prompt) ;;
     getUserSolutionChoice cmd errorMessage response)
    (fun _ => ret tt).
End Recovery.

(* ================================================================== *)
(** ** Single-command runner: [executeCommand] *)

Section Runner.
Variable cfg : ConfigManager.
Variable this : Executor.
Variable env : Env.
Variable rx : TextParsers.

(** [confirmExecution(command)] *)
Definition confirmExecution (cmd : jsstr) : M bool :=
  await (ReqConfirmExecution cmd) (fun t => confirmPrompt env t cmd).

(** The body of [executeCommand], given the recovery entry point. *)
Definition executeCommandWith (suggest : jsstr -> jsstr -> M unit)
  (cmd : jsstr) (options : Options) : M ExecResult :=
  tryCatch
    (declined <- (if isDangerousCommand cmd then
                    confirmed <- confirmExecution cmd ;; ret (negb confirmed)
                  else ret false) ;;
     if declined then ret cancelledResult
     else if this_dryRun this || opt_dryRun options then ret (dryRunResult cmd)
     else
       let parsedCommand := parseCommand cmd in
       let file := hd_error parsedCommand in
       let argv := tl parsedCommand in
       res <- await (ReqExeca file argv) (fun t => execa env t file argv) ;;
       ret (successResult res))
    (fun message =>
       autoSuggestEnabled <- callGetAutoSuggestSolutions cfg ;;
       _ <- (if autoSuggestEnabled && negb (opt_skipSuggestion options)
             then suggest cmd message else ret tt) ;;
       ret (failedResult message)).

(** [executeCommand], with [depth] recovery dialogues allowed inside one
    another below this call. *)
Fixpoint executeCommand (depth : nat) (cmd : jsstr) (options : Options)
  : M ExecResult :=
  executeCommandWith
    (suggestErrorSolution env rx
       (executeMultipleCommandsWith env
          (match depth with
           | O => fun _ _ t => (OutOfFuel, t)
           | S d => executeCommand d
           end)))
    cmd options.

Definition executeMultipleCommands (depth : nat) (commands : list jsstr)
  (options : Options) : M (list ExecResult) :=
  executeMultipleCommandsWith env (executeCommand depth) commands options.
End Runner.

(* ================================================================== *)
(** ** Result reporter: the counters of [printExecutionSummary] *)

(** The five filters of the summary. *)
Definition isSucceeded (r : ExecResult) : bool :=
  success r && negb (dryRun r) && negb (skipped r).
Definition isFailed (r : ExecResult) : bool :=
  negb (success r) && negb (cancelled r).
Definition isCancelled (r : ExecResult) : bool := cancelled r.
Definition isSkipped (r : ExecResult) : bool := skipped r.
Definition isPreviewedOnly (r : ExecResult) : bool := dryRun r.

Definition successfulCount (results : list ExecResult) : nat :=
  length (filter isSucceeded results).
Definition failedCount (results : list ExecResult) : nat :=
  length (filter isFailed results).
Definition cancelledCount (results : list ExecResult) : nat :=
  length (filter isCancelled results).
Definition skippedCount (results : list ExecResult) : nat :=
  length (filter isSkipped results).
Definition dryRunCount (results : list ExecResult) : nat :=
  length (filter isPreviewedOnly results).

(* ================================================================== *)
(** ** Vocabulary of the statements and sample collaborators *)

(** A string of whitespace only. *)
Definition blank (s : jsstr) : bool := forallb isWhiteSpace s.

(** One of the two quote characters. *)
Definition isQuote (c : char16) : bool := char_eqb c DQUOTE || char_eqb c SQUOTE.

(** The tokens returned when the loop is resumed in state [st] on [s]. *)
Definition tokensFrom (st : ParseState) (s : jsstr) : list jsstr :=
  parseFinish (parseLoop st s).

(** Every argument pushed is trimmed and not empty. *)
Definition trimmedToken (tok : jsstr) : Prop := tok <> [] /\ trim tok = tok.

(** The outcome of a call, with [f] applied to the value returned. *)
Definition mapOk {A B} (f : A -> B) (x : Outcome A * Trace) : Outcome B * Trace :=
  match x with
  | (Ok a, t) => (Ok (f a), t)
  | (Throw e, t) => (Throw e, t)
  | (OutOfFuel, t) => (OutOfFuel, t)
  end.

(** [r] is the result recorded for [cmd]: a preview, a skip, or what the
    runner returned for it. *)
Definition resultFor (exec : jsstr -> Options -> M ExecResult) (cmd : jsstr)
  (r : ExecResult) : Prop :=
  r = dryRunResult cmd \/ r = skippedResult cmd \/
  exists t t', exec cmd noDryRun t = (Ok r, t').

(** A run of the automatic mode as the specification words it: the commands
    are run in order, each from the trace its predecessor left, and the run
    ends with the first result that is Failed or Cancelled. *)
Inductive AutoRun (exec : jsstr -> Options -> M ExecResult)
  : list jsstr -> Trace -> list ExecResult -> Trace -> Prop :=
| AutoRun_done (t : Trace) : AutoRun exec [] t [] t
| AutoRun_halt (cmd : jsstr) (rest : list jsstr) (r : ExecResult) (t t1 : Trace) :
    exec cmd noDryRun t = (Ok r, t1) ->
    isFailed r || isCancelled r = true ->
    AutoRun exec (cmd :: rest) t [r] t1
| AutoRun_next (cmd : jsstr) (rest : list jsstr) (r : ExecResult)
    (rs : list ExecResult) (t t1 t2 : Trace) :
    exec cmd noDryRun t = (Ok r, t1) ->
    isFailed r || isCancelled r = false ->
    AutoRun exec rest t1 rs t2 ->
    AutoRun exec (cmd :: rest) t (r :: rs) t2.

(** The message of the error [execa] rejects with in the examples. *)
Definition exitFailure : jsstr := js "Command failed with exit code 1".

(** What [execa] resolves to in the examples: the file and its arguments
    joined by spaces, and the exit status 0. *)
Definition exitSuccess (file : option jsstr) (argv : list jsstr) : ExecaResult :=
  mkExecaResult
    (match file with Some f => f | None => [] end
     ++ concat (map (cons SPACE) argv)) 0.

(** The results of two successful commands of the examples. *)
Definition gitAddDone : ExecResult :=
  successResult (exitSuccess (Some (js "git")) [js "add"; js "."]).
Definition gitStatusDone : ExecResult :=
  successResult (exitSuccess (Some (js "git")) [js "status"]).

(** Every process exits with status 0. *)
Definition spawnOk (file : option jsstr) (argv : list jsstr) : Reply ExecaResult :=
  Resolve (exitSuccess file argv).

(** No process exits with status 0. *)
Definition spawnFails (file : option jsstr) (argv : list jsstr) : Reply ExecaResult :=
  Reject exitFailure.

(** A configuration object that has the method, returning [b]. *)
Definition configWith (b : bool) : ConfigManager := mkConfig (Some b).

(** Collaborators that answer every request of a kind in the same way. *)
Definition constEnv (spawn : option jsstr -> list jsstr -> Reply ExecaResult)
  (confirm : bool) (action : jsstr -> Action) (continue : bool) : Env :=
  mkEnv (fun _ => spawn)
        (fun _ _ => Resolve confirm)
        (fun _ cmd => Resolve (action cmd))
        (fun _ => Resolve continue)
        (fun _ _ => Reject (js "Service Unavailable"))
        (fun _ _ => Resolve (-1)%Z)
        (fun _ => Resolve (js "retry"))
        (fun _ _ => Resolve cancel).

(** Every process fails; the user declines whatever is asked and runs each
    step. *)
Definition failingEnv : Env :=
  constEnv spawnFails false (fun _ => execute) false.

(** Every process succeeds; the user declines dangerous commands. *)
Definition decliningEnv : Env :=
  constEnv spawnOk false (fun _ => execute) false.

(** The user runs every command but [git push], on which they quit. *)
Definition quitOnPush : Env :=
  constEnv spawnOk true
    (fun cmd => if jsstr_eqb cmd (js "git push") then quit else execute) false.

(** The first answer of the generator in the recovery example, the option
    it holds, and the second answer. *)
Definition optionsText : jsstr :=
  js "1. Pull first: fetch and merge the remote branch".
Definition pullFirst : SolutionOption :=
  mkSolutionOption (js "Pull first") (js "fetch and merge the remote branch")
    (js "Pull first: fetch and merge the remote branch").
Definition commandsText : jsstr := js "git pull".

(** The values of the two searches on the texts of the example. *)
Definition sampleParsers : TextParsers :=
  mkTextParsers
    (fun s => if jsstr_eqb s optionsText then [pullFirst] else [])
    (fun s => if jsstr_eqb s commandsText then Some [js "git pull"] else None).



(** The shapes of the objects [executeCommand] returns for [cmd]. *)
Inductive RunnerResult (cmd : jsstr) : ExecResult -> Prop :=
| RunnerCancelled : RunnerResult cmd cancelledResult
| RunnerPreviewed : RunnerResult cmd (dryRunResult cmd)
| RunnerSucceeded (res : ExecaResult) : RunnerResult cmd (successResult res)
| RunnerFailed (message : jsstr) : RunnerResult cmd (failedResult message).

(** The number of summary categories a result falls in. *)
Definition kindCount (r : ExecResult) : nat :=
  (if isSucceeded r then 1 else 0) + (if isFailed r then 1 else 0)
  + (if isCancelled r then 1 else 0) + (if isSkipped r then 1 else 0)
  + (if isPreviewedOnly r then 1 else 0).

(** The requests that spawn a process. *)
Definition isSpawn (q : Request) : bool :=
  match q with ReqExeca _ _ => true | _ => false end.
Definition spawned (t : Trace) : list Request := filter isSpawn t.

(** What the [catch] block of [executeCommand] does with [message]. *)
Definition onError (cfg : ConfigManager) (suggest : jsstr -> jsstr -> M unit)
  (cmd : jsstr) (options : Options) (message : jsstr) : M ExecResult :=
  autoSuggestEnabled <- callGetAutoSuggestSolutions cfg ;;
  _ <- (if autoSuggestEnabled && negb (opt_skipSuggestion options)
        then suggest cmd message else ret tt) ;;
  ret (failedResult message).

(** The trace once the danger check of [cmd] is passed. *)
Definition afterDangerCheck (cmd : jsstr) (t : Trace) : Trace :=
  if isDangerousCommand cmd then t ++ [ReqConfirmExecution cmd] else t.

(** The danger check lets [cmd] through: it is not dangerous, or the user
    confirms it. *)
Definition passesDangerCheck (env : Env) (cmd : jsstr) (t : Trace) : Prop :=
  isDangerousCommand cmd = true -> confirmPrompt env t cmd = Resolve true.

(** A step of the interactive mode that records [r] and goes on to the next
    command, as the specification words it: the user skips the command, or
    runs it and, when it failed, accepts to continue. *)
Inductive StepContinues (env : Env) (exec : jsstr -> Options -> M ExecResult)
  (cmd : jsstr) (t : Trace) : ExecResult -> Trace -> Prop :=
| StepSkipped :
    actionPrompt env t cmd = Resolve skip ->
    StepContinues env exec cmd t (skippedResult cmd) (t ++ [ReqAction cmd])
| StepExecuted (r : ExecResult) (t1 : Trace) :
    actionPrompt env t cmd = Resolve execute ->
    exec cmd noDryRun (t ++ [ReqAction cmd]) = (Ok r, t1) ->
    isFailed r = false ->
    StepContinues env exec cmd t r t1
| StepContinued (r : ExecResult) (t1 : Trace) :
    actionPrompt env t cmd = Resolve execute ->
    exec cmd noDryRun (t ++ [ReqAction cmd]) = (Ok r, t1) ->
    isFailed r = true ->
    continuePrompt env t1 = Resolve true ->
    StepContinues env exec cmd t r (t1 ++ [ReqContinueOnError]).

(** The second call ends as the first does, unless the first ran out of
    depth. *)
Definition settled {A} (m1 m2 : M A) : Prop :=
  forall t, fst (m1 t) <> OutOfFuel -> m2 t = m1 t.

(* ================================================================== *)
(** ** Legacy batch executor: [executeMultipleCommandsLegacy] *)

Section Legacy.
(** [this.executeCommand] *)
Variable executeCommand : jsstr -> Options -> M ExecResult.

(** The [for ... of] loop, from the commands still to run and the results
    pushed so far; [continueOnError] is the truthiness of the property of
    that name of [options], which [executeCommand] does not read. *)
Fixpoint legacyLoop (commands : list jsstr) (options : Options)
  (continueOnError : bool) (results : list ExecResult) : M (list ExecResult) :=
  match commands with
  | [] => ret results
  | cmd :: rest =>
      r <- executeCommand cmd options ;;
      let results := results ++ [r] in
      if negb (success r) && negb continueOnError then ret results
      else legacyLoop rest options continueOnError results
  end.

Definition executeMultipleCommandsLegacyWith (commands : list jsstr)
  (options : Options) (continueOnError : bool) : M (list ExecResult) :=
  legacyLoop commands options continueOnError [].
End Legacy.

Definition executeMultipleCommandsLegacy (cfg : ConfigManager) (this : Executor)
  (env : Env) (rx : TextParsers) (depth : nat) (commands : list jsstr)
  (options : Options) (continueOnError : bool) : M (list ExecResult) :=
  executeMultipleCommandsLegacyWith (executeCommand cfg this env rx depth)
    commands options continueOnError.

(* ================================================================== *)
(** ** Vocabulary of the further properties *)

(** The requests of a recovery dialogue. *)
Definition isRecoveryRequest (q : Request) : bool :=
  match q with
  | ReqGenerate _ | ReqSelectedIndex _ | ReqCustomSolution
  | ReqExecutionMode _ => true
  | _ => false
  end.

(** A call that makes no request of the kind [p], whatever the trace it
    starts from. *)
Definition keeps {A} (p : Request -> bool) (m : M A) : Prop :=
  forall t, filter p (snd (m t)) = filter p t.

(** A call that spawns no process. *)
Definition noSpawn {A} (m : M A) : Prop := keeps isSpawn m.

(** A call that makes no request of a recovery dialogue. *)
Definition noRecovery {A} (m : M A) : Prop := keeps isRecoveryRequest m.

(** The process [executeCommand] spawns for [cmd]. *)
Definition spawnOf (cmd : jsstr) : Request :=
  ReqExeca (hd_error (parseCommand cmd)) (tl (parseCommand cmd)).

(** The requests [executeCommand] makes for a command that runs: the
    confirmation when it is dangerous, then the process. *)
Definition requestsOf (cmd : jsstr) : list Request :=
  (if isDangerousCommand cmd then [ReqConfirmExecution cmd] else [])
  ++ [spawnOf cmd].

(** The strings a pattern of [dangerousPatterns] matches: its literal
    characters, with a run of one or more whitespace characters for each
    [\s+]. *)
Inductive Matches : RegExp -> jsstr -> Prop :=
| MatchesEnd : Matches [] []
| MatchesChr (c : char16) (p : RegExp) (m : jsstr) :
    Matches p m -> Matches (Chr c :: p) (c :: m)
| MatchesWs (w : jsstr) (p : RegExp) (m : jsstr) :
    w <> [] -> blank w = true -> Matches p m -> Matches (Ws1 :: p) (w ++ m).

(** Tokens joined by single spaces. *)
Fixpoint unwords (tokens : list jsstr) : jsstr :=
  match tokens with
  | [] => []
  | [tok] => tok
  | tok :: rest => tok ++ SPACE :: unwords rest
  end.

(** A token that needs no quoting: not empty, without whitespace and
    without quote characters. *)
Definition plainToken (tok : jsstr) : Prop :=
  tok <> [] /\ Forall (fun c => isWhiteSpace c = false /\ isQuote c = false) tok.

(** A token written between two quote characters [q]. *)
Definition quoted (q : char16) (tok : jsstr) : jsstr := q :: tok ++ [q].

(** The ways of writing a token on a command line: as it is when it needs
    no quoting, or between two single or two double quotes when it holds
    no such quote and is not blank at either end. *)
Inductive Renders : jsstr -> jsstr -> Prop :=
| RendersPlain (tok : jsstr) : plainToken tok -> Renders tok tok
| RendersQuoted (q : char16) (tok : jsstr) :
    isQuote q = true -> ~ In q tok -> trimmedToken tok ->
    Renders (quoted q tok) tok.

(** A step of the recovery dialogue, given the batch executor: it is
    steady when it ends, with a value or an exception, having made requests
    of the dialogue only, all of this whatever the batch executor is (so
    without calling it). *)
Definition steady {A}
  (step : (list jsstr -> Options -> M (list ExecResult)) -> M A) : Prop :=
  forall t, exists o ev,
    o <> OutOfFuel
    /\ Forall (fun q => isRecoveryRequest q = true) ev
    /\ forall batch, step batch t = (o, t ++ ev).

(** Every process fails; the generator proposes [pullFirst] and then
    [git pull]; the user takes the first option and then cancels at the
    execution-mode prompt. *)
Definition cancellingEnv : Env :=
  mkEnv (fun _ => spawnFails)
        (fun _ _ => Resolve true)
        (fun _ _ => Resolve execute)
        (fun _ => Resolve false)
        (fun _ g => match g with
                    | AskOptions _ _ => Resolve optionsText
                    | AskCommands _ _ _ => Resolve commandsText
                    end)
        (fun _ _ => Resolve 0%Z)
        (fun _ => Resolve (js "retry"))
        (fun _ _ => Resolve cancel).

(* ================================================================== *)
(** ** Vocabulary: what a call asks and how it ends *)



(** A call only adds requests to the trace. *)
Definition grows {A} (m : M A) : Prop :=
  forall t, exists later, snd (m t) = t ++ later.


(** The result [r] is one the runner returned for [cmd], called with
    [options]. *)
Definition resultWith (exec : jsstr -> Options -> M ExecResult)
  (options : Options) (cmd : jsstr) (r : ExecResult) : Prop :=
  exists t t', exec cmd options t = (Ok r, t').

(** A run of the legacy batch executor as its comment words it: the
    commands are run in order with the options of the batch, each from the
    trace its predecessor left, and the run ends with the first result that
    is not a success unless [continueOnError] is set. *)
Inductive LegacyRun (exec : jsstr -> Options -> M ExecResult)
  (options : Options) (continueOnError : bool)
  : list jsstr -> Trace -> list ExecResult -> Trace -> Prop :=
| LegacyRun_done (t : Trace) : LegacyRun exec options continueOnError [] t [] t
| LegacyRun_halt (cmd : jsstr) (rest : list jsstr) (r : ExecResult)
    (t t1 : Trace) :
    exec cmd options t = (Ok r, t1) ->
    success r = false -> continueOnError = false ->
    LegacyRun exec options continueOnError (cmd :: rest) t [r] t1
| LegacyRun_step (cmd : jsstr) (rest : list jsstr) (r : ExecResult)
    (t t1 : Trace) (rs : list ExecResult) (t2 : Trace) :
    exec cmd options t = (Ok r, t1) ->
    success r = true \/ continueOnError = true ->
    LegacyRun exec options continueOnError rest t1 rs t2 ->
    LegacyRun exec options continueOnError (cmd :: rest) t (r :: rs) t2.

(** Where a result of the runner for [cmd], called from the trace [t],
    comes from: the confirmation the user declined, the dry run, the process
    that resolved, or the confirmation prompt or the process that was
    rejected. *)
Inductive RunnerOrigin (this : Executor) (env : Env) (cmd : jsstr)
  (options : Options) (t : Trace) : ExecResult -> Prop :=
| OriginDeclined :
    isDangerousCommand cmd = true -> confirmPrompt env t cmd = Resolve false ->
    RunnerOrigin this env cmd options t cancelledResult
| OriginPreviewed :
    passesDangerCheck env cmd t ->
    this_dryRun this || opt_dryRun options = true ->
    RunnerOrigin this env cmd options t (dryRunResult cmd)
| OriginResolved (res : ExecaResult) :
    passesDangerCheck env cmd t ->
    this_dryRun this || opt_dryRun options = false ->
    execa env (afterDangerCheck cmd t) (hd_error (parseCommand cmd))
      (tl (parseCommand cmd)) = Resolve res ->
    RunnerOrigin this env cmd options t (successResult res)
| OriginPromptRejected (message : jsstr) :
    isDangerousCommand cmd = true -> confirmPrompt env t cmd = Reject message ->
    RunnerOrigin this env cmd options t (failedResult message)
| OriginProcessRejected (message : jsstr) :
    passesDangerCheck env cmd t ->
    this_dryRun this || opt_dryRun options = false ->
    execa env (afterDangerCheck cmd t) (hd_error (parseCommand cmd))
      (tl (parseCommand cmd)) = Reject message ->
    RunnerOrigin this env cmd options t (failedResult message).

(* ================================================================== *)
(** ** String methods and searches with the flag [g] *)

(** [s.startsWith(prefix)] *)
Fixpoint startsWith (prefix s : jsstr) : bool :=
  match prefix, s with
  | [], _ => true
  | p :: prefix', c :: s' => char_eqb c p && startsWith prefix' s'
  | _ :: _, [] => false
  end.

(** The rest of [s] after [prefix], when [s] starts with it. *)
Fixpoint dropPrefix (prefix s : jsstr) : option jsstr :=
  match prefix, s with
  | [], _ => Some s
  | p :: prefix', c :: s' => if char_eqb c p then dropPrefix prefix' s' else None
  | _ :: _, [] => None
  end.

(** [s.split(sep)] for a separator of one character, with [cur] the piece
    being read: one piece more than there are separators. *)
Fixpoint splitOn (sep : char16 -> bool) (cur s : jsstr) : list jsstr :=
  match s with
  | [] => [cur]
  | c :: s' =>
      if sep c then cur :: splitOn sep [] s'
      else splitOn sep (cur ++ [c]) s'
  end.

(** [s.split('\n')] *)
Definition splitLines (s : jsstr) : list jsstr :=
  splitOn (fun c => char_eqb c NEWLINE) [] s.

(** The longest prefix of characters of a class, and what follows it. *)
Fixpoint takeWhile (p : char16 -> bool) (s : jsstr) : jsstr :=
  match s with
  | c :: s' => if p c then c :: takeWhile p s' else []
  | [] => []
  end.

Fixpoint dropWhile (p : char16 -> bool) (s : jsstr) : jsstr :=
  match s with
  | c :: s' => if p c then dropWhile p s' else s
  | [] => []
  end.

(** The first alternative that matches. *)
Fixpoint firstSome {A} (l : list (option A)) : option A :=
  match l with
  | [] => None
  | Some a :: _ => Some a
  | None :: l' => firstSome l'
  end.

(** A regular expression with the flag [g] is given by [matchAt]: the text
    it matches at the head of a string, if any.  [matchAll] is
    [s.match(re)], the matches from left to right, none overlapping, and
    [removeAll] is [s.replace(re, '')]; [skip] counts the characters of the
    last match still to pass.  The expressions used here match no empty
    text. *)
Fixpoint matchAll (matchAt : jsstr -> option jsstr) (skip : nat) (s : jsstr)
  : list jsstr :=
  match s with
  | [] => []
  | _ :: s' =>
      match skip with
      | S k => matchAll matchAt k s'
      | O =>
          match matchAt s with
          | Some m => m :: matchAll matchAt (length m - 1) s'
          | None => matchAll matchAt 0 s'
          end
      end
  end.

Fixpoint removeAll (matchAt : jsstr -> option jsstr) (skip : nat) (s : jsstr)
  : jsstr :=
  match s with
  | [] => []
  | c :: s' =>
      match skip with
      | S k => removeAll matchAt k s'
      | O =>
          match matchAt s with
          | Some m => removeAll matchAt (length m - 1) s'
          | None => c :: removeAll matchAt 0 s'
          end
      end
  end.

(** [new Set(commands)] spread into an array: the first occurrence of every
    string, in order; [seen] holds the strings already in the set. *)
Fixpoint dedup (seen : list jsstr) (commands : list jsstr) : list jsstr :=
  match commands with
  | [] => []
  | cmd :: rest =>
      if existsb (jsstr_eqb cmd) seen then dedup seen rest
      else cmd :: dedup (cmd :: seen) rest
  end.

(** The text of [index + 1]. *)
Definition decimal (n : nat) : jsstr :=
  js (DecimalString.NilZero.string_of_uint (Nat.to_uint n)).

(* ================================================================== *)
(** ** Name of the repository: [extractRepositoryName] *)

Definition SLASH : char16 := 47%N.
Definition BACKSLASH : char16 := 92%N.
Definition COLON : char16 := 58%N.
Definition LESS : char16 := 60%N.
Definition GREATER : char16 := 62%N.

(** [s.includes(c)] for a string [c] of one character. *)
Definition includes (c : char16) (s : jsstr) : bool := existsb (char_eqb c) s.

(** [s.endsWith(suffix)] *)
Definition endsWith (suffix s : jsstr) : bool :=
  startsWith (rev suffix) (rev s).

(** [[^/]], [[^:]] and [[^/\\:]] *)
Definition notSlash (c : char16) : bool := negb (char_eqb c SLASH).
Definition notColon (c : char16) : bool := negb (char_eqb c COLON).
Definition notSeparator (c : char16) : bool :=
  negb (char_eqb c SLASH || char_eqb c BACKSLASH || char_eqb c COLON).

(** A lazy group [([class]+?)] followed by optional parts and [$]: [tails]
    lists the texts the optional parts and [$] accept.  With [name] read so
    far, the group stops as soon as what is left is one of them, and takes
    one more character of the class otherwise. *)
Fixpoint lazyName (allowed : char16 -> bool) (tails : list jsstr)
  (name rest : jsstr) : option jsstr :=
  if existsb (jsstr_eqb rest) tails then Some name
  else
    match rest with
    | c :: rest' =>
        if allowed c then lazyName allowed tails (name ++ [c]) rest' else None
    | [] => None
    end.

(** The group takes one character at least. *)
Definition nameAt (allowed : char16 -> bool) (tails : list jsstr) (s : jsstr)
  : option jsstr :=
  match s with
  | c :: rest => if allowed c then lazyName allowed tails [c] rest else None
  | [] => None
  end.

(** [remoteUrl.match(/^git@[^:]+:([^\/]+)\/([^\/]+?)(?:\.git)?$/)], its
    second group: the host runs to the first colon, the user to the first
    slash after it, and neither is empty. *)
Definition sshMatch (remoteUrl : jsstr) : option jsstr :=
  match dropPrefix (js "git@") remoteUrl with
  | None => None
  | Some r =>
      match takeWhile notColon r, dropWhile notColon r with
      | _ :: _, _ :: r' =>
          match takeWhile notSlash r', dropWhile notSlash r' with
          | _ :: _, _ :: name => nameAt notSlash [js ".git"; []] name
          | _, _ => None
          end
      | _, _ => None
      end
  end.

(** [remoteUrl.match(/\/([^\/]+?)(?:\.git)?(?:\/)?$/)], its group: the
    match at the first slash that has one. *)
Fixpoint httpsMatch (remoteUrl : jsstr) : option jsstr :=
  match remoteUrl with
  | [] => None
  | c :: rest =>
      match (if char_eqb c SLASH
             then nameAt notSlash [js ".git/"; js ".git"; js "/"; []] rest
             else None) with
      | Some name => Some name
      | None => httpsMatch rest
      end
  end.

(** [remoteUrl.match(/([^\/\\:]+?)(?:\.git)?$/)], its group: the match at
    the first index that has one. *)
Fixpoint generalMatch (remoteUrl : jsstr) : option jsstr :=
  match nameAt notSeparator [js ".git"; []] remoteUrl with
  | Some name => Some name
  | None =>
      match remoteUrl with
      | [] => None
      | _ :: rest => generalMatch rest
      end
  end.

(** [s.replace(/\.git$/, '')] *)
Definition stripGit (s : jsstr) : jsstr :=
  if endsWith (js ".git") s then firstn (length s - 4) s else s.

Definition extractRepositoryName (remoteUrl : jsstr) : jsstr :=
  if negb (truthy remoteUrl) then []
  else if includes LESS remoteUrl && includes GREATER remoteUrl then []
  else
    let repoName :=
      match sshMatch remoteUrl with
      | Some name => name
      | None =>
          if startsWith (js "http") remoteUrl then
            match httpsMatch remoteUrl with
            | Some name => name
            | None => []
            end
          else
            match generalMatch remoteUrl with
            | Some name => name
            | None => []
            end
      end in
    if truthy repoName && Nat.ltb 0 (length repoName)
       && negb (jsstr_eqb repoName (js "."))
       && negb (jsstr_eqb repoName (js ".."))
    then repoName
    else
      let fallbackMatch :=
        last (splitOn (fun c => char_eqb c SLASH || char_eqb c BACKSLASH)
                      [] remoteUrl) [] in
      if truthy fallbackMatch && Nat.ltb 0 (length fallbackMatch)
      then stripGit fallbackMatch
      else [].

(** The two usual ways of writing the address of a repository. *)
Definition sshUrl (host user repo : jsstr) : jsstr :=
  js "git@" ++ host ++ COLON :: user ++ SLASH :: repo.

Definition httpsUrl (host user repo : jsstr) : jsstr :=
  js "https://" ++ host ++ SLASH :: user ++ SLASH :: repo.

(** A name that can be read back from an address: not empty, without a
    slash, not ending in [.git], and neither [.] nor [..]. *)
Definition repositoryName (repo : jsstr) : Prop :=
  repo <> [] /\ forallb notSlash repo = true
  /\ endsWith (js ".git") repo = false
  /\ repo <> js "." /\ repo <> js "..".

(* ================================================================== *)
(** ** Reading and checking the commands of a response: [PromptTemplate] *)

Module PromptTemplate.

Definition FENCE : jsstr := [BACKTICK; BACKTICK; BACKTICK].

(** The languages of [(?:bash|shell|sh)?], in the order in which they are
    tried; the empty one is the group left out. *)
Definition languages : list jsstr := [js "bash"; js "shell"; js "sh"; []].

(** [([\s\S]*?)```] at the head of [s]: the text up to the first fence, with
    that fence. *)
Fixpoint untilFence (s : jsstr) : option jsstr :=
  match dropPrefix FENCE s with
  | Some _ => Some FENCE
  | None =>
      match s with
      | [] => None
      | c :: s' => option_map (cons c) (untilFence s')
      end
  end.

(** [/```(?:bash|shell|sh)?\n([\s\S]*?)```/] at the head of [s]. *)
Definition blockAt (s : jsstr) : option jsstr :=
  match dropPrefix FENCE s with
  | None => None
  | Some r =>
      firstSome
        (map (fun lang =>
                match dropPrefix (lang ++ [NEWLINE]) r with
                | Some body =>
                    option_map (fun m => FENCE ++ lang ++ [NEWLINE] ++ m)
                               (untilFence body)
                | None => None
                end)
             languages)
  end.

(** [/```(?:bash|shell|sh)?\n?/] at the head of [s]: every part after the
    fence is optional and taken when it is there. *)
Definition fenceAt (s : jsstr) : option jsstr :=
  match dropPrefix FENCE s with
  | None => None
  | Some r =>
      let lang :=
        match firstSome (map (fun lang =>
                                match dropPrefix lang r with
                                | Some _ => Some lang
                                | None => None
                                end) languages) with
        | Some lang => lang
        | None => []
        end in
      let newline :=
        match dropPrefix (lang ++ [NEWLINE]) r with
        | Some _ => [NEWLINE]
        | None => []
        end in
      Some (FENCE ++ lang ++ newline)
  end.

(** [/```/] at the head of [s]. *)
Definition bareFenceAt (s : jsstr) : option jsstr :=
  match dropPrefix FENCE s with
  | Some _ => Some FENCE
  | None => None
  end.

(** [\w] *)
Definition isWordChar (c : char16) : bool :=
  ((48 <=? c) && (c <=? 57))%N || ((65 <=? c) && (c <=? 90))%N
  || ((97 <=? c) && (c <=? 122))%N || (c =? 95)%N.

(** [[\w\s\-\.\/]] *)
Definition isCommandChar (c : char16) : bool :=
  isWordChar c || isWhiteSpace c || (c =? 45)%N || (c =? 46)%N || (c =? 47)%N.

(** [/git\s+[\w\s\-\.\/]+/] at the head of [s].  Whitespace belongs to the
    class, so the match is [git] with the longest run of characters of the
    class after it, when that run starts with a whitespace character and
    has two characters at least (one for [\s+], one for the class). *)
Definition gitAt (s : jsstr) : option jsstr :=
  match dropPrefix (js "git") s with
  | Some r =>
      match takeWhile isCommandChar r with
      | (w :: _ :: _) as run =>
          if isWhiteSpace w then Some (js "git" ++ run) else None
      | _ => None
      end
  | None => None
  end.

(** The lines of a block that are kept. *)
Definition keepLine (line : jsstr) : bool :=
  truthy (trim line) && negb (startsWith (js "#") line).

(** The body of [codeBlocks.forEach]: the commands of one block. *)
Definition blockCommands (block : jsstr) : list jsstr :=
  let content := removeAll bareFenceAt 0 (removeAll fenceAt 0 block) in
  let lines := filter keepLine (splitLines content) in
  map trim lines.

Definition isGitLine (trimmed : jsstr) : bool :=
  startsWith (js "git ") trimmed || startsWith (js "gh ") trimmed.

Definition parseCommands (response : jsstr) : list jsstr :=
  let codeBlocks := matchAll blockAt 0 response in
  let commands := flat_map blockCommands codeBlocks in
  let commands :=
    if Nat.eqb (length commands) 0
    then filter isGitLine (map trim (splitLines response))
    else commands in
  let commands :=
    if Nat.eqb (length commands) 0
    then map trim (matchAll gitAt 0 response)
    else commands in
  filter (fun cmd => negb (Nat.eqb (length cmd) 0)) (dedup [] commands).

(** The five patterns of [validateCommands]. *)
Definition dangerousPatterns : list RegExp :=
  [ lit "git" ++ [Ws1] ++ lit "reset" ++ [Ws1] ++ lit "--hard";
    lit "git" ++ [Ws1] ++ lit "clean" ++ [Ws1] ++ lit "-f";
    lit "git" ++ [Ws1] ++ lit "push" ++ [Ws1] ++ lit "--force";
    lit "rm" ++ [Ws1] ++ lit "-rf";
    lit "git" ++ [Ws1] ++ lit "filter-branch" ].

(** The two messages, in UTF-16 code units. *)
Definition messageHead (index : nat) (command : jsstr) : jsstr :=
  [47749; 47161; 50612; 32]%N ++ decimal (index + 1)
  ++ js ": " ++ [DQUOTE] ++ command ++ [DQUOTE] ++ js " - ".

Definition warningText (index : nat) (command : jsstr) : jsstr :=
  messageHead index command
  ++ [50948; 54744; 54624; 32; 49688; 32; 51080; 45716; 32;
      47749; 47161; 50612; 51077; 45768; 45796; 46]%N.

Definition issueText (index : nat) (command : jsstr) : jsstr :=
  messageHead index command
  ++ js "Git " ++ [47749; 47161; 50612; 44032; 32; 50500; 45785; 45768; 45796; 46]%N.

Record Validation := mkValidation {
  isValid : bool;
  issues : list jsstr;
  warnings : list jsstr;
  commandCount : nat
}.

(** The body of [commands.forEach], on the two arrays. *)
Definition validateStep (acc : list jsstr * list jsstr) (index : nat)
  (command : jsstr) : list jsstr * list jsstr :=
  let warnings :=
    fold_left (fun warnings pattern =>
                 if test pattern command
                 then warnings ++ [warningText index command]
                 else warnings)
              dangerousPatterns (snd acc) in
  let issues :=
    if negb (startsWith (js "git ") command)
       && negb (startsWith (js "gh ") command)
    then fst acc ++ [issueText index command]
    else fst acc in
  (issues, warnings).

Fixpoint validateLoop (commands : list jsstr) (index : nat)
  (acc : list jsstr * list jsstr) : list jsstr * list jsstr :=
  match commands with
  | [] => acc
  | command :: rest => validateLoop rest (S index) (validateStep acc index command)
  end.

Definition validateCommands (commands : list jsstr) : Validation :=
  let acc := validateLoop commands 0 ([], []) in
  mkValidation (Nat.eqb (length (fst acc)) 0) (fst acc) (snd acc)
               (length commands).

End PromptTemplate.

(* ================================================================== *)
(** * Properties *)

(** ** Strings *)

Lemma char_eqb_eq (a b : char16) : char_eqb a b = true <-> a = b.
Proof. apply N.eqb_eq. Qed.

Lemma trimStart_blank_app (w s : jsstr) :
  blank w = true -> trimStart (w ++ s) = trimStart s.
Proof.
  induction w as [|c w IH]; simpl; intros H; [reflexivity|].
  apply andb_true_iff in H as [Hc Hw]. rewrite Hc. auto.
Qed.

Lemma trimStart_head (s : jsstr) :
  trimStart s = [] \/
  exists c r, trimStart s = c :: r /\ isWhiteSpace c = false.
Proof.
  induction s as [|c s IH]; simpl; [now left|].
  destruct (isWhiteSpace c) eqn:E; [exact IH|].
  right. now exists c, s.
Qed.

Lemma trimStart_nil_iff (s : jsstr) : trimStart s = [] <-> blank s = true.
Proof.
  induction s as [|c s IH]; simpl; [tauto|].
  destruct (isWhiteSpace c); simpl; [exact IH|].
  split; discriminate.
Qed.

Lemma blank_rev (s : jsstr) : blank (rev s) = blank s.
Proof.
  unfold blank. induction s as [|c s IH]; simpl; [reflexivity|].
  rewrite forallb_app, IH. simpl. rewrite andb_true_r. apply andb_comm.
Qed.

Lemma blank_app (a b : jsstr) : blank (a ++ b) = blank a && blank b.
Proof. apply forallb_app. Qed.

Lemma blank_trimStart (s : jsstr) : blank (trimStart s) = true -> blank s = true.
Proof.
  induction s as [|c s IH]; simpl; [trivial|].
  destruct (isWhiteSpace c) eqn:E; simpl; [exact IH|].
  rewrite E. discriminate.
Qed.

Lemma trim_nil_iff (s : jsstr) : trim s = [] <-> blank s = true.
Proof.
  unfold trim, trimEnd. split.
  - intros H. apply (f_equal (@rev _)) in H. rewrite rev_involutive in H.
    simpl in H. apply trimStart_nil_iff in H. rewrite blank_rev in H.
    now apply blank_trimStart.
  - intros H. apply trimStart_nil_iff in H. rewrite H. reflexivity.
Qed.

Lemma truthy_trim (s : jsstr) : truthy (trim s) = negb (blank s).
Proof.
  destruct (blank s) eqn:E.
  - apply trim_nil_iff in E. now rewrite E.
  - destruct (trim s) eqn:T; [|reflexivity].
    apply trim_nil_iff in T. congruence.
Qed.

Lemma trim_blank_app (w s : jsstr) : blank w = true -> trim (w ++ s) = trim s.
Proof. intros H. unfold trim. now rewrite trimStart_blank_app. Qed.

Lemma trimStart_fixed (s : jsstr) :
  (forall c r, s = c :: r -> isWhiteSpace c = false) -> trimStart s = s.
Proof.
  destruct s as [|c r]; [reflexivity|]. intros H. simpl.
  now rewrite (H c r eq_refl).
Qed.

Lemma trimStart_snoc (l : jsstr) (c : char16) :
  isWhiteSpace c = false -> exists l', trimStart (l ++ [c]) = l' ++ [c].
Proof.
  intros Hc. induction l as [|x l IH]; simpl.
  - rewrite Hc. now exists [].
  - destruct (isWhiteSpace x); [exact IH|]. now exists (x :: l).
Qed.

Lemma trimStart_idempotent (s : jsstr) : trimStart (trimStart s) = trimStart s.
Proof.
  apply trimStart_fixed. intros x y Hx.
  destruct (trimStart_head s) as [N|(c' & r' & E' & Hc')].
  - rewrite N in Hx. discriminate.
  - rewrite E' in Hx. now inversion Hx; subst.
Qed.

(** [trim] leaves nothing to trim. *)
Lemma trim_idempotent (s : jsstr) : trim (trim s) = trim s.
Proof.
  unfold trim at 2 3. destruct (trimStart_head s) as [E|(c & r & E & Hc)].
  - rewrite E. reflexivity.
  - rewrite E.
    destruct (trimStart_snoc (rev r) c Hc) as [l' El].
    assert (F : trimStart (l' ++ [c]) = l' ++ [c])
      by (rewrite <- El; apply trimStart_idempotent).
    assert (T : trimEnd (c :: r) = c :: rev l').
    { unfold trimEnd. simpl rev. rewrite El, rev_app_distr. reflexivity. }
    rewrite T. unfold trim, trimEnd. simpl trimStart. rewrite Hc.
    simpl rev. rewrite rev_involutive, F, rev_app_distr. reflexivity.
Qed.

(** ** Tokenizer *)

Lemma parseLoop_app (st : ParseState) (a b : jsstr) :
  parseLoop st (a ++ b) = parseLoop (parseLoop st a) b.
Proof. apply fold_left_app. Qed.

Lemma parseLoop_cons (st : ParseState) (c : char16) (s : jsstr) :
  parseLoop st (c :: s) = parseLoop (parseStep st c) s.
Proof. reflexivity. Qed.

(** Outside a quoted span no closing character is remembered. *)
Lemma parseStep_quoteChar (st : ParseState) (c : char16) :
  (inQuotes st = false -> quoteChar st = None) ->
  inQuotes (parseStep st c) = false -> quoteChar (parseStep st c) = None.
Proof.
  intros I. unfold parseStep.
  destruct (_ && negb (inQuotes st)); simpl; [discriminate|].
  destruct (_ && inQuotes st); simpl; [reflexivity|].
  destruct (_ && negb (inQuotes st)); simpl; [|exact I].
  destruct (truthy _); simpl; exact I.
Qed.

Lemma parseLoop_quoteChar (s : jsstr) (st : ParseState) :
  (inQuotes st = false -> quoteChar st = None) ->
  inQuotes (parseLoop st s) = false -> quoteChar (parseLoop st s) = None.
Proof.
  revert st. induction s as [|c s IH]; intros st I; [exact I|].
  rewrite parseLoop_cons. apply IH. now apply parseStep_quoteChar.
Qed.

(** The arguments pushed before a state are a prefix of the final ones. *)
Lemma tokensFrom_args (s : jsstr) (A : list jsstr) (cur : jsstr) (q : bool)
  (qc : option char16) :
  tokensFrom (mkParseState A cur q qc) s
  = A ++ tokensFrom (mkParseState [] cur q qc) s.
Proof.
  unfold tokensFrom. revert A cur q qc.
  induction s as [|c s IH]; intros A cur q qc.
  - unfold parseLoop, parseFinish. simpl.
    destruct (truthy (trim cur)); [reflexivity|now rewrite app_nil_r].
  - rewrite !parseLoop_cons. unfold parseStep; simpl.
    destruct (_ && negb q); [apply IH|].
    destruct (_ && q); [apply IH|].
    destruct (_ && negb q); [|apply IH].
    destruct (truthy (trim cur)); [|apply IH].
    rewrite IH. rewrite (IH [trim cur]). now rewrite app_assoc.
Qed.

(** Blank text in front of the pending token changes no token. *)
Lemma tokensFrom_blank (w : jsstr) (s : jsstr) (A : list jsstr) (cur : jsstr)
  (q : bool) (qc : option char16) :
  blank w = true ->
  tokensFrom (mkParseState A (w ++ cur) q qc) s
  = tokensFrom (mkParseState A cur q qc) s.
Proof.
  intros Hw. unfold tokensFrom. revert A cur q qc.
  induction s as [|c s IH]; intros A cur q qc.
  - unfold parseLoop, parseFinish. simpl. now rewrite trim_blank_app.
  - rewrite !parseLoop_cons. unfold parseStep; simpl.
    destruct (_ && negb q); [apply IH|].
    destruct (_ && q); [apply IH|].
    destruct (_ && negb q).
    + rewrite trim_blank_app by assumption.
      destruct (truthy (trim cur)); [reflexivity|apply IH].
    + rewrite <- app_assoc. apply IH.
Qed.

(** Inside a span opened by [q], every character but [q] is content. *)
Lemma parseLoop_inside (q : char16) (s : jsstr) (A : list jsstr) (cur : jsstr) :
  ~ In q s ->
  parseLoop (mkParseState A cur true (Some q)) s
  = mkParseState A (cur ++ s) true (Some q).
Proof.
  revert cur. induction s as [|c s IH]; intros cur H.
  - now rewrite app_nil_r.
  - rewrite parseLoop_cons. unfold parseStep; simpl.
    rewrite !andb_false_r. simpl.
    destruct (char_eqb c q) eqn:E.
    + apply char_eqb_eq in E. subst. exfalso. apply H. now left.
    + simpl. rewrite IH by (intros F; apply H; now right).
      now rewrite <- app_assoc.
Qed.

Lemma parseStep_open (q : char16) (A : list jsstr) (cur : jsstr)
  (qc : option char16) :
  isQuote q = true ->
  parseStep (mkParseState A cur false qc) q = mkParseState A cur true (Some q).
Proof. intros H. unfold parseStep, isQuote in *. simpl. now rewrite H. Qed.

Lemma parseStep_close (q : char16) (A : list jsstr) (cur : jsstr) :
  parseStep (mkParseState A cur true (Some q)) q = mkParseState A cur false None.
Proof.
  unfold parseStep. simpl. rewrite andb_false_r. simpl.
  now rewrite (proj2 (char_eqb_eq q q) eq_refl).
Qed.

Lemma isQuote_not_whitespace (c : char16) :
  isWhiteSpace c = true -> isQuote c = false.
Proof.
  unfold isQuote. intros H.
  destruct (char_eqb c DQUOTE) eqn:E1; [apply char_eqb_eq in E1; now subst|].
  destruct (char_eqb c SQUOTE) eqn:E2; [apply char_eqb_eq in E2; now subst|].
  reflexivity.
Qed.

(** Blank input leaves the loop with no argument and a blank pending token. *)
Lemma parseLoop_blank (s : jsstr) (cur : jsstr) :
  blank s = true -> blank cur = true ->
  exists cur', blank cur' = true /\
    parseLoop (mkParseState [] cur false None) s = mkParseState [] cur' false None.
Proof.
  revert cur. induction s as [|c s IH]; intros cur Hs Hc.
  - now exists cur.
  - simpl in Hs. apply andb_true_iff in Hs as [Hw Hs].
    rewrite parseLoop_cons. unfold parseStep; simpl.
    pose proof (isQuote_not_whitespace c Hw) as Q. unfold isQuote in Q.
    rewrite Q. simpl. rewrite andb_true_r.
    destruct (char_eqb c SPACE).
    + rewrite truthy_trim, Hc. simpl. now apply IH.
    + apply IH; [assumption|]. rewrite blank_app, Hc. simpl. now rewrite Hw.
Qed.

Lemma trimmedToken_trim (cur : jsstr) :
  truthy (trim cur) = true -> trimmedToken (trim cur).
Proof.
  intros H. split; [|apply trim_idempotent].
  intros E. rewrite E in H. discriminate.
Qed.

Lemma parseStep_trimmed (st : ParseState) (c : char16) :
  Forall trimmedToken (args st) -> Forall trimmedToken (args (parseStep st c)).
Proof.
  intros H. unfold parseStep.
  destruct (_ && negb (inQuotes st)); simpl; [exact H|].
  destruct (_ && inQuotes st); simpl; [exact H|].
  destruct (_ && negb (inQuotes st)); simpl; [|exact H].
  destruct (truthy (trim (current st))) eqn:T; simpl; [|exact H].
  apply Forall_app. split; [exact H|].
  constructor; [now apply trimmedToken_trim|constructor].
Qed.

Lemma parseLoop_trimmed (s : jsstr) (st : ParseState) :
  Forall trimmedToken (args st) -> Forall trimmedToken (args (parseLoop st s)).
Proof.
  revert st. induction s as [|c s IH]; intros st H; [exact H|].
  rewrite parseLoop_cons. apply IH. now apply parseStep_trimmed.
Qed.

Lemma parseCommand_trimmed (s : jsstr) : Forall trimmedToken (parseCommand s).
Proof.
  unfold parseCommand, parseFinish.
  pose proof (parseLoop_trimmed s parseInit (Forall_nil _)) as H.
  destruct (truthy (trim (current (parseLoop parseInit s)))) eqn:T; [|exact H].
  apply Forall_app. split; [exact H|].
  constructor; [now apply trimmedToken_trim|constructor].
Qed.

(** A space outside a quoted span separates the tokens on its two sides. *)
Lemma parseCommand_space (a b : jsstr) :
  inQuotes (parseLoop parseInit a) = false ->
  parseCommand (a ++ SPACE :: b) = parseCommand a ++ parseCommand b.
Proof.
  intros Hq.
  pose proof (parseLoop_quoteChar a parseInit (fun _ => eq_refl) Hq) as Hc.
  change (tokensFrom parseInit (a ++ SPACE :: b)
          = parseFinish (parseLoop parseInit a) ++ tokensFrom parseInit b).
  unfold tokensFrom at 1. rewrite parseLoop_app, parseLoop_cons.
  fold (tokensFrom (parseStep (parseLoop parseInit a) SPACE) b).
  destruct (parseLoop parseInit a) as [A cur q qc]. simpl in Hq, Hc. subst.
  unfold parseStep, parseFinish, parseInit.
  cbn [args current inQuotes quoteChar isQuoteChar negb andb orb].
  change (char_eqb SPACE DQUOTE) with false.
  change (char_eqb SPACE SQUOTE) with false.
  change (char_eqb SPACE SPACE) with true.
  cbn [negb andb orb].
  destruct (truthy (trim cur)) eqn:T.
  - now rewrite tokensFrom_args.
  - rewrite truthy_trim in T. apply negb_false_iff in T.
    rewrite <- (app_nil_r cur) at 1. rewrite tokensFrom_blank by assumption.
    now rewrite tokensFrom_args.
Qed.

(** A quoted span is appended to the pending token without its quotes. *)
Lemma parseLoop_span (pre s : jsstr) (q : char16) :
  inQuotes (parseLoop parseInit pre) = false ->
  isQuote q = true -> ~ In q s ->
  parseLoop parseInit (pre ++ q :: s ++ [q])
  = mkParseState (args (parseLoop parseInit pre))
                 (current (parseLoop parseInit pre) ++ s) false None.
Proof.
  intros Hq Q Hs.
  rewrite parseLoop_app, parseLoop_cons, parseLoop_app.
  destruct (parseLoop parseInit pre) as [A cur iq qc]. simpl in Hq. subst.
  rewrite parseStep_open by assumption.
  rewrite parseLoop_inside by assumption.
  simpl. unfold parseLoop. simpl. apply parseStep_close.
Qed.

(** A quote that is never closed extends to the end of the string. *)
Lemma parseCommand_unterminated (pre s : jsstr) (q : char16) :
  inQuotes (parseLoop parseInit pre) = false ->
  isQuote q = true -> ~ In q s ->
  parseCommand (pre ++ q :: s)
  = parseFinish (mkParseState (args (parseLoop parseInit pre))
                   (current (parseLoop parseInit pre) ++ s) true (Some q)).
Proof.
  intros Hq Q Hs. unfold parseCommand.
  rewrite parseLoop_app, parseLoop_cons.
  destruct (parseLoop parseInit pre) as [A cur iq qc]. simpl in Hq. subst.
  rewrite parseStep_open by assumption.
  now rewrite parseLoop_inside.
Qed.

Lemma parseCommand_blank (s : jsstr) : blank s = true -> parseCommand s = [].
Proof.
  intros H. unfold parseCommand, parseInit.
  destruct (parseLoop_blank s [] H eq_refl) as (cur' & B & E). rewrite E.
  unfold parseFinish. simpl. now rewrite truthy_trim, B.
Qed.

(** A character that is neither a space nor a quote is content. *)
Lemma parseLoop_other (a : jsstr) (c : char16) :
  inQuotes (parseLoop parseInit a) = false ->
  c <> SPACE -> isQuote c = false ->
  parseLoop parseInit (a ++ [c])
  = mkParseState (args (parseLoop parseInit a))
      (current (parseLoop parseInit a) ++ [c]) false None.
Proof.
  intros Hq N Q.
  pose proof (parseLoop_quoteChar a parseInit (fun _ => eq_refl) Hq) as Hc.
  rewrite parseLoop_app.
  destruct (parseLoop parseInit a) as [A cur q qc]. simpl in Hq, Hc. subst.
  unfold parseLoop. cbn [fold_left]. unfold parseStep, isQuote in *.
  cbn [args current inQuotes quoteChar isQuoteChar negb andb].
  rewrite Q. cbn [andb].
  destruct (char_eqb c SPACE) eqn:E; [apply char_eqb_eq in E; contradiction|].
  reflexivity.
Qed.

(** Without quotes the tokens are the pieces between spaces, trimmed, those
    that are empty after trimming left out. *)
Lemma tokensFrom_unquoted (s : jsstr) :
  (forall c, In c s -> isQuote c = false) ->
  forall A cur,
  tokensFrom (mkParseState A cur false None) s
  = A ++ filter truthy
           (map trim (splitOn (fun c => char_eqb c SPACE) cur s)).
Proof.
  induction s as [|c s IH]; intros Q A cur.
  - unfold tokensFrom, parseLoop, parseFinish. simpl.
    destruct (truthy (trim cur)); [reflexivity|now rewrite app_nil_r].
  - assert (Qc : isQuote c = false) by (apply Q; now left).
    assert (Qs : forall x, In x s -> isQuote x = false)
      by (intros x I; apply Q; now right).
    unfold tokensFrom. rewrite parseLoop_cons.
    fold (tokensFrom (parseStep (mkParseState A cur false None) c) s).
    unfold parseStep, isQuote in *.
    cbn [args current inQuotes quoteChar isQuoteChar negb andb splitOn].
    rewrite Qc. cbn [andb].
    destruct (char_eqb c SPACE) eqn:E; cbn [andb].
    + cbn [map filter]. destruct (truthy (trim cur)) eqn:T.
      * rewrite (IH Qs). now rewrite <- app_assoc.
      * rewrite truthy_trim in T. apply negb_false_iff in T.
        rewrite <- (app_nil_r cur) at 1.
        rewrite tokensFrom_blank by assumption. apply (IH Qs).
    + apply (IH Qs).
Qed.

Lemma parseCommand_unquoted (s : jsstr) :
  (forall c, In c s -> isQuote c = false) ->
  parseCommand s
  = filter truthy (map trim (splitOn (fun c => char_eqb c SPACE) [] s)).
Proof. intros Q. apply (tokensFrom_unquoted s Q [] []). Qed.

(** The two examples of the specification for the tokenizer and for the
    danger classifier. *)
Lemma parseCommand_push_example :
  parseCommand (js "git push origin main")
  = [js "git"; js "push"; js "origin"; js "main"].
Proof. vm_compute. reflexivity. Qed.

Lemma isDangerousCommand_examples :
  isDangerousCommand (js "git reset --hard HEAD~1") = true
  /\ isDangerousCommand (js "git status") = false.
Proof. split; vm_compute; reflexivity. Qed.

(** ** Batch executor, for any single-command runner *)

Lemma mapOk_mapOk {A B C} (f : A -> B) (g : B -> C) (x : Outcome A * Trace) :
  mapOk g (mapOk f x) = mapOk (fun a => g (f a)) x.
Proof. now destruct x as [[a|e|] t]. Qed.

Lemma mapOk_ext {A B} (f g : A -> B) (x : Outcome A * Trace) :
  (forall a, f a = g a) -> mapOk f x = mapOk g x.
Proof. intros H. destruct x as [[a|e|] t]; simpl; now rewrite ?H. Qed.

Lemma mapOk_id {A} (x : Outcome A * Trace) : mapOk (fun a => a) x = x.
Proof. now destruct x as [[a|e|] t]. Qed.

Lemma mapOk_Ok {A B} (f : A -> B) (x : Outcome A * Trace) (b : B) (t : Trace) :
  mapOk f x = (Ok b, t) -> exists a, x = (Ok a, t) /\ b = f a.
Proof.
  destruct x as [[a|e|] t0]; simpl; intros H; inversion H; subst.
  now exists a.
Qed.

Section BatchFacts.
Variable env : Env.
Variable exec : jsstr -> Options -> M ExecResult.

Lemma autoLoop_acc (commands : list jsstr) (acc : list ExecResult) (t : Trace) :
  autoLoop exec commands acc t = mapOk (app acc) (autoLoop exec commands [] t).
Proof.
  revert acc t. induction commands as [|cmd rest IH]; intros acc t.
  - simpl. unfold ret. now rewrite app_nil_r.
  - simpl. unfold bind.
    destruct (exec cmd noDryRun t) as [[r|e|] t1]; try reflexivity.
    destruct (negb (success r) && negb (cancelled r)); [reflexivity|].
    destruct (cancelled r); [reflexivity|].
    rewrite IH. rewrite (IH [r]). rewrite mapOk_mapOk.
    apply mapOk_ext. intros a. now rewrite <- app_assoc.
Qed.

(** One turn of the loop of the automatic mode. *)
Lemma autoLoop_cons (cmd : jsstr) (rest : list jsstr) (t : Trace) :
  autoLoop exec (cmd :: rest) [] t =
  match exec cmd noDryRun t with
  | (Ok r, t1) =>
      if isFailed r || isCancelled r then (Ok [r], t1)
      else mapOk (cons r) (autoLoop exec rest [] t1)
  | (Throw e, t1) => (Throw e, t1)
  | (OutOfFuel, t1) => (OutOfFuel, t1)
  end.
Proof.
  simpl. unfold bind, isFailed, isCancelled.
  destruct (exec cmd noDryRun t) as [[r|e|] t1]; try reflexivity.
  destruct (negb (success r) && negb (cancelled r)); [reflexivity|].
  destruct (cancelled r); [reflexivity|].
  simpl. now rewrite autoLoop_acc.
Qed.

Lemma interactiveLoop_acc (commands : list jsstr) (acc : list ExecResult)
  (t : Trace) :
  interactiveLoop env exec commands acc t
  = mapOk (app acc) (interactiveLoop env exec commands [] t).
Proof.
  revert acc t. induction commands as [|cmd rest IH]; intros acc t.
  - simpl. unfold ret. now rewrite app_nil_r.
  - simpl. unfold bind, await.
    destruct (actionPrompt env t cmd) as [[| |]|e]; simpl; try reflexivity.
    + destruct (exec cmd noDryRun _) as [[r|e|] t1]; try reflexivity.
      destruct (negb (success r) && negb (cancelled r)).
      * destruct (continuePrompt env t1) as [[|]|e]; simpl; try reflexivity.
        rewrite IH. rewrite (IH [r]). rewrite mapOk_mapOk.
        apply mapOk_ext. intros a. now rewrite <- app_assoc.
      * rewrite IH. rewrite (IH [r]). rewrite mapOk_mapOk.
        apply mapOk_ext. intros a. now rewrite <- app_assoc.
    + rewrite IH. rewrite (IH [_]). rewrite mapOk_mapOk.
      apply mapOk_ext. intros a. now rewrite <- app_assoc.
    + unfold ret. now rewrite app_nil_r.
Qed.

(** One turn of the loop of the interactive mode. *)
Lemma interactiveLoop_cons (cmd : jsstr) (rest : list jsstr) (t : Trace) :
  interactiveLoop env exec (cmd :: rest) [] t =
  let t0 := t ++ [ReqAction cmd] in
  match actionPrompt env t cmd with
  | Reject e => (Throw e, t0)
  | Resolve quit => (Ok [], t0)
  | Resolve skip =>
      mapOk (cons (skippedResult cmd)) (interactiveLoop env exec rest [] t0)
  | Resolve execute =>
      match exec cmd noDryRun t0 with
      | (Ok r, t1) =>
          if isFailed r then
            match continuePrompt env t1 with
            | Reject e => (Throw e, t1 ++ [ReqContinueOnError])
            | Resolve false => (Ok [r], t1 ++ [ReqContinueOnError])
            | Resolve true =>
                mapOk (cons r)
                  (interactiveLoop env exec rest [] (t1 ++ [ReqContinueOnError]))
            end
          else mapOk (cons r) (interactiveLoop env exec rest [] t1)
      | (Throw e, t1) => (Throw e, t1)
      | (OutOfFuel, t1) => (OutOfFuel, t1)
      end
  end.
Proof.
  simpl. unfold bind, await, isFailed.
  destruct (actionPrompt env t cmd) as [[| |]|e]; simpl; try reflexivity.
  - destruct (exec cmd noDryRun _) as [[r|e|] t1]; try reflexivity.
    destruct (negb (success r) && negb (cancelled r)).
    + destruct (continuePrompt env t1) as [[|]|e]; simpl; try reflexivity.
      now rewrite interactiveLoop_acc.
    + now rewrite interactiveLoop_acc.
  - now rewrite interactiveLoop_acc.
Qed.
End BatchFacts.

Section BatchCorrespondence.
Variable env : Env.
Variable exec : jsstr -> Options -> M ExecResult.

Lemma autoLoop_AutoRun (commands : list jsstr) (t : Trace)
  (rs : list ExecResult) (t' : Trace) :
  autoLoop exec commands [] t = (Ok rs, t') <-> AutoRun exec commands t rs t'.
Proof.
  split.
  - revert t rs t'. induction commands as [|cmd rest IH]; intros t rs t' H.
    + inversion H; subst. constructor.
    + rewrite autoLoop_cons in H.
      destruct (exec cmd noDryRun t) as [[r|e|] t1] eqn:E; try discriminate.
      destruct (isFailed r || isCancelled r) eqn:K.
      * inversion H; subst. now apply AutoRun_halt.
      * apply mapOk_Ok in H as (rs' & H & ->).
        eapply AutoRun_next; eauto.
  - intros R. induction R as [t|cmd rest r t t1 E K|cmd rest r rs t t1 t2 E K R IH].
    + reflexivity.
    + rewrite autoLoop_cons, E, K. reflexivity.
    + rewrite autoLoop_cons, E, K, IH. reflexivity.
Qed.

Lemma autoLoop_prefix (commands : list jsstr) (t : Trace)
  (rs : list ExecResult) (t' : Trace) :
  autoLoop exec commands [] t = (Ok rs, t') ->
  length rs <= length commands /\
  Forall2 (resultFor exec) (firstn (length rs) commands) rs.
Proof.
  revert t rs t'. induction commands as [|cmd rest IH]; intros t rs t' H.
  - inversion H; subst. simpl. split; [lia|constructor].
  - rewrite autoLoop_cons in H.
    destruct (exec cmd noDryRun t) as [[r|e|] t1] eqn:E; try discriminate.
    assert (F : resultFor exec cmd r) by (right; right; eauto).
    destruct (isFailed r || isCancelled r).
    + inversion H; subst. simpl. split; [lia|].
      constructor; [exact F|]. constructor.
    + apply mapOk_Ok in H as (rs' & H & ->).
      apply IH in H as [L P]. simpl. split; [lia|]. now constructor.
Qed.

Lemma interactiveLoop_prefix (commands : list jsstr) (t : Trace)
  (rs : list ExecResult) (t' : Trace) :
  interactiveLoop env exec commands [] t = (Ok rs, t') ->
  length rs <= length commands /\
  Forall2 (resultFor exec) (firstn (length rs) commands) rs.
Proof.
  revert t rs t'. induction commands as [|cmd rest IH]; intros t rs t' H.
  - inversion H; subst. simpl. split; [lia|constructor].
  - rewrite interactiveLoop_cons in H. cbv zeta in H.
    destruct (actionPrompt env t cmd) as [[| |]|e]; try discriminate.
    + destruct (exec cmd noDryRun _) as [[r|e|] t1] eqn:E; try discriminate.
      assert (F : resultFor exec cmd r) by (right; right; eauto).
      assert (Stop : forall tz, (Ok [r], tz) = (Ok rs, t') ->
                length rs <= length (cmd :: rest) /\
                Forall2 (resultFor exec) (firstn (length rs) (cmd :: rest)) rs).
      { intros tz Hz. inversion Hz; subst. simpl. split; [lia|].
        constructor; [exact F|]. constructor. }
      assert (Go : forall tz,
                mapOk (cons r) (interactiveLoop env exec rest [] tz) = (Ok rs, t') ->
                length rs <= length (cmd :: rest) /\
                Forall2 (resultFor exec) (firstn (length rs) (cmd :: rest)) rs).
      { intros tz Hz. apply mapOk_Ok in Hz as (rs' & Hz & ->).
        apply IH in Hz as [L P]. simpl. split; [lia|]. now constructor. }
      destruct (isFailed r); [|now apply (Go t1)].
      destruct (continuePrompt env t1) as [[|]|e]; try discriminate.
      * now apply (Go (t1 ++ [ReqContinueOnError])).
      * now apply (Stop (t1 ++ [ReqContinueOnError])).
    + apply mapOk_Ok in H as (rs' & H & ->).
      apply IH in H as [L P]. simpl. split; [lia|].
      constructor; [right; now left|exact P].
    + inversion H; subst. simpl. split; [lia|constructor].
Qed.

Lemma dry_prefix (commands : list jsstr) :
  Forall2 (resultFor exec) commands (map dryRunResult commands).
Proof.
  induction commands as [|cmd rest IH]; simpl; constructor; [now left|exact IH].
Qed.

Lemma batch_prefix (commands : list jsstr) (options : Options) (t : Trace)
  (rs : list ExecResult) (t' : Trace) :
  executeMultipleCommandsWith env exec commands options t = (Ok rs, t') ->
  length rs <= length commands /\
  Forall2 (resultFor exec) (firstn (length rs) commands) rs.
Proof.
  unfold executeMultipleCommandsWith.
  destruct (match opt_mode options with Some m => m | None => dry end).
  - intros H. inversion H; subst. rewrite length_map, firstn_all.
    split; [lia|apply dry_prefix].
  - apply autoLoop_prefix.
  - apply interactiveLoop_prefix.
  - intros H. inversion H; subst. simpl. split; [lia|constructor].
Qed.
End BatchCorrespondence.

(** ** Single-command runner *)

Arguments parseCommand : simpl never.
Arguments isDangerousCommand : simpl never.

Section RunnerFacts.
Variable cfg : ConfigManager.
Variable this : Executor.
Variable env : Env.
Variable rx : TextParsers.

Lemma executeCommand_unfold (depth : nat) (cmd : jsstr) (options : Options) :
  executeCommand cfg this env rx depth cmd options =
  executeCommandWith cfg this env
    (suggestErrorSolution env rx
       (executeMultipleCommandsWith env
          (match depth with
           | O => fun _ _ t => (OutOfFuel, t)
           | S d => executeCommand cfg this env rx d
           end)))
    cmd options.
Proof. destruct depth; reflexivity. Qed.

Lemma onError_result (suggest : jsstr -> jsstr -> M unit) (cmd : jsstr)
  (options : Options) (message : jsstr) (t : Trace) (r : ExecResult)
  (t' : Trace) :
  onError cfg suggest cmd options message t = (Ok r, t') -> r = failedResult message.
Proof.
  unfold onError, callGetAutoSuggestSolutions, bind, ret, throw.
  destruct (getAutoSuggestSolutions cfg) as [b|]; [|discriminate].
  destruct (b && negb (opt_skipSuggestion options)).
  - destruct (suggest cmd message t) as [[u|e|] t1]; try discriminate.
    now intros H; inversion H.
  - now intros H; inversion H.
Qed.

(** The runner when the user declines the danger confirmation. *)
Lemma executeCommandWith_declined (suggest : jsstr -> jsstr -> M unit)
  (cmd : jsstr) (options : Options) (t : Trace) :
  isDangerousCommand cmd = true ->
  confirmPrompt env t cmd = Resolve false ->
  executeCommandWith cfg this env suggest cmd options t
  = (Ok cancelledResult, t ++ [ReqConfirmExecution cmd]).
Proof.
  intros D C. unfold executeCommandWith, tryCatch, bind, confirmExecution, await.
  rewrite D, C. reflexivity.
Qed.

(** The runner when the process is spawned. *)
Lemma executeCommandWith_spawn (suggest : jsstr -> jsstr -> M unit)
  (cmd : jsstr) (options : Options) (t : Trace) :
  passesDangerCheck env cmd t ->
  this_dryRun this || opt_dryRun options = false ->
  let file := hd_error (parseCommand cmd) in
  let argv := tl (parseCommand cmd) in
  let t1 := afterDangerCheck cmd t in
  executeCommandWith cfg this env suggest cmd options t =
  match execa env t1 file argv with
  | Resolve res => (Ok (successResult res), t1 ++ [ReqExeca file argv])
  | Reject message =>
      onError cfg suggest cmd options message (t1 ++ [ReqExeca file argv])
  end.
Proof.
  intros P D. unfold passesDangerCheck in P. cbv zeta.
  unfold executeCommandWith, tryCatch, bind, confirmExecution, await,
    afterDangerCheck.
  destruct (isDangerousCommand cmd).
  - rewrite (P eq_refl). simpl. rewrite D.
    now destruct (execa env _ _ _).
  - simpl. rewrite D. now destruct (execa env _ _ _).
Qed.

Lemma executeCommandWith_result (suggest : jsstr -> jsstr -> M unit)
  (cmd : jsstr) (options : Options) (t : Trace) (r : ExecResult) (t' : Trace) :
  executeCommandWith cfg this env suggest cmd options t = (Ok r, t') ->
  RunnerResult cmd r.
Proof.
  unfold executeCommandWith, tryCatch.
  fold (onError cfg suggest cmd options).
  unfold bind, confirmExecution, await.
  assert (E : forall message tz, onError cfg suggest cmd options message tz = (Ok r, t')
              -> RunnerResult cmd r).
  { intros message tz H. apply onError_result in H. subst. constructor. }
  destruct (isDangerousCommand cmd).
  - destruct (confirmPrompt env t cmd) as [[|]|e]; simpl.
    + destruct (this_dryRun this || opt_dryRun options) eqn:D.
      * intros H; inversion H; constructor.
      * destruct (execa env _ _ _); [intros H; inversion H; constructor|apply E].
    + intros H; inversion H; constructor.
    + apply E.
  - simpl. destruct (this_dryRun this || opt_dryRun options) eqn:D.
    * intros H; inversion H; constructor.
    * destruct (execa env _ _ _); [intros H; inversion H; constructor|apply E].
Qed.

Lemma executeCommand_result (depth : nat) (cmd : jsstr) (options : Options)
  (t : Trace) (r : ExecResult) (t' : Trace) :
  executeCommand cfg this env rx depth cmd options t = (Ok r, t') ->
  RunnerResult cmd r.
Proof. rewrite executeCommand_unfold. apply executeCommandWith_result. Qed.
End RunnerFacts.

(** ** Recovery dialogue *)

(** A [try] whose [catch] only logs ends without an exception. *)
Lemma tryCatch_swallows (body : M unit) (t : Trace) :
  exists t', tryCatch body (fun _ => ret tt) t = (Ok tt, t')
          \/ tryCatch body (fun _ => ret tt) t = (OutOfFuel, t').
Proof.
  unfold tryCatch, ret. destruct (body t) as [[[]|e|] t']; eauto.
Qed.

(** No error of the recovery dialogue leaves [suggestErrorSolution]. *)
Lemma suggestErrorSolution_swallows (env : Env) (rx : TextParsers)
  (batch : list jsstr -> Options -> M (list ExecResult))
  (cmd errorMessage : jsstr) (t : Trace) :
  exists t', suggestErrorSolution env rx batch cmd errorMessage t = (Ok tt, t')
          \/ suggestErrorSolution env rx batch cmd errorMessage t = (OutOfFuel, t').
Proof. apply tryCatch_swallows. Qed.

(** The batch executor reads nothing of its options but the mode. *)
Lemma executeMultipleCommands_reads_mode_only (cfg : ConfigManager)
  (this : Executor) (env : Env) (rx : TextParsers) (depth : nat)
  (commands : list jsstr) (mode : option Mode) (d1 d2 s1 s2 : bool) :
  executeMultipleCommands cfg this env rx depth commands (mkOptions mode d1 s1)
  = executeMultipleCommands cfg this env rx depth commands (mkOptions mode d2 s2).
Proof. reflexivity. Qed.

(** With a configuration object that has the method, a rejected process
    gives a Failed result carrying the message of the error, unless the
    recovery dialogue it opens nests deeper than [depth]. *)
Lemma executeCommand_failed_with_getter (b : bool) (this : Executor) (env : Env)
  (rx : TextParsers) (depth : nat) (cmd : jsstr) (options : Options)
  (t : Trace) (message : jsstr) :
  passesDangerCheck env cmd t ->
  this_dryRun this || opt_dryRun options = false ->
  execa env (afterDangerCheck cmd t) (hd_error (parseCommand cmd))
    (tl (parseCommand cmd)) = Reject message ->
  exists t',
    executeCommand (configWith b) this env rx depth cmd options t
      = (Ok (failedResult message), t')
    \/ executeCommand (configWith b) this env rx depth cmd options t
      = (OutOfFuel, t').
Proof.
  intros P D E. rewrite executeCommand_unfold.
  rewrite executeCommandWith_spawn by assumption. cbv zeta. rewrite E.
  unfold onError, callGetAutoSuggestSolutions, bind, ret. simpl.
  destruct (b && negb (opt_skipSuggestion options)); [|eauto].
  match goal with |- context [suggestErrorSolution ?e ?r ?k ?c ?m ?t0] =>
    destruct (suggestErrorSolution_swallows e r k c m t0) as [t' [H|H]];
    rewrite H end; eauto.
Qed.

(** With the configuration object of the repository, a rejected process
    makes [executeCommand] throw. *)
Lemma executeCommand_rejected_process (this : Executor) (env : Env)
  (rx : TextParsers) (depth : nat) (cmd : jsstr) (options : Options)
  (t : Trace) (message : jsstr) :
  passesDangerCheck env cmd t ->
  this_dryRun this || opt_dryRun options = false ->
  execa env (afterDangerCheck cmd t) (hd_error (parseCommand cmd))
    (tl (parseCommand cmd)) = Reject message ->
  executeCommand config this env rx depth cmd options t
  = (Throw (js "config.getAutoSuggestSolutions is not a function"),
     afterDangerCheck cmd t
       ++ [ReqExeca (hd_error (parseCommand cmd)) (tl (parseCommand cmd))]).
Proof.
  intros P D E. rewrite executeCommand_unfold.
  rewrite executeCommandWith_spawn by assumption. cbv zeta. rewrite E.
  reflexivity.
Qed.

(** So does the batch executor, in the automatic mode, when the process of
    the first command is rejected. *)
Lemma automatic_mode_rejected_process (this : Executor) (env : Env)
  (rx : TextParsers) (depth : nat) (cmd : jsstr) (rest : list jsstr)
  (t : Trace) (message : jsstr) :
  passesDangerCheck env cmd t ->
  this_dryRun this = false ->
  execa env (afterDangerCheck cmd t) (hd_error (parseCommand cmd))
    (tl (parseCommand cmd)) = Reject message ->
  executeMultipleCommands config this env rx depth (cmd :: rest) (withMode auto) t
  = (Throw (js "config.getAutoSuggestSolutions is not a function"),
     afterDangerCheck cmd t
       ++ [ReqExeca (hd_error (parseCommand cmd)) (tl (parseCommand cmd))]).
Proof.
  intros P D E. unfold executeMultipleCommands, executeMultipleCommandsWith.
  simpl. unfold bind.
  rewrite (executeCommand_rejected_process this env rx depth cmd noDryRun t
             message P); [reflexivity| |exact E].
  simpl. now rewrite D.
Qed.

(** The object of the repository never lets a Failed result out. *)
Lemma executeCommand_never_failed (this : Executor) (env : Env)
  (rx : TextParsers) (depth : nat) (cmd : jsstr) (options : Options)
  (t : Trace) (r : ExecResult) (t' : Trace) :
  executeCommand config this env rx depth cmd options t = (Ok r, t') ->
  isFailed r = false.
Proof.
  rewrite executeCommand_unfold.
  unfold executeCommandWith, tryCatch, callGetAutoSuggestSolutions.
  unfold bind, confirmExecution, await, ret, throw. simpl.
  destruct (isDangerousCommand cmd).
  - destruct (confirmPrompt env t cmd) as [[|]|e]; simpl; try discriminate.
    + destruct (this_dryRun this || opt_dryRun options).
      * now intros H; inversion H.
      * destruct (execa env _ _ _); [now intros H; inversion H|discriminate].
    + now intros H; inversion H.
  - simpl. destruct (this_dryRun this || opt_dryRun options).
    + now intros H; inversion H.
    + destruct (execa env _ _ _); [now intros H; inversion H|discriminate].
Qed.

(** ** Nesting depth *)

Lemma settled_refl {A} (m : M A) : settled m m.
Proof. now intros t _. Qed.

Lemma bind_settled {A B} (m1 m2 : M A) (k1 k2 : A -> M B) :
  settled m1 m2 -> (forall a, settled (k1 a) (k2 a)) ->
  settled (bind m1 k1) (bind m2 k2).
Proof.
  intros Hm Hk t. unfold bind. specialize (Hm t).
  destruct (m1 t) as [[a|e|] t1] eqn:E; simpl in *.
  - rewrite Hm by discriminate. apply Hk.
  - rewrite Hm by discriminate. reflexivity.
  - intros N. now contradiction N.
Qed.

Lemma tryCatch_settled {A} (m1 m2 : M A) (h1 h2 : jsstr -> M A) :
  settled m1 m2 -> (forall e, settled (h1 e) (h2 e)) ->
  settled (tryCatch m1 h1) (tryCatch m2 h2).
Proof.
  intros Hm Hh t. unfold tryCatch. specialize (Hm t).
  destruct (m1 t) as [[a|e|] t1] eqn:E; simpl in *.
  - rewrite Hm by discriminate. reflexivity.
  - rewrite Hm by discriminate. apply Hh.
  - intros N. now contradiction N.
Qed.

Section Settled.
Variable env : Env.
Variable rx : TextParsers.

Lemma autoLoop_settled (e1 e2 : jsstr -> Options -> M ExecResult) :
  (forall cmd o, settled (e1 cmd o) (e2 cmd o)) ->
  forall commands results,
    settled (autoLoop e1 commands results) (autoLoop e2 commands results).
Proof.
  intros H commands. induction commands as [|cmd rest IH]; intros results.
  - apply settled_refl.
  - simpl. apply bind_settled; [apply H|]. intros r.
    destruct (negb (success r) && negb (cancelled r)); [apply settled_refl|].
    destruct (cancelled r); [apply settled_refl|apply IH].
Qed.

Lemma interactiveLoop_settled (e1 e2 : jsstr -> Options -> M ExecResult) :
  (forall cmd o, settled (e1 cmd o) (e2 cmd o)) ->
  forall commands results,
    settled (interactiveLoop env e1 commands results)
            (interactiveLoop env e2 commands results).
Proof.
  intros H commands. induction commands as [|cmd rest IH]; intros results.
  - apply settled_refl.
  - simpl. apply bind_settled; [apply settled_refl|]. intros [| |].
    + apply bind_settled; [apply H|]. intros r.
      destruct (negb (success r) && negb (cancelled r)); [|apply IH].
      apply bind_settled; [apply settled_refl|]. intros [|]; simpl;
        [apply IH|apply settled_refl].
    + apply IH.
    + apply settled_refl.
Qed.

Lemma executeMultipleCommandsWith_settled
  (e1 e2 : jsstr -> Options -> M ExecResult) :
  (forall cmd o, settled (e1 cmd o) (e2 cmd o)) ->
  forall commands options,
    settled (executeMultipleCommandsWith env e1 commands options)
            (executeMultipleCommandsWith env e2 commands options).
Proof.
  intros H commands options. unfold executeMultipleCommandsWith.
  destruct (match opt_mode options with Some m => m | None => dry end).
  - apply settled_refl.
  - now apply autoLoop_settled.
  - now apply interactiveLoop_settled.
  - apply settled_refl.
Qed.

Lemma suggestErrorSolution_settled
  (b1 b2 : list jsstr -> Options -> M (list ExecResult)) :
  (forall commands o, settled (b1 commands o) (b2 commands o)) ->
  forall cmd message,
    settled (suggestErrorSolution env rx b1 cmd message)
            (suggestErrorSolution env rx b2 cmd message).
Proof.
  intros H cmd message.
  assert (S1 : forall solution,
             settled (executeSpecificSolution env rx b1 solution)
                     (executeSpecificSolution env rx b2 solution)).
  { intros solution. unfold executeSpecificSolution.
    destruct (matchGitCommandPattern rx solution) as [[|m ms]|];
      try apply settled_refl.
    apply bind_settled; [apply settled_refl|]. intros [| | |];
      try apply settled_refl;
      (apply bind_settled; [apply H|intros; apply settled_refl]). }
  assert (S2 : forall c e s,
             settled (getSpecificSolution env rx b1 c e s)
                     (getSpecificSolution env rx b2 c e s)).
  { intros c e s. unfold getSpecificSolution.
    apply tryCatch_settled; [|intros; apply settled_refl].
    apply bind_settled; [apply settled_refl|apply S1]. }
  unfold suggestErrorSolution.
  apply tryCatch_settled; [|intros; apply settled_refl].
  apply bind_settled; [apply settled_refl|]. intros response.
  unfold getUserSolutionChoice.
  apply tryCatch_settled; [|intros; apply settled_refl].
  destruct (Nat.eqb _ 0); [apply settled_refl|].
  apply bind_settled; [apply settled_refl|]. intros selectedIndex.
  destruct (selectedIndex =? -1)%Z; [apply settled_refl|].
  destruct (selectedIndex =? _)%Z.
  - apply bind_settled; [apply settled_refl|]. intros; apply S2.
  - destruct (optionAt _ selectedIndex); [apply S2|apply settled_refl].
Qed.

Lemma executeCommandWith_settled (cfg : ConfigManager) (this : Executor)
  (s1 s2 : jsstr -> jsstr -> M unit) :
  (forall cmd message, settled (s1 cmd message) (s2 cmd message)) ->
  forall cmd options,
    settled (executeCommandWith cfg this env s1 cmd options)
            (executeCommandWith cfg this env s2 cmd options).
Proof.
  intros H cmd options. unfold executeCommandWith.
  apply tryCatch_settled; [apply settled_refl|]. intros message.
  apply bind_settled; [apply settled_refl|]. intros b.
  apply bind_settled; [|intros; apply settled_refl].
  destruct (b && negb (opt_skipSuggestion options)); [apply H|apply settled_refl].
Qed.

(** A run that ends within [depth] nested dialogues ends in the same way
    when more are allowed. *)
Lemma executeCommand_deeper (cfg : ConfigManager) (this : Executor) (depth : nat) :
  forall cmd options,
    settled (executeCommand cfg this env rx depth cmd options)
            (executeCommand cfg this env rx (S depth) cmd options).
Proof.
  induction depth as [|d IH]; intros cmd options;
    rewrite (executeCommand_unfold cfg this env rx (S _)),
            (executeCommand_unfold cfg this env rx _);
    apply executeCommandWith_settled; intros c m;
    apply suggestErrorSolution_settled; intros cs o;
    apply executeMultipleCommandsWith_settled; intros c' o'.
  - intros t N. now contradiction N.
  - apply IH.
Qed.

Lemma executeMultipleCommands_deeper (cfg : ConfigManager) (this : Executor)
  (depth : nat) (commands : list jsstr) (options : Options) :
  settled (executeMultipleCommands cfg this env rx depth commands options)
          (executeMultipleCommands cfg this env rx (S depth) commands options).
Proof.
  apply executeMultipleCommandsWith_settled. apply executeCommand_deeper.
Qed.
End Settled.

(** With the configuration object of the repository no recovery dialogue is
    ever opened: the depth allowed is immaterial. *)
Lemma executeCommand_config_depth (this : Executor) (env : Env) (rx : TextParsers)
  (depth : nat) (cmd : jsstr) (options : Options) (t : Trace) :
  executeCommand config this env rx depth cmd options t
  = executeCommand config this env rx 0 cmd options t
  /\ fst (executeCommand config this env rx depth cmd options t) <> OutOfFuel.
Proof.
  rewrite !executeCommand_unfold.
  unfold executeCommandWith, tryCatch, callGetAutoSuggestSolutions.
  unfold bind, confirmExecution, await, ret, throw. simpl.
  destruct (isDangerousCommand cmd).
  - destruct (confirmPrompt env t cmd) as [[|]|e]; simpl;
      try (split; [reflexivity|discriminate]).
    destruct (this_dryRun this || opt_dryRun options);
      [split; [reflexivity|discriminate]|].
    destruct (execa env _ _ _); split; try reflexivity; discriminate.
  - simpl. destruct (this_dryRun this || opt_dryRun options);
      [split; [reflexivity|discriminate]|].
    destruct (execa env _ _ _); split; try reflexivity; discriminate.
Qed.

(** ** Result reporter *)

Lemma count_cons (p : ExecResult -> bool) (r : ExecResult) (rs : list ExecResult) :
  length (filter p (r :: rs)) = (if p r then 1 else 0) + length (filter p rs).
Proof. simpl. now destruct (p r). Qed.

Lemma counts_partition (rs : list ExecResult) :
  Forall (fun r => kindCount r = 1) rs ->
  successfulCount rs + failedCount rs + cancelledCount rs + skippedCount rs
  + dryRunCount rs = length rs.
Proof.
  unfold successfulCount, failedCount, cancelledCount, skippedCount, dryRunCount.
  induction 1 as [|r rs K _ IH]; [reflexivity|].
  rewrite !count_cons. unfold kindCount in K. simpl length. lia.
Qed.

Lemma RunnerResult_kind (cmd : jsstr) (r : ExecResult) :
  RunnerResult cmd r -> kindCount r = 1.
Proof. now destruct 1. Qed.

Lemma resultFor_kind (cfg : ConfigManager) (this : Executor) (env : Env)
  (rx : TextParsers) (depth : nat) (cmd : jsstr) (r : ExecResult) :
  resultFor (executeCommand cfg this env rx depth) cmd r -> kindCount r = 1.
Proof.
  intros [->|[->|(t & t' & H)]]; try reflexivity.
  apply executeCommand_result in H. now apply RunnerResult_kind in H.
Qed.

Lemma interactiveLoop_step (env : Env) (exec : jsstr -> Options -> M ExecResult)
  (cmd : jsstr) (rest : list jsstr) (t : Trace) (r : ExecResult) (t1 : Trace) :
  StepContinues env exec cmd t r t1 ->
  interactiveLoop env exec (cmd :: rest) [] t
  = mapOk (cons r) (interactiveLoop env exec rest [] t1).
Proof.
  intros S. rewrite interactiveLoop_cons. cbv zeta.
  destruct S as [A|r t1 A E F|r t1 A E F C]; rewrite A; try reflexivity.
  - now rewrite E, F.
  - now rewrite E, F, C.
Qed.

(** The three modes of the batch executor. *)
Lemma executeMultipleCommands_auto (cfg : ConfigManager) (this : Executor)
  (env : Env) (rx : TextParsers) (depth : nat) (commands : list jsstr) :
  executeMultipleCommands cfg this env rx depth commands (withMode auto)
  = autoLoop (executeCommand cfg this env rx depth) commands [].
Proof. reflexivity. Qed.

Lemma executeMultipleCommands_interactive (cfg : ConfigManager) (this : Executor)
  (env : Env) (rx : TextParsers) (depth : nat) (commands : list jsstr) :
  executeMultipleCommands cfg this env rx depth commands (withMode interactive)
  = interactiveLoop env (executeCommand cfg this env rx depth) commands [].
Proof. reflexivity. Qed.

Lemma executeMultipleCommands_dry (cfg : ConfigManager) (this : Executor)
  (env : Env) (rx : TextParsers) (depth : nat) (commands : list jsstr) :
  executeMultipleCommands cfg this env rx depth commands (withMode dry)
  = ret (map dryRunResult commands).
Proof. reflexivity. Qed.

(** ** Where a result of the runner comes from *)

Lemma executeCommandWith_origin (cfg : ConfigManager) (this : Executor)
  (env : Env) (suggest : jsstr -> jsstr -> M unit) (cmd : jsstr)
  (options : Options) (t : Trace) (r : ExecResult) (t' : Trace) :
  executeCommandWith cfg this env suggest cmd options t = (Ok r, t') ->
  RunnerOrigin this env cmd options t r.
Proof.
  unfold executeCommandWith, tryCatch.
  fold (onError cfg suggest cmd options).
  unfold bind, confirmExecution, await.
  assert (P0 : isDangerousCommand cmd = false -> passesDangerCheck env cmd t).
  { intros D C. congruence. }
  assert (A0 : isDangerousCommand cmd = false -> afterDangerCheck cmd t = t).
  { intros D. unfold afterDangerCheck. now rewrite D. }
  assert (A1 : isDangerousCommand cmd = true ->
               afterDangerCheck cmd t = t ++ [ReqConfirmExecution cmd]).
  { intros D. unfold afterDangerCheck. now rewrite D. }
  destruct (isDangerousCommand cmd) eqn:D.
  - destruct (confirmPrompt env t cmd) as [[|]|e] eqn:C; simpl.
    + assert (P1 : passesDangerCheck env cmd t) by (intros _; exact C).
      destruct (this_dryRun this || opt_dryRun options) eqn:Y.
      * intros H; inversion H; subst. now apply OriginPreviewed.
      * destruct (execa env (t ++ [ReqConfirmExecution cmd]) _ _) as [res|m]
          eqn:X; rewrite <- (A1 eq_refl) in X.
        -- intros H; inversion H; subst. now apply OriginResolved.
        -- intros H. apply onError_result in H. subst.
           now apply OriginProcessRejected.
    + intros H; inversion H; subst. now apply OriginDeclined.
    + intros H. apply onError_result in H. subst.
      now apply OriginPromptRejected.
  - simpl. destruct (this_dryRun this || opt_dryRun options) eqn:Y.
    + intros H; inversion H; subst. apply OriginPreviewed; auto.
    + destruct (execa env t _ _) as [res|m] eqn:X; rewrite <- (A0 eq_refl) in X.
      * intros H; inversion H; subst. apply OriginResolved; auto.
      * intros H. apply onError_result in H. subst.
        apply OriginProcessRejected; auto.
Qed.

Lemma executeCommand_origin (cfg : ConfigManager) (this : Executor)
  (env : Env) (rx : TextParsers) (depth : nat) (cmd : jsstr)
  (options : Options) (t : Trace) (r : ExecResult) (t' : Trace) :
  executeCommand cfg this env rx depth cmd options t = (Ok r, t') ->
  RunnerOrigin this env cmd options t r.
Proof. rewrite executeCommand_unfold. apply executeCommandWith_origin. Qed.

(** ** Properties kept by every construct of the calls *)

Section Closure.
(** [P] is a property of calls that returning, throwing, sequencing and
    catching keep, and that the awaited requests [ok] allows have. *)
Variable P : forall A : Type, M A -> Prop.
Variable ok : Request -> Prop.
Hypothesis P_ret : forall A (a : A), P A (ret a).
Hypothesis P_throw : forall A (e : jsstr), P A (throw e).
Hypothesis P_bind : forall A B (m : M A) (k : A -> M B),
  P A m -> (forall a, P B (k a)) -> P B (bind m k).
Hypothesis P_tryCatch : forall A (m : M A) (h : jsstr -> M A),
  P A m -> (forall e, P A (h e)) -> P A (tryCatch m h).
Hypothesis P_await : forall A (req : Request) (answer : Trace -> Reply A),
  ok req -> P A (await req answer).
Variable env : Env.
Variable rx : TextParsers.

Lemma autoLoop_closed (exec : jsstr -> Options -> M ExecResult) :
  (forall cmd, P _ (exec cmd noDryRun)) ->
  forall commands results, P _ (autoLoop exec commands results).
Proof.
  intros H commands. induction commands as [|cmd rest IH]; intros results.
  - apply P_ret.
  - simpl. apply P_bind; [apply H|]. intros r.
    destruct (negb (success r) && negb (cancelled r)); [apply P_ret|].
    destruct (cancelled r); [apply P_ret|apply IH].
Qed.

Lemma interactiveLoop_closed (exec : jsstr -> Options -> M ExecResult) :
  (forall cmd, ok (ReqAction cmd)) -> ok ReqContinueOnError ->
  (forall cmd, P _ (exec cmd noDryRun)) ->
  forall commands results, P _ (interactiveLoop env exec commands results).
Proof.
  intros Oa Oc H commands. induction commands as [|cmd rest IH]; intros results.
  - apply P_ret.
  - simpl. apply P_bind; [now apply P_await|]. intros [| |].
    + apply P_bind; [apply H|]. intros r.
      destruct (negb (success r) && negb (cancelled r)); [|apply IH].
      apply P_bind; [now apply P_await|].
      intros [|]; simpl; [apply IH|apply P_ret].
    + apply IH.
    + apply P_ret.
Qed.

Lemma executeMultipleCommandsWith_closed
  (exec : jsstr -> Options -> M ExecResult) :
  (forall cmd, ok (ReqAction cmd)) -> ok ReqContinueOnError ->
  (forall cmd, P _ (exec cmd noDryRun)) ->
  forall commands options,
    P _ (executeMultipleCommandsWith env exec commands options).
Proof.
  intros Oa Oc H commands options. unfold executeMultipleCommandsWith.
  destruct (match opt_mode options with Some m => m | None => dry end).
  - apply P_ret.
  - now apply autoLoop_closed.
  - now apply interactiveLoop_closed.
  - apply P_ret.
Qed.

(** What a dialogue does once a solution is chosen. *)
Lemma getSpecificSolution_closed
  (batch : list jsstr -> Options -> M (list ExecResult)) :
  (forall c e s, ok (ReqGenerate (AskCommands c e s))) ->
  (forall commands, ok (ReqExecutionMode commands)) ->
  (forall commands o, P _ (batch commands o)) ->
  forall c e s, P _ (getSpecificSolution env rx batch c e s).
Proof.
  intros Og Om H c e s. unfold getSpecificSolution.
  apply P_tryCatch; [|intros; apply P_ret].
  apply P_bind; [now apply P_await|]. intros solution.
  unfold executeSpecificSolution.
  destruct (matchGitCommandPattern rx solution) as [[|m ms]|];
    try apply P_ret.
  apply P_bind; [now apply P_await|]. intros [| | |];
    try apply P_ret;
    (apply P_bind; [apply H|intros; apply P_ret]).
Qed.

(** What a dialogue does with the answer to the solution prompt. *)
Lemma afterSolutionPrompt_closed
  (batch : list jsstr -> Options -> M (list ExecResult))
  (cmd errorMessage : jsstr) (options : list SolutionOption)
  (selectedIndex : Z) :
  (forall c e s, ok (ReqGenerate (AskCommands c e s))) ->
  (forall commands, ok (ReqExecutionMode commands)) ->
  ok ReqCustomSolution ->
  (forall commands o, P _ (batch commands o)) ->
  P _ (if (selectedIndex =? -1)%Z then ret tt
       else if (selectedIndex =? Z.of_nat (length options))%Z then
         customSolution <- await ReqCustomSolution (customSolutionPrompt env) ;;
         getSpecificSolution env rx batch cmd errorMessage customSolution
       else
         match optionAt options selectedIndex with
         | Some option =>
             getSpecificSolution env rx batch cmd errorMessage (fullText option)
         | None =>
             throw (js "Cannot read properties of undefined (reading 'fullText')")
         end).
Proof.
  intros Og Om Oc H.
  destruct (selectedIndex =? -1)%Z; [apply P_ret|].
  destruct (selectedIndex =? _)%Z.
  - apply P_bind; [now apply P_await|].
    intros; now apply getSpecificSolution_closed.
  - destruct (optionAt _ selectedIndex);
      [now apply getSpecificSolution_closed|apply P_throw].
Qed.

Lemma suggestErrorSolution_closed
  (batch : list jsstr -> Options -> M (list ExecResult)) :
  (forall g, ok (ReqGenerate g)) ->
  (forall options, ok (ReqSelectedIndex options)) ->
  (forall commands, ok (ReqExecutionMode commands)) ->
  ok ReqCustomSolution ->
  (forall commands o, P _ (batch commands o)) ->
  forall cmd errorMessage, P _ (suggestErrorSolution env rx batch cmd errorMessage).
Proof.
  intros Og Os Om Oc H cmd errorMessage. unfold suggestErrorSolution.
  apply P_tryCatch; [|intros; apply P_ret].
  apply P_bind; [now apply P_await|]. intros response.
  unfold getUserSolutionChoice.
  apply P_tryCatch; [|intros; apply P_ret].
  destruct (Nat.eqb _ 0); [apply P_ret|].
  apply P_bind; [now apply P_await|]. intros selectedIndex.
  now apply afterSolutionPrompt_closed.
Qed.

Lemma executeCommandWith_body_closed (this : Executor) (cmd : jsstr)
  (options : Options) :
  (forall c, ok (ReqConfirmExecution c)) ->
  (forall file argv, ok (ReqExeca file argv)) ->
  P _ (declined <- (if isDangerousCommand cmd then
                      confirmed <- confirmExecution env cmd ;; ret (negb confirmed)
                    else ret false) ;;
       if declined then ret cancelledResult
       else if this_dryRun this || opt_dryRun options then ret (dryRunResult cmd)
       else
         let parsedCommand := parseCommand cmd in
         let file := hd_error parsedCommand in
         let argv := tl parsedCommand in
         res <- await (ReqExeca file argv) (fun t => execa env t file argv) ;;
         ret (successResult res)).
Proof.
  intros Oc Oe. apply P_bind.
  - destruct (isDangerousCommand cmd); [|apply P_ret].
    apply P_bind; [now apply P_await|intros; apply P_ret].
  - intros [|]; [apply P_ret|].
    destruct (this_dryRun this || opt_dryRun options); [apply P_ret|].
    apply P_bind; [now apply P_await|intros; apply P_ret].
Qed.

Lemma executeCommandWith_closed (cfg : ConfigManager) (this : Executor)
  (suggest : jsstr -> jsstr -> M unit) :
  (forall c, ok (ReqConfirmExecution c)) ->
  (forall file argv, ok (ReqExeca file argv)) ->
  (forall c m, P _ (suggest c m)) ->
  forall cmd options, P _ (executeCommandWith cfg this env suggest cmd options).
Proof.
  intros Oc Oe H cmd options. unfold executeCommandWith.
  apply P_tryCatch; [now apply executeCommandWith_body_closed|].
  intros message. apply P_bind.
  - unfold callGetAutoSuggestSolutions.
    destruct (getAutoSuggestSolutions cfg); [apply P_ret|apply P_throw].
  - intros b. apply P_bind; [|intros; apply P_ret].
    destruct (b && negb (opt_skipSuggestion options)); [apply H|apply P_ret].
Qed.


Lemma executeCommand_closed (cfg : ConfigManager) (this : Executor) :
  (forall q, ok q) ->
  P _ (fun t : Trace => (@OutOfFuel ExecResult, t)) ->
  forall depth cmd options, P _ (executeCommand cfg this env rx depth cmd options).
Proof.
  intros O F. induction depth as [|d IH]; intros cmd options;
    rewrite executeCommand_unfold;
    (apply executeCommandWith_closed; [intros; apply O|intros; apply O|]);
    intros c m;
    (apply suggestErrorSolution_closed; try (intros; apply O));
    intros cs o;
    (apply executeMultipleCommandsWith_closed; try (intros; apply O));
    intros c'.
  - exact F.
  - apply IH.
Qed.
End Closure.

Lemma grows_ret {A} (a : A) : grows (ret a).
Proof. intros t. exists []. now rewrite app_nil_r. Qed.

Lemma grows_throw {A} (e : jsstr) : grows (@throw A e).
Proof. intros t. exists []. now rewrite app_nil_r. Qed.

Lemma grows_bind {A B} (m : M A) (k : A -> M B) :
  grows m -> (forall a, grows (k a)) -> grows (bind m k).
Proof.
  intros Hm Hk t. unfold bind. destruct (Hm t) as [l1 E1].
  destruct (m t) as [[a|e|] t1]; simpl in *; subst; try now exists l1.
  destruct (Hk a (t ++ l1)) as [l2 E2]. exists (l1 ++ l2).
  now rewrite E2, app_assoc.
Qed.

Lemma grows_tryCatch {A} (m : M A) (h : jsstr -> M A) :
  grows m -> (forall e, grows (h e)) -> grows (tryCatch m h).
Proof.
  intros Hm Hh t. unfold tryCatch. destruct (Hm t) as [l1 E1].
  destruct (m t) as [[a|e|] t1]; simpl in *; subst; try now exists l1.
  destruct (Hh e (t ++ l1)) as [l2 E2]. exists (l1 ++ l2).
  now rewrite E2, app_assoc.
Qed.

Lemma grows_await {A} (req : Request) (answer : Trace -> Reply A) :
  grows (await req answer).
Proof. intros t. unfold await. exists [req]. now destruct (answer t). Qed.

Lemma executeCommand_grows (cfg : ConfigManager) (this : Executor) (env : Env)
  (rx : TextParsers) (depth : nat) (cmd : jsstr) (options : Options) :
  grows (executeCommand cfg this env rx depth cmd options).
Proof.
  apply (executeCommand_closed (fun A => @grows A) (fun _ => True)).
  - intros; apply grows_ret.
  - intros; apply grows_throw.
  - intros; now apply grows_bind.
  - intros; now apply grows_tryCatch.
  - intros; apply grows_await.
  - trivial.
  - intros t. exists []. now rewrite app_nil_r.
Qed.

Lemma recovery_grows (cfg : ConfigManager) (this : Executor) (env : Env)
  (rx : TextParsers) (depth : nat) (cmd message : jsstr) :
  grows (suggestErrorSolution env rx
           (executeMultipleCommandsWith env
              (match depth with
               | O => fun _ _ t => (OutOfFuel, t)
               | S d => executeCommand cfg this env rx d
               end))
           cmd message).
Proof.
  apply (suggestErrorSolution_closed (fun A => @grows A) (fun _ => True));
    trivial.
  - intros; apply grows_ret.
  - intros; apply grows_throw.
  - intros; now apply grows_bind.
  - intros; now apply grows_tryCatch.
  - intros; apply grows_await.
  - intros commands o.
    apply (executeMultipleCommandsWith_closed (fun A => @grows A)
             (fun _ => True)); trivial.
    + intros; apply grows_ret.
    + intros; now apply grows_bind.
    + intros; apply grows_await.
    + intros c. destruct depth as [|d].
      * intros t. exists []. now rewrite app_nil_r.
      * apply executeCommand_grows.
Qed.

Lemma onError_grows (cfg : ConfigManager) (suggest : jsstr -> jsstr -> M unit)
  (cmd : jsstr) (options : Options) (message : jsstr) :
  (forall c m, grows (suggest c m)) ->
  grows (onError cfg suggest cmd options message).
Proof.
  intros H. unfold onError. apply grows_bind.
  - unfold callGetAutoSuggestSolutions.
    destruct (getAutoSuggestSolutions cfg); [apply grows_ret|apply grows_throw].
  - intros b. apply grows_bind; [|intros; apply grows_ret].
    destruct (b && negb (opt_skipSuggestion options)); [apply H|apply grows_ret].
Qed.

(** The requests of a command that passes the danger check and is not a
    dry run start with its process. *)
Lemma executeCommand_spawns_first (cfg : ConfigManager) (this : Executor)
  (env : Env) (rx : TextParsers) (depth : nat) (cmd : jsstr)
  (options : Options) (t : Trace) :
  passesDangerCheck env cmd t ->
  this_dryRun this || opt_dryRun options = false ->
  exists later,
    snd (executeCommand cfg this env rx depth cmd options t)
    = afterDangerCheck cmd t
      ++ ReqExeca (hd_error (parseCommand cmd)) (tl (parseCommand cmd)) :: later.
Proof.
  intros P D. rewrite executeCommand_unfold.
  rewrite executeCommandWith_spawn by assumption. cbv zeta.
  destruct (execa env _ _ _) as [res|message].
  - exists []. reflexivity.
  - destruct (onError_grows cfg _ cmd options message
                (recovery_grows cfg this env rx depth)
                (afterDangerCheck cmd t
                 ++ [ReqExeca (hd_error (parseCommand cmd))
                       (tl (parseCommand cmd))])) as [later E].
    exists later. rewrite E. now rewrite <- app_assoc.
Qed.

Section Quiet.
Variable p : Request -> bool.







End Quiet.

(* ================================================================== *)
(** * The claims *)




(** C2 (fails on the code).  [git foo] exits with a non-zero status: the
    [catch] block of [executeCommand] calls
    [config.getAutoSuggestSolutions()], which the configuration object does
    not have, and the exception leaves [executeCommand]: no Failed result is
    returned. *)
Theorem executeCommand_failure_raises :
  executeCommand config newExecutor failingEnv sampleParsers 0
    (js "git foo") noDryRun []
  = (Throw (js "config.getAutoSuggestSolutions is not a function"),
     [ReqExeca (Some (js "git")) [js "foo"]]).
Proof. vm_compute. reflexivity. Qed.

(** C3 (fails on the code).  In the automatic mode, when the process of
    the first command [A] is rejected, [executeCommand] throws from its
    [catch] block (the method missing from the configuration object, as for
    C2) and the batch rejects with it: no sequence of results is returned,
    where the claim has the one Failed result of [A].  Nothing is requested
    for the commands after [A].  A Cancelled result does end the batch as
    the claim says: when the user declines [A], the batch returns the one
    Cancelled result. *)
Theorem automatic_mode_failure_raises (this : Executor) (env : Env)
  (rx : TextParsers) (depth : nat) (A : jsstr) (rest : list jsstr) (t : Trace) :
  (forall message,
     passesDangerCheck env A t ->
     this_dryRun this = false ->
     execa env (afterDangerCheck A t) (hd_error (parseCommand A))
       (tl (parseCommand A)) = Reject message ->
     executeMultipleCommands config this env rx depth (A :: rest) (withMode auto) t
     = (Throw (js "config.getAutoSuggestSolutions is not a function"),
        afterDangerCheck A t
          ++ [ReqExeca (hd_error (parseCommand A)) (tl (parseCommand A))]))
  /\ (isDangerousCommand A = true ->
      confirmPrompt env t A = Resolve false ->
      executeMultipleCommands config this env rx depth (A :: rest) (withMode auto) t
      = (Ok [cancelledResult], t ++ [ReqConfirmExecution A])).
Proof.
  split.
  - intros message P D E. now apply automatic_mode_rejected_process with message.
  - intros D C. rewrite executeMultipleCommands_auto, autoLoop_cons.
    rewrite executeCommand_unfold.
    rewrite executeCommandWith_declined by assumption. reflexivity.
Qed.

Lemma automatic_mode_failure_raises_witness :
  executeMultipleCommands config newExecutor failingEnv sampleParsers 0
    [js "git add ."; js "git commit -m wip"; js "git push"] (withMode auto) []
  = (Throw (js "config.getAutoSuggestSolutions is not a function"),
     [ReqExeca (Some (js "git")) [js "add"; js "."]]).
Proof.
  refine (proj1 (automatic_mode_failure_raises newExecutor failingEnv
                   sampleParsers 0 (js "git add .")
                   [js "git commit -m wip"; js "git push"] [])
            exitFailure _ _ _).
  - intros D. vm_compute in D. discriminate D.
  - reflexivity.
  - reflexivity.
Defined.

(** C4 (as stated, fails).  A tab is whitespace, yet it separates no
    tokens: [git<TAB>status] is one token. *)
Lemma parseCommand_tab_does_not_split :
  isWhiteSpace TAB = true /\
  parseCommand (js "git" ++ [TAB] ++ js "status")
  = [js "git" ++ [TAB] ++ js "status"] /\
  parseCommand (js "git" ++ [TAB] ++ js "status") <> [js "git"; js "status"].
Proof. vm_compute. repeat split; try reflexivity. discriminate. Qed.

(** C4 (amended).  [parseCommand] splits at every space character outside a
    quoted span, and at nothing else: outside a quoted span a character that
    is neither the space nor a quote, a tab or a line feed for one, is
    appended to the pending token, and the tokens of a string without
    quotes are its pieces between spaces, trimmed, the empty ones left out.
    A span opened by a quote character and closed by the same character is
    appended to the pending token without the two quote characters, spaces
    included; a quote that is not closed extends to the end of the string;
    every token is trimmed and never empty, and blank input gives no token;
    the example of the specification gives four tokens. *)
Theorem parseCommand_tokens :
  (forall a b, inQuotes (parseLoop parseInit a) = false ->
     parseCommand (a ++ SPACE :: b) = parseCommand a ++ parseCommand b)
  /\ (forall a c, inQuotes (parseLoop parseInit a) = false ->
        c <> SPACE -> isQuote c = false ->
        parseLoop parseInit (a ++ [c])
        = mkParseState (args (parseLoop parseInit a))
            (current (parseLoop parseInit a) ++ [c]) false None)
  /\ (forall s, (forall c, In c s -> isQuote c = false) ->
        parseCommand s
        = filter truthy
            (map trim (splitOn (fun c => char_eqb c SPACE) [] s)))
  /\ (forall pre s q, inQuotes (parseLoop parseInit pre) = false ->
        isQuote q = true -> ~ In q s ->
        parseLoop parseInit (pre ++ q :: s ++ [q])
        = mkParseState (args (parseLoop parseInit pre))
            (current (parseLoop parseInit pre) ++ s) false None)
  /\ (forall pre s q, inQuotes (parseLoop parseInit pre) = false ->
        isQuote q = true -> ~ In q s ->
        parseCommand (pre ++ q :: s)
        = args (parseLoop parseInit pre)
          ++ (if blank (current (parseLoop parseInit pre) ++ s) then []
              else [trim (current (parseLoop parseInit pre) ++ s)]))
  /\ (forall s, blank s = true -> parseCommand s = [])
  /\ (forall s, Forall trimmedToken (parseCommand s))
  /\ parseCommand (js "git commit -m " ++ [DQUOTE] ++ js "fix: a b" ++ [DQUOTE])
     = [js "git"; js "commit"; js "-m"; js "fix: a b"].
Proof.
  split; [exact parseCommand_space|].
  split; [exact parseLoop_other|].
  split; [exact parseCommand_unquoted|].
  split; [exact parseLoop_span|].
  split.
  { intros pre s q H Q N. rewrite parseCommand_unterminated by assumption.
    unfold parseFinish. cbn [args current]. rewrite truthy_trim.
    destruct (blank _); simpl; [now rewrite app_nil_r|reflexivity]. }
  split; [exact parseCommand_blank|].
  split; [exact parseCommand_trimmed|].
  vm_compute. reflexivity.
Qed.

Lemma parseCommand_tokens_witness :
  parseCommand (js "git push " ++ SPACE :: js "origin main")
  = [js "git"; js "push"; js "origin"; js "main"]
  /\ parseCommand (js "echo " ++ SQUOTE :: js "a b")
     = [js "echo"; js "a b"].
Proof.
  destruct parseCommand_tokens as (Hspace & _ & _ & _ & Hopen & _).
  split.
  - rewrite (Hspace (js "git push ") (js "origin main") eq_refl).
    vm_compute. reflexivity.
  - rewrite (Hopen (js "echo ") (js "a b") SQUOTE eq_refl eq_refl).
    + vm_compute. reflexivity.
    + vm_compute. intuition discriminate.
Defined.

(** C5.  When a command matches a danger pattern and the user declines the
    confirmation, [executeCommand] returns the Cancelled result (which is
    neither Failed nor Succeeded) and requests nothing but the confirmation:
    no process is spawned. *)
Theorem declined_confirmation_yields_cancelled (cfg : ConfigManager)
  (this : Executor) (env : Env) (rx : TextParsers) (depth : nat)
  (cmd : jsstr) (options : Options) (t : Trace) :
  isDangerousCommand cmd = true ->
  confirmPrompt env t cmd = Resolve false ->
  executeCommand cfg this env rx depth cmd options t
    = (Ok cancelledResult, t ++ [ReqConfirmExecution cmd])
  /\ isCancelled cancelledResult = true
  /\ isFailed cancelledResult = false
  /\ isSucceeded cancelledResult = false
  /\ spawned (t ++ [ReqConfirmExecution cmd]) = spawned t.
Proof.
  intros D C. split.
  - rewrite executeCommand_unfold. now apply executeCommandWith_declined.
  - repeat split. unfold spawned. rewrite filter_app. simpl. apply app_nil_r.
Qed.

Lemma declined_confirmation_yields_cancelled_witness :
  executeCommand config newExecutor decliningEnv sampleParsers 0
    (js "git reset --hard HEAD~1") noDryRun []
  = (Ok cancelledResult, [ReqConfirmExecution (js "git reset --hard HEAD~1")]).
Proof.
  refine (proj1 (declined_confirmation_yields_cancelled config newExecutor
           decliningEnv sampleParsers 0 (js "git reset --hard HEAD~1")
           noDryRun [] _ _)).
  - vm_compute. reflexivity.
  - reflexivity.
Defined.

(** C6.  In the preview mode the batch executor returns one PreviewedOnly
    result per command, in order, each holding its command, and requests
    nothing from any collaborator: no process is spawned and no
    confirmation is asked. *)
Theorem preview_mode_runs_nothing (cfg : ConfigManager) (this : Executor)
  (env : Env) (rx : TextParsers) (depth : nat) (commands : list jsstr)
  (t : Trace) :
  executeMultipleCommands cfg this env rx depth commands (withMode dry) t
    = (Ok (map dryRunResult commands), t)
  /\ length (map dryRunResult commands) = length commands
  /\ Forall (fun r => isPreviewedOnly r = true /\ kindCount r = 1)
       (map dryRunResult commands)
  /\ Forall2 (fun cmd r => command r = Some cmd) commands
       (map dryRunResult commands).
Proof.
  split; [reflexivity|]. split; [apply length_map|]. split.
  - apply Forall_forall. intros r H. apply in_map_iff in H as (cmd & <- & _).
    now split.
  - induction commands as [|cmd rest IH]; simpl; now constructor.
Qed.

(** C7.  Whatever the mode, the results returned by the batch executor are,
    position by position, the results recorded for a prefix of the
    commands.  In the interactive mode, when the step of the first of three
    commands records [r1] and goes on, and the user quits on the second,
    the batch returns exactly [r1]. *)
Theorem batch_results_follow_a_prefix (cfg : ConfigManager) (this : Executor)
  (env : Env) (rx : TextParsers) (depth : nat) (commands : list jsstr)
  (options : Options) (t : Trace) (rs : list ExecResult) (t' : Trace) :
  executeMultipleCommands cfg this env rx depth commands options t = (Ok rs, t') ->
  length rs <= length commands
  /\ Forall2 (resultFor (executeCommand cfg this env rx depth))
       (firstn (length rs) commands) rs
  /\ (forall c1 c2 c3 r1 t0 t1,
        StepContinues env (executeCommand cfg this env rx depth) c1 t0 r1 t1 ->
        actionPrompt env t1 c2 = Resolve quit ->
        executeMultipleCommands cfg this env rx depth [c1; c2; c3]
          (withMode interactive) t0
        = (Ok [r1], t1 ++ [ReqAction c2])).
Proof.
  intros H. apply batch_prefix in H as [L P]. split; [exact L|]. split; [exact P|].
  intros c1 c2 c3 r1 t0 t1 S Q.
  rewrite executeMultipleCommands_interactive.
  rewrite (interactiveLoop_step _ _ _ _ _ _ _ S).
  rewrite interactiveLoop_cons. cbv zeta. rewrite Q. reflexivity.
Qed.

Lemma batch_results_follow_a_prefix_witness :
  length [gitAddDone] <= 3
  /\ Forall2 (resultFor (executeCommand config newExecutor quitOnPush sampleParsers 0))
       [js "git add ."] [gitAddDone].
Proof.
  pose proof (batch_results_follow_a_prefix config newExecutor quitOnPush
                sampleParsers 0 [js "git add ."; js "git push"; js "git log"]
                (withMode interactive) [] [gitAddDone]
                [ReqAction (js "git add .");
                 ReqExeca (Some (js "git")) [js "add"; js "."];
                 ReqAction (js "git push")]) as H.
  assert (E : executeMultipleCommands config newExecutor quitOnPush sampleParsers 0
                [js "git add ."; js "git push"; js "git log"]
                (withMode interactive) []
              = (Ok [gitAddDone],
                 [ReqAction (js "git add .");
                  ReqExeca (Some (js "git")) [js "add"; js "."];
                  ReqAction (js "git push")]))
    by (vm_compute; reflexivity).
  destruct (H E) as (L & P & _). split; [exact L|exact P].
Defined.

(** C8 (as stated, fails).  The result returned when the user declines a
    dangerous command is [{ success: false, cancelled: true }]: it holds no
    command. *)
Lemma cancelled_result_holds_no_command :
  executeCommand config newExecutor decliningEnv sampleParsers 0
    (js "git reset --hard HEAD~1") noDryRun []
  = (Ok cancelledResult, [ReqConfirmExecution (js "git reset --hard HEAD~1")])
  /\ command cancelledResult = None.
Proof. split; [vm_compute|]; reflexivity. Qed.

(** C8 (amended).  A result returned by [executeCommand] for [cmd] falls in
    exactly one category, which is never Skipped, and it holds [cmd] when it
    is PreviewedOnly and no command otherwise.  A Succeeded result is
    [{ success: true, result }] with what the process resolved to; a Failed
    result is [{ success: false, error }] with the message of the
    confirmation prompt or of the process that was rejected; a Cancelled
    result is [{ success: false, cancelled: true }], after the user declined,
    and holds neither an error nor a process result; a PreviewedOnly result
    is [{ success: true, dryRun: true, command }]. *)
Theorem executeCommand_result_kinds (cfg : ConfigManager) (this : Executor)
  (env : Env) (rx : TextParsers) (depth : nat) (cmd : jsstr)
  (options : Options) (t : Trace) (r : ExecResult) (t' : Trace) :
  executeCommand cfg this env rx depth cmd options t = (Ok r, t') ->
  kindCount r = 1
  /\ isSkipped r = false
  /\ command r = (if isPreviewedOnly r then Some cmd else None)
  /\ (isSucceeded r = true ->
      exists res,
        execa env (afterDangerCheck cmd t) (hd_error (parseCommand cmd))
          (tl (parseCommand cmd)) = Resolve res
        /\ r = mkResult true false false false None None (Some res))
  /\ (isFailed r = true ->
      exists message,
        ((isDangerousCommand cmd = true
          /\ confirmPrompt env t cmd = Reject message)
         \/ execa env (afterDangerCheck cmd t) (hd_error (parseCommand cmd))
              (tl (parseCommand cmd)) = Reject message)
        /\ r = mkResult false false false false None (Some message) None)
  /\ (isCancelled r = true ->
      isDangerousCommand cmd = true
      /\ confirmPrompt env t cmd = Resolve false
      /\ r = mkResult false true false false None None None)
  /\ (isPreviewedOnly r = true ->
      r = mkResult true false true false (Some cmd) None None).
Proof.
  intros H. apply executeCommand_origin in H.
  destruct H as [D C|P Y|res P Y X|message D C|message P Y X];
    (split; [reflexivity|]); (split; [reflexivity|]);
    (split; [reflexivity|]);
    repeat match goal with |- _ /\ _ => split end;
    intros E; try (cbv in E; discriminate E); clear E.
  - now repeat split.
  - reflexivity.
  - exists res. now split.
  - exists message. split; [left; now split|reflexivity].
  - exists message. split; [now right|reflexivity].
Qed.

Lemma executeCommand_result_kinds_witness :
  kindCount cancelledResult = 1
  /\ isSkipped cancelledResult = false
  /\ command cancelledResult = None
  /\ error cancelledResult = None
  /\ result cancelledResult = None.
Proof.
  destruct (executeCommand_result_kinds config newExecutor decliningEnv
              sampleParsers 0 (js "git reset --hard HEAD~1") noDryRun []
              cancelledResult [ReqConfirmExecution (js "git reset --hard HEAD~1")])
    as (K & S & C & _ & _ & N & _).
  - vm_compute. reflexivity.
  - destruct (N eq_refl) as (_ & _ & E).
    split; [exact K|]. split; [exact S|]. split; [exact C|].
    rewrite E. split; reflexivity.
Defined.

(** C9.  In the interactive mode, after the user chose to run a command and
    [executeCommand] returned [r]: when [r] is not Failed (so when it is
    Cancelled) the loop goes on with the next command from the very trace
    [executeCommand] left, asking nothing; when [r] is Failed the user is
    asked whether to continue, and the answer decides. *)
Theorem cancelled_step_continues_without_prompt (cfg : ConfigManager)
  (this : Executor) (env : Env) (rx : TextParsers) (depth : nat)
  (cmd : jsstr) (rest : list jsstr) (t : Trace) (r : ExecResult) (t1 : Trace) :
  actionPrompt env t cmd = Resolve execute ->
  executeCommand cfg this env rx depth cmd noDryRun (t ++ [ReqAction cmd])
    = (Ok r, t1) ->
  (isCancelled r = true -> isFailed r = false)
  /\ (isFailed r = false ->
      executeMultipleCommands cfg this env rx depth (cmd :: rest)
        (withMode interactive) t
      = mapOk (cons r)
          (executeMultipleCommands cfg this env rx depth rest
             (withMode interactive) t1))
  /\ (isFailed r = true ->
      executeMultipleCommands cfg this env rx depth (cmd :: rest)
        (withMode interactive) t
      = match continuePrompt env t1 with
        | Resolve true =>
            mapOk (cons r)
              (executeMultipleCommands cfg this env rx depth rest
                 (withMode interactive) (t1 ++ [ReqContinueOnError]))
        | Resolve false => (Ok [r], t1 ++ [ReqContinueOnError])
        | Reject e => (Throw e, t1 ++ [ReqContinueOnError])
        end).
Proof.
  intros A E. split; [|split].
  - unfold isCancelled, isFailed. intros ->. apply andb_false_r.
  - intros F. rewrite !executeMultipleCommands_interactive.
    rewrite interactiveLoop_cons. cbv zeta. now rewrite A, E, F.
  - intros F. rewrite !executeMultipleCommands_interactive.
    rewrite interactiveLoop_cons. cbv zeta. rewrite A, E, F.
    now destruct (continuePrompt env t1) as [[|]|e].
Qed.

Lemma cancelled_step_continues_without_prompt_witness :
  executeMultipleCommands config newExecutor decliningEnv sampleParsers 0
    [js "git reset --hard HEAD~1"; js "git status"] (withMode interactive) []
  = (Ok [cancelledResult; gitStatusDone],
     [ReqAction (js "git reset --hard HEAD~1");
      ReqConfirmExecution (js "git reset --hard HEAD~1");
      ReqAction (js "git status");
      ReqExeca (Some (js "git")) [js "status"]]).
Proof.
  destruct (cancelled_step_continues_without_prompt config newExecutor
              decliningEnv sampleParsers 0 (js "git reset --hard HEAD~1")
              [js "git status"] [] cancelledResult
              [ReqAction (js "git reset --hard HEAD~1");
               ReqConfirmExecution (js "git reset --hard HEAD~1")])
    as (_ & Go & _).
  - reflexivity.
  - vm_compute. reflexivity.
  - rewrite (Go eq_refl). vm_compute. reflexivity.
Defined.

(** C10.  Each result of a list returned by the batch executor falls in
    exactly one of the five categories of the summary, and the five counts
    add up to the number of results. *)
Theorem summary_counts_partition (cfg : ConfigManager) (this : Executor)
  (env : Env) (rx : TextParsers) (depth : nat) (commands : list jsstr)
  (options : Options) (t : Trace) (rs : list ExecResult) (t' : Trace) :
  executeMultipleCommands cfg this env rx depth commands options t = (Ok rs, t') ->
  Forall (fun r => kindCount r = 1) rs
  /\ successfulCount rs + failedCount rs + cancelledCount rs + skippedCount rs
     + dryRunCount rs = length rs.
Proof.
  intros H. apply batch_prefix in H as [_ P].
  assert (K : Forall (fun r => kindCount r = 1) rs).
  { induction P as [|cmd r cs rs' R _ IH]; constructor; [|exact IH].
    eapply resultFor_kind; eauto. }
  split; [exact K|now apply counts_partition].
Qed.

Lemma summary_counts_partition_witness :
  successfulCount [gitStatusDone; cancelledResult]
  + failedCount [gitStatusDone; cancelledResult]
  + cancelledCount [gitStatusDone; cancelledResult]
  + skippedCount [gitStatusDone; cancelledResult]
  + dryRunCount [gitStatusDone; cancelledResult] = 2.
Proof.
  refine (proj2 (summary_counts_partition config newExecutor decliningEnv
            sampleParsers 0 [js "git status"; js "git reset --hard HEAD~1"; js "git log"]
            (withMode auto) [] [gitStatusDone; cancelledResult]
            [ReqExeca (Some (js "git")) [js "status"];
             ReqConfirmExecution (js "git reset --hard HEAD~1")] _)).
  vm_compute. reflexivity.
Defined.

(* ================================================================== *)
(** * Further properties of the code *)

(** ** Requests a call does not make *)

Lemma keeps_ret {A} (p : Request -> bool) (a : A) : keeps p (ret a).
Proof. now intros t. Qed.

Lemma keeps_throw {A} (p : Request -> bool) (e : jsstr) : keeps p (@throw A e).
Proof. now intros t. Qed.

Lemma keeps_bind {A B} (p : Request -> bool) (m : M A) (k : A -> M B) :
  keeps p m -> (forall a, keeps p (k a)) -> keeps p (bind m k).
Proof.
  intros Hm Hk t. unfold bind. specialize (Hm t).
  destruct (m t) as [[a|e|] t1]; simpl in *; try exact Hm.
  now rewrite Hk.
Qed.

Lemma keeps_tryCatch {A} (p : Request -> bool) (m : M A) (h : jsstr -> M A) :
  keeps p m -> (forall e, keeps p (h e)) -> keeps p (tryCatch m h).
Proof.
  intros Hm Hh t. unfold tryCatch. specialize (Hm t).
  destruct (m t) as [[a|e|] t1]; simpl in *; try exact Hm.
  now rewrite Hh.
Qed.

Lemma keeps_await {A} (p : Request -> bool) (req : Request)
  (answer : Trace -> Reply A) :
  p req = false -> keeps p (await req answer).
Proof.
  intros H t. unfold await.
  destruct (answer t); simpl; rewrite filter_app; simpl; rewrite H;
    apply app_nil_r.
Qed.

Section Keeps.
Variable p : Request -> bool.
Variable env : Env.
Variable rx : TextParsers.

Lemma autoLoop_keeps (exec : jsstr -> Options -> M ExecResult) :
  (forall cmd, keeps p (exec cmd noDryRun)) ->
  forall commands results, keeps p (autoLoop exec commands results).
Proof.
  intros H commands. induction commands as [|cmd rest IH]; intros results.
  - apply keeps_ret.
  - simpl. apply keeps_bind; [apply H|]. intros r.
    destruct (negb (success r) && negb (cancelled r)); [apply keeps_ret|].
    destruct (cancelled r); [apply keeps_ret|apply IH].
Qed.

Lemma interactiveLoop_keeps (exec : jsstr -> Options -> M ExecResult) :
  (forall cmd, p (ReqAction cmd) = false) -> p ReqContinueOnError = false ->
  (forall cmd, keeps p (exec cmd noDryRun)) ->
  forall commands results, keeps p (interactiveLoop env exec commands results).
Proof.
  intros Pa Pc H commands. induction commands as [|cmd rest IH]; intros results.
  - apply keeps_ret.
  - simpl. apply keeps_bind; [now apply keeps_await|]. intros [| |].
    + apply keeps_bind; [apply H|]. intros r.
      destruct (negb (success r) && negb (cancelled r)); [|apply IH].
      apply keeps_bind; [now apply keeps_await|].
      intros [|]; simpl; [apply IH|apply keeps_ret].
    + apply IH.
    + apply keeps_ret.
Qed.

Lemma executeMultipleCommandsWith_keeps (exec : jsstr -> Options -> M ExecResult) :
  (forall cmd, p (ReqAction cmd) = false) -> p ReqContinueOnError = false ->
  (forall cmd, keeps p (exec cmd noDryRun)) ->
  forall commands options,
    keeps p (executeMultipleCommandsWith env exec commands options).
Proof.
  intros Pa Pc H commands options. unfold executeMultipleCommandsWith.
  destruct (match opt_mode options with Some m => m | None => dry end).
  - apply keeps_ret.
  - now apply autoLoop_keeps.
  - now apply interactiveLoop_keeps.
  - apply keeps_ret.
Qed.

Lemma legacyLoop_keeps (exec : jsstr -> Options -> M ExecResult)
  (options : Options) (continueOnError : bool) :
  (forall cmd, keeps p (exec cmd options)) ->
  forall commands results,
    keeps p (legacyLoop exec commands options continueOnError results).
Proof.
  intros H commands. induction commands as [|cmd rest IH]; intros results.
  - apply keeps_ret.
  - simpl. apply keeps_bind; [apply H|]. intros r.
    destruct (negb (success r) && negb continueOnError); [apply keeps_ret|apply IH].
Qed.
End Keeps.

(** ** Dry run *)

Lemma suggestErrorSolution_noSpawn (env : Env) (rx : TextParsers)
  (batch : list jsstr -> Options -> M (list ExecResult)) :
  (forall commands o, noSpawn (batch commands o)) ->
  forall cmd message, noSpawn (suggestErrorSolution env rx batch cmd message).
Proof.
  intros H cmd message.
  assert (S1 : forall solution, noSpawn (executeSpecificSolution env rx batch solution)).
  { intros solution. unfold executeSpecificSolution.
    destruct (matchGitCommandPattern rx solution) as [[|m ms]|];
      try apply keeps_ret.
    apply keeps_bind; [now apply keeps_await|]. intros [| | |];
      try apply keeps_ret;
      (apply keeps_bind; [apply H|intros; apply keeps_ret]). }
  assert (S2 : forall c e s, noSpawn (getSpecificSolution env rx batch c e s)).
  { intros c e s. unfold getSpecificSolution.
    apply keeps_tryCatch; [|intros; apply keeps_ret].
    apply keeps_bind; [now apply keeps_await|apply S1]. }
  unfold suggestErrorSolution.
  apply keeps_tryCatch; [|intros; apply keeps_ret].
  apply keeps_bind; [now apply keeps_await|]. intros response.
  unfold getUserSolutionChoice.
  apply keeps_tryCatch; [|intros; apply keeps_ret].
  destruct (Nat.eqb _ 0); [apply keeps_ret|].
  apply keeps_bind; [now apply keeps_await|]. intros selectedIndex.
  destruct (selectedIndex =? -1)%Z; [apply keeps_ret|].
  destruct (selectedIndex =? _)%Z.
  - apply keeps_bind; [now apply keeps_await|]. intros; apply S2.
  - destruct (optionAt _ selectedIndex); [apply S2|apply keeps_throw].
Qed.

Lemma callGetAutoSuggestSolutions_keeps (p : Request -> bool) (cfg : ConfigManager) :
  keeps p (callGetAutoSuggestSolutions cfg).
Proof.
  unfold callGetAutoSuggestSolutions.
  destruct (getAutoSuggestSolutions cfg); [apply keeps_ret|apply keeps_throw].
Qed.

Lemma executeCommandWith_dry_noSpawn (cfg : ConfigManager) (this : Executor)
  (env : Env) (suggest : jsstr -> jsstr -> M unit) :
  this_dryRun this = true ->
  (forall cmd message, noSpawn (suggest cmd message)) ->
  forall cmd options, noSpawn (executeCommandWith cfg this env suggest cmd options).
Proof.
  intros D H cmd options. unfold executeCommandWith. rewrite D. simpl.
  apply keeps_tryCatch.
  - apply keeps_bind.
    + destruct (isDangerousCommand cmd); [|apply keeps_ret].
      apply keeps_bind; [now apply keeps_await|intros; apply keeps_ret].
    + intros [|]; apply keeps_ret.
  - intros message. apply keeps_bind; [apply callGetAutoSuggestSolutions_keeps|].
    intros b. apply keeps_bind; [|intros; apply keeps_ret].
    destruct (b && negb (opt_skipSuggestion options)); [apply H|apply keeps_ret].
Qed.

Lemma executeCommand_dry_noSpawn (cfg : ConfigManager) (this : Executor)
  (env : Env) (rx : TextParsers) (depth : nat) :
  this_dryRun this = true ->
  forall cmd options, noSpawn (executeCommand cfg this env rx depth cmd options).
Proof.
  intros D. induction depth as [|d IH]; intros cmd options;
    rewrite executeCommand_unfold;
    apply executeCommandWith_dry_noSpawn; try assumption; intros c m;
    apply suggestErrorSolution_noSpawn; intros cs o;
    apply executeMultipleCommandsWith_keeps; try reflexivity; intros c'.
  - now intros t.
  - apply IH.
Qed.

(** X1.  Once [setDryRun(true)] was called, no process is spawned: not by
    [executeCommand], not by the batch executor in any mode, not by the
    legacy batch executor, and not by the recovery dialogues they open. *)
Theorem dry_run_spawns_nothing (cfg : ConfigManager) (this : Executor)
  (env : Env) (rx : TextParsers) (depth : nat) (options : Options) (t : Trace) :
  (forall cmd,
     spawned (snd (executeCommand cfg (setDryRun this true) env rx depth
                     cmd options t)) = spawned t)
  /\ (forall commands,
        spawned (snd (executeMultipleCommands cfg (setDryRun this true) env rx
                        depth commands options t)) = spawned t)
  /\ (forall commands continueOnError,
        spawned (snd (executeMultipleCommandsLegacy cfg (setDryRun this true)
                        env rx depth commands options continueOnError t))
        = spawned t).
Proof.
  assert (E : forall cmd o,
             noSpawn (executeCommand cfg (setDryRun this true) env rx depth cmd o))
    by (apply executeCommand_dry_noSpawn; reflexivity).
  split; [|split].
  - intros cmd. apply E.
  - intros commands.
    apply (executeMultipleCommandsWith_keeps isSpawn env
             (executeCommand cfg (setDryRun this true) env rx depth));
      try reflexivity. intros c; apply E.
  - intros commands continueOnError.
    apply (legacyLoop_keeps isSpawn
             (executeCommand cfg (setDryRun this true) env rx depth)).
    intros c; apply E.
Qed.

(** ** Exceptions *)

(** An exception that leaves [executeCommand] is the one of the missing
    method. *)
Lemma executeCommand_throw_origin (cfg : ConfigManager)
  (this : Executor) (env : Env) (rx : TextParsers) (depth : nat)
  (cmd : jsstr) (options : Options) (t : Trace) (e : jsstr) :
  fst (executeCommand cfg this env rx depth cmd options t) = Throw e ->
  getAutoSuggestSolutions cfg = None
  /\ e = js "config.getAutoSuggestSolutions is not a function".
Proof.
  rewrite executeCommand_unfold.
  set (suggest := suggestErrorSolution env rx _).
  assert (H : forall message tz,
             fst (onError cfg suggest cmd options message tz) = Throw e ->
             getAutoSuggestSolutions cfg = None
             /\ e = js "config.getAutoSuggestSolutions is not a function").
  { intros message tz. unfold onError, callGetAutoSuggestSolutions, bind, ret, throw.
    destruct (getAutoSuggestSolutions cfg) as [b|].
    - destruct (b && negb (opt_skipSuggestion options)); [|discriminate].
      unfold suggest.
      match goal with |- context [suggestErrorSolution ?a ?b ?c ?d ?m ?t0] =>
        destruct (suggestErrorSolution_swallows a b c d m t0) as [t' [E|E]];
        rewrite E end; discriminate.
    - simpl. intros E. inversion E. now split. }
  unfold executeCommandWith, tryCatch. fold (onError cfg suggest cmd options).
  unfold bind, confirmExecution, await, ret.
  destruct (isDangerousCommand cmd).
  - destruct (confirmPrompt env t cmd) as [[|]|m]; simpl; try discriminate.
    + destruct (this_dryRun this || opt_dryRun options); [discriminate|].
      destruct (execa env _ _ _); [discriminate|apply H].
    + apply H.
  - simpl. destruct (this_dryRun this || opt_dryRun options); [discriminate|].
    destruct (execa env _ _ _); [discriminate|apply H].
Qed.

(** The runner when the confirmation prompt is rejected. *)
Lemma executeCommandWith_prompt_rejected (cfg : ConfigManager) (this : Executor)
  (env : Env) (suggest : jsstr -> jsstr -> M unit) (cmd : jsstr)
  (options : Options) (t : Trace) (message : jsstr) :
  isDangerousCommand cmd = true ->
  confirmPrompt env t cmd = Reject message ->
  executeCommandWith cfg this env suggest cmd options t
  = onError cfg suggest cmd options message (t ++ [ReqConfirmExecution cmd]).
Proof.
  intros D C. unfold executeCommandWith, tryCatch, bind, confirmExecution, await.
  rewrite D, C. reflexivity.
Qed.

(** What the [catch] block returns when the configuration object has the
    method. *)
Lemma onError_with_getter (b : bool) (env : Env) (rx : TextParsers)
  (batch : list jsstr -> Options -> M (list ExecResult)) (cmd : jsstr)
  (options : Options) (message : jsstr) (t : Trace) :
  (fst (onError (configWith b) (suggestErrorSolution env rx batch) cmd options
          message t) = Ok (failedResult message)
   \/ fst (onError (configWith b) (suggestErrorSolution env rx batch) cmd
             options message t) = OutOfFuel)
  /\ (b && negb (opt_skipSuggestion options) = false ->
      onError (configWith b) (suggestErrorSolution env rx batch) cmd options
        message t = (Ok (failedResult message), t)).
Proof.
  unfold onError, callGetAutoSuggestSolutions, bind, ret. simpl.
  destruct (b && negb (opt_skipSuggestion options)).
  - split; [|discriminate].
    destruct (suggestErrorSolution_swallows env rx batch cmd message t)
      as [t' [E|E]]; rewrite E; simpl; tauto.
  - split; [now left|reflexivity].
Qed.

(** X2.  The only exception that leaves [executeCommand] is the one raised
    by calling a method the configuration object does not have, and no
    error of a recovery dialogue leaves [suggestErrorSolution].  With a
    configuration object that has the method, a rejected confirmation
    prompt and a rejected process are turned into the Failed result that
    holds their message: this is the outcome unless the recovery dialogue
    the failure opens needs more nesting than the depth granted, and it is
    the outcome at every depth when no dialogue is opened (the method
    answers false or [options.skipSuggestion] is set). *)
Theorem executeCommand_throws_only_for_missing_method (cfg : ConfigManager)
  (this : Executor) (env : Env) (rx : TextParsers) (depth : nat)
  (cmd : jsstr) (options : Options) (t : Trace) :
  (forall e,
     fst (executeCommand cfg this env rx depth cmd options t) = Throw e ->
     getAutoSuggestSolutions cfg = None
     /\ e = js "config.getAutoSuggestSolutions is not a function")
  /\ (forall b message,
        getAutoSuggestSolutions cfg = Some b ->
        (isDangerousCommand cmd = true
         /\ confirmPrompt env t cmd = Reject message)
        \/ (passesDangerCheck env cmd t
            /\ this_dryRun this || opt_dryRun options = false
            /\ execa env (afterDangerCheck cmd t) (hd_error (parseCommand cmd))
                 (tl (parseCommand cmd)) = Reject message) ->
        (fst (executeCommand cfg this env rx depth cmd options t)
         = Ok (failedResult message)
         \/ fst (executeCommand cfg this env rx depth cmd options t) = OutOfFuel)
        /\ (b && negb (opt_skipSuggestion options) = false ->
            fst (executeCommand cfg this env rx depth cmd options t)
            = Ok (failedResult message)))
  /\ (forall batch c m t0 e,
        fst (suggestErrorSolution env rx batch c m t0) <> Throw e).
Proof.
  split; [|split].
  - intros e. apply executeCommand_throw_origin.
  - intros b message G R. destruct cfg as [g]. simpl in G. subst g.
    change (mkConfig (Some b)) with (configWith b).
    rewrite executeCommand_unfold.
    match goal with
    | |- context [suggestErrorSolution env rx ?k] => set (batch := k)
    end.
    destruct R as [[D C]|(P & Y & X)].
    + rewrite (executeCommandWith_prompt_rejected _ _ _ _ _ _ _ message D C).
      destruct (onError_with_getter b env rx batch cmd options message
                  (t ++ [ReqConfirmExecution cmd])) as [H1 H2].
      split; [exact H1|]. intros Z. now rewrite (H2 Z).
    + rewrite executeCommandWith_spawn by assumption. cbv zeta. rewrite X.
      match goal with
      | |- context [onError _ _ cmd options message ?tz] =>
          destruct (onError_with_getter b env rx batch cmd options message tz)
            as [H1 H2]
      end.
      split; [exact H1|]. intros Z. now rewrite (H2 Z).
  - intros batch c m t0 e.
    destruct (suggestErrorSolution_swallows env rx batch c m t0) as [t' [E|E]];
      rewrite E; discriminate.
Qed.

Lemma executeCommand_throws_only_for_missing_method_witness :
  (getAutoSuggestSolutions config = None
   /\ js "config.getAutoSuggestSolutions is not a function"
      = js "config.getAutoSuggestSolutions is not a function")
  /\ fst (executeCommand (configWith false) newExecutor failingEnv
            sampleParsers 0 (js "git foo") noDryRun [])
     = Ok (failedResult exitFailure).
Proof.
  split.
  - refine (proj1 (executeCommand_throws_only_for_missing_method config
              newExecutor failingEnv sampleParsers 0 (js "git foo") noDryRun [])
              (js "config.getAutoSuggestSolutions is not a function") _).
    vm_compute. reflexivity.
  - refine (proj2 (proj1 (proj2 (executeCommand_throws_only_for_missing_method
              (configWith false) newExecutor failingEnv sampleParsers 0
              (js "git foo") noDryRun [])) false exitFailure _ _) _).
    + reflexivity.
    + right. split; [|split].
      * intros D. vm_compute in D. discriminate D.
      * reflexivity.
      * reflexivity.
    + reflexivity.
Defined.

(** ** The suppress-recovery flag *)

Lemma executeCommandWith_skipSuggestion (cfg : ConfigManager) (this : Executor)
  (env : Env) (suggest : jsstr -> jsstr -> M unit) (cmd : jsstr)
  (options : Options) :
  opt_skipSuggestion options = true ->
  noRecovery (executeCommandWith cfg this env suggest cmd options)
  /\ (forall t, fst (executeCommandWith cfg this env suggest cmd options t)
                <> OutOfFuel).
Proof.
  intros S. unfold executeCommandWith. rewrite S. simpl negb. split.
  - apply keeps_tryCatch.
    + apply keeps_bind.
      * destruct (isDangerousCommand cmd); [|apply keeps_ret].
        apply keeps_bind; [now apply keeps_await|intros; apply keeps_ret].
      * intros [|]; [apply keeps_ret|].
        destruct (this_dryRun this || opt_dryRun options); [apply keeps_ret|].
        apply keeps_bind; [now apply keeps_await|intros; apply keeps_ret].
    + intros message.
      apply keeps_bind; [apply callGetAutoSuggestSolutions_keeps|].
      intros b. rewrite andb_false_r. apply keeps_bind; intros; apply keeps_ret.
  - intros t. unfold tryCatch, callGetAutoSuggestSolutions.
    unfold bind, confirmExecution, await, ret, throw.
    destruct (isDangerousCommand cmd).
    + destruct (confirmPrompt env t cmd) as [[|]|m]; simpl.
      * destruct (this_dryRun this || opt_dryRun options); [discriminate|].
        destruct (execa env _ _ _); [discriminate|].
        destruct (getAutoSuggestSolutions cfg) as [[|]|]; discriminate.
      * discriminate.
      * destruct (getAutoSuggestSolutions cfg) as [[|]|]; discriminate.
    + simpl. destruct (this_dryRun this || opt_dryRun options); [discriminate|].
      destruct (execa env _ _ _); [discriminate|].
      destruct (getAutoSuggestSolutions cfg) as [[|]|]; discriminate.
Qed.

(** X3.  When [options.skipSuggestion] is set, [executeCommand] opens no
    recovery dialogue, whatever the configuration and however the command
    ends; and the legacy batch executor, which hands its options to every
    command, opens none for a whole batch. *)
Theorem skipSuggestion_suppresses_recovery (cfg : ConfigManager)
  (this : Executor) (env : Env) (rx : TextParsers) (depth : nat)
  (options : Options) (t : Trace) :
  opt_skipSuggestion options = true ->
  (forall cmd,
     filter isRecoveryRequest
       (snd (executeCommand cfg this env rx depth cmd options t))
     = filter isRecoveryRequest t)
  /\ (forall commands continueOnError,
        filter isRecoveryRequest
          (snd (executeMultipleCommandsLegacy cfg this env rx depth commands
                  options continueOnError t))
        = filter isRecoveryRequest t).
Proof.
  intros S.
  assert (E : forall cmd,
             noRecovery (executeCommand cfg this env rx depth cmd options)).
  { intros cmd. rewrite executeCommand_unfold.
    now apply executeCommandWith_skipSuggestion. }
  split.
  - intros cmd. apply E.
  - intros commands continueOnError.
    apply (legacyLoop_keeps isRecoveryRequest
             (executeCommand cfg this env rx depth)). exact E.
Qed.

Lemma skipSuggestion_suppresses_recovery_witness :
  filter isRecoveryRequest
    (snd (executeMultipleCommandsLegacy (configWith true) newExecutor failingEnv
            sampleParsers 0 [js "git pull"; js "git push"]
            (mkOptions None false true) true []))
  = [].
Proof.
  refine (proj2 (skipSuggestion_suppresses_recovery (configWith true) newExecutor
            failingEnv sampleParsers 0 (mkOptions None false true) [] _)
            [js "git pull"; js "git push"] true).
  reflexivity.
Defined.

(** ** Legacy batch executor *)

Lemma legacyLoop_acc (exec : jsstr -> Options -> M ExecResult)
  (commands : list jsstr) (options : Options) (c : bool)
  (acc : list ExecResult) (t : Trace) :
  legacyLoop exec commands options c acc t
  = mapOk (app acc) (legacyLoop exec commands options c [] t).
Proof.
  revert acc t. induction commands as [|cmd rest IH]; intros acc t.
  - simpl. unfold ret. now rewrite app_nil_r.
  - simpl. unfold bind.
    destruct (exec cmd options t) as [[r|e|] t1]; try reflexivity.
    destruct (negb (success r) && negb c); [reflexivity|].
    rewrite IH. rewrite (IH [r]). rewrite mapOk_mapOk.
    apply mapOk_ext. intros a. now rewrite <- app_assoc.
Qed.

(** One turn of the loop of the legacy batch executor. *)
Lemma legacyLoop_cons (exec : jsstr -> Options -> M ExecResult)
  (cmd : jsstr) (rest : list jsstr) (options : Options) (c : bool) (t : Trace) :
  legacyLoop exec (cmd :: rest) options c [] t =
  match exec cmd options t with
  | (Ok r, t1) =>
      if negb (success r) && negb c then (Ok [r], t1)
      else mapOk (cons r) (legacyLoop exec rest options c [] t1)
  | (Throw e, t1) => (Throw e, t1)
  | (OutOfFuel, t1) => (OutOfFuel, t1)
  end.
Proof.
  simpl. unfold bind.
  destruct (exec cmd options t) as [[r|e|] t1]; try reflexivity.
  destruct (negb (success r) && negb c); [reflexivity|].
  simpl. now rewrite legacyLoop_acc.
Qed.

Lemma legacyLoop_LegacyRun (exec : jsstr -> Options -> M ExecResult)
  (options : Options) (c : bool) (commands : list jsstr) :
  forall t rs t',
  legacyLoop exec commands options c [] t = (Ok rs, t')
  <-> LegacyRun exec options c commands t rs t'.
Proof.
  induction commands as [|cmd rest IH]; intros t rs t'.
  - split.
    + intros H. inversion H; subst. constructor.
    + intros H. inversion H; subst. reflexivity.
  - rewrite legacyLoop_cons. split.
    + destruct (exec cmd options t) as [[r|e|] t1] eqn:E; try discriminate.
      destruct (negb (success r) && negb c) eqn:K.
      * intros H. inversion H; subst. apply andb_true_iff in K as [K1 K2].
        apply negb_true_iff in K1, K2. now apply LegacyRun_halt.
      * intros H. apply mapOk_Ok in H as (rs' & H & ->).
        apply LegacyRun_step with t1; [exact E| |now apply IH].
        apply andb_false_iff in K as [K|K]; apply negb_false_iff in K; tauto.
    + intros H. inversion H as [|? ? ? ? ? E S C|? ? ? ? ? ? ? E S R]; subst;
        rewrite E.
      * now rewrite S.
      * assert (K : negb (success r) && negb c = false)
          by (destruct S as [-> | ->]; [reflexivity|apply andb_false_r]).
        rewrite K. apply IH in R. now rewrite R.
Qed.

Lemma LegacyRun_results (exec : jsstr -> Options -> M ExecResult)
  (options : Options) (c : bool) (commands : list jsstr) (t : Trace)
  (rs : list ExecResult) (t' : Trace) :
  LegacyRun exec options c commands t rs t' ->
  Forall2 (resultWith exec options) (firstn (length rs) commands) rs.
Proof.
  induction 1 as [t|cmd rest r t t1 E S C|cmd rest r t t1 rs t2 E S R IH];
    simpl.
  - constructor.
  - constructor; [now exists t, t1|]. constructor.
  - constructor; [now exists t, t1|exact IH].
Qed.

(** X4.  The results the legacy batch executor returns answer a prefix of
    the commands: the commands are run in order, each with the options of
    the batch and from the trace its predecessor left, and every result is
    the one [executeCommand] returned for its command.  With
    [continueOnError] every command gets a result; without it every result
    but the last is a success, and when commands are left over the last
    result is not a success (it is Failed or Cancelled). *)
Theorem legacy_batch_stops_at_first_unsuccessful (cfg : ConfigManager)
  (this : Executor) (env : Env) (rx : TextParsers) (depth : nat)
  (commands : list jsstr) (options : Options) (continueOnError : bool)
  (t : Trace) (rs : list ExecResult) (t' : Trace) :
  executeMultipleCommandsLegacy cfg this env rx depth commands options
    continueOnError t = (Ok rs, t') ->
  length rs <= length commands
  /\ (continueOnError = true -> length rs = length commands)
  /\ (continueOnError = false ->
      Forall (fun r => success r = true) (removelast rs)
      /\ (length rs < length commands ->
          exists r, last rs r = r /\ In r rs /\ success r = false))
  /\ LegacyRun (executeCommand cfg this env rx depth) options continueOnError
       commands t rs t'
  /\ Forall2 (resultWith (executeCommand cfg this env rx depth) options)
       (firstn (length rs) commands) rs.
Proof.
  unfold executeMultipleCommandsLegacy, executeMultipleCommandsLegacyWith.
  set (exec := executeCommand cfg this env rx depth).
  intros H.
  assert (R : LegacyRun exec options continueOnError commands t rs t')
    by (now apply legacyLoop_LegacyRun).
  cut (length rs <= length commands
       /\ (continueOnError = true -> length rs = length commands)
       /\ (continueOnError = false ->
           Forall (fun r => success r = true) (removelast rs)
           /\ (length rs < length commands ->
               exists r, last rs r = r /\ In r rs /\ success r = false))).
  { intros (A & B & C). split; [exact A|]. split; [exact B|].
    split; [exact C|]. split; [exact R|].
    now apply LegacyRun_results with continueOnError t t'. }
  clear R. revert t rs t' H.
  induction commands as [|cmd rest IH]; intros t rs t' H.
  - inversion H; subst. simpl. repeat split; try lia; try constructor.
  - rewrite legacyLoop_cons in H.
    destruct (exec cmd options t) as [[r|e|] t1]; try discriminate.
    destruct (negb (success r) && negb continueOnError) eqn:K.
    + inversion H; subst. apply andb_true_iff in K as [K1 K2].
      apply negb_true_iff in K1, K2. simpl. split; [lia|]. split.
      * intros C. congruence.
      * intros _. split; [constructor|]. intros _. exists r. simpl. tauto.
    + apply mapOk_Ok in H as (rs' & H & ->).
      destruct (IH _ _ _ H) as (L & A & B). simpl length.
      split; [lia|]. split; [intros C; rewrite (A C); reflexivity|].
      intros C. destruct (B C) as (F & G). subst continueOnError.
      rewrite andb_true_r in K. apply negb_false_iff in K.
      split.
      * destruct rs' as [|r' rs'']; [constructor|].
        change (removelast (r :: r' :: rs'')) with (r :: removelast (r' :: rs'')).
        now constructor.
      * intros Lt. destruct G as (x & Hl & Hin & Hs); [lia|].
        destruct rs' as [|r' rs'']; [contradiction|].
        exists x. split; [|split; [now right|exact Hs]].
        change (last (r :: r' :: rs'') x) with (last (r' :: rs'') x). exact Hl.
Qed.

Lemma legacy_batch_stops_at_first_unsuccessful_witness :
  length [gitStatusDone; cancelledResult] <= 3.
Proof.
  refine (proj1 (legacy_batch_stops_at_first_unsuccessful config newExecutor
            decliningEnv sampleParsers 0
            [js "git status"; js "git reset --hard HEAD~1"; js "git log"]
            noDryRun false [] [gitStatusDone; cancelledResult]
            [ReqExeca (Some (js "git")) [js "status"];
             ReqConfirmExecution (js "git reset --hard HEAD~1")] _)).
  vm_compute. reflexivity.
Defined.

(** ** Batches in which nothing fails *)

(** X5.  In the automatic mode, when dry run is off, the user confirms what
    is asked and every process exits with status 0, every command is run,
    once and in order: one Succeeded result per command, and the requests
    made are those of the commands, one after the other. *)
Theorem automatic_mode_runs_every_command (cfg : ConfigManager)
  (this : Executor) (env : Env) (rx : TextParsers) (depth : nat)
  (commands : list jsstr) (t : Trace) :
  this_dryRun this = false ->
  (forall t0 cmd, confirmPrompt env t0 cmd = Resolve true) ->
  (forall t0 file argv, exists res, execa env t0 file argv = Resolve res) ->
  exists rs,
    executeMultipleCommands cfg this env rx depth commands (withMode auto) t
      = (Ok rs, t ++ concat (map requestsOf commands))
    /\ length rs = length commands
    /\ Forall (fun r => isSucceeded r = true) rs.
Proof.
  intros D C X. rewrite executeMultipleCommands_auto.
  revert t. induction commands as [|cmd rest IH]; intros t.
  - exists []. simpl. rewrite app_nil_r. repeat split. constructor.
  - rewrite autoLoop_cons, executeCommand_unfold.
    rewrite executeCommandWith_spawn;
      [|intros _; apply C|simpl; now rewrite D].
    cbv zeta. fold (spawnOf cmd).
    destruct (X (afterDangerCheck cmd t) (hd_error (parseCommand cmd))
                (tl (parseCommand cmd))) as [res E].
    rewrite E. simpl.
    destruct (IH (afterDangerCheck cmd t ++ [spawnOf cmd])) as (rs & R & L & F).
    rewrite R. exists (successResult res :: rs). simpl. split; [|split].
    + f_equal. unfold requestsOf, afterDangerCheck.
      destruct (isDangerousCommand cmd); simpl; now rewrite <- !app_assoc.
    + now rewrite L.
    + now constructor.
Qed.

Lemma automatic_mode_runs_every_command_witness :
  exists rs,
    executeMultipleCommands config newExecutor quitOnPush sampleParsers 0
      [js "git add ."; js "git push --force"] (withMode auto) []
    = (Ok rs, [] ++ concat (map requestsOf [js "git add ."; js "git push --force"]))
    /\ length rs = 2
    /\ Forall (fun r => isSucceeded r = true) rs.
Proof.
  refine (automatic_mode_runs_every_command config newExecutor quitOnPush
            sampleParsers 0 [js "git add ."; js "git push --force"] [] _ _ _).
  - reflexivity.
  - reflexivity.
  - intros t0 file argv. eexists. reflexivity.
Defined.

(** X6.  In the interactive mode, when the user skips every command, the
    batch returns one Skipped result per command, each holding its command,
    and asks nothing but the step prompts: no confirmation, no process. *)
Theorem interactive_mode_skips_without_running (cfg : ConfigManager)
  (this : Executor) (env : Env) (rx : TextParsers) (depth : nat)
  (commands : list jsstr) (t : Trace) :
  (forall t0 cmd, actionPrompt env t0 cmd = Resolve skip) ->
  executeMultipleCommands cfg this env rx depth commands (withMode interactive) t
  = (Ok (map skippedResult commands), t ++ map ReqAction commands).
Proof.
  intros S. rewrite executeMultipleCommands_interactive.
  revert t. induction commands as [|cmd rest IH]; intros t.
  - simpl. now rewrite app_nil_r.
  - rewrite interactiveLoop_cons. cbv zeta. rewrite S, IH. simpl.
    now rewrite <- app_assoc.
Qed.

Lemma interactive_mode_skips_without_running_witness :
  executeMultipleCommands config newExecutor
    (constEnv spawnFails false (fun _ => skip) false) sampleParsers 0
    [js "git reset --hard"; js "git push"] (withMode interactive) []
  = (Ok [skippedResult (js "git reset --hard"); skippedResult (js "git push")],
     [ReqAction (js "git reset --hard"); ReqAction (js "git push")]).
Proof.
  refine (interactive_mode_skips_without_running config newExecutor
            (constEnv spawnFails false (fun _ => skip) false) sampleParsers 0
            [js "git reset --hard"; js "git push"] [] _).
  reflexivity.
Defined.

(** ** Recovery dialogue: cancelling *)

Lemma steady_ret {A} (a : A) : steady (fun _ => ret a).
Proof.
  intros t. exists (Ok a), []. split; [discriminate|]. split; [constructor|].
  intros _. unfold ret. now rewrite app_nil_r.
Qed.

Lemma steady_throw {A} (e : jsstr) : steady (fun _ => @throw A e).
Proof.
  intros t. exists (Throw e), []. split; [discriminate|]. split; [constructor|].
  intros _. unfold throw. now rewrite app_nil_r.
Qed.

Lemma steady_await_bind {A B} (req : Request) (answer : Trace -> Reply A)
  (k : A -> (list jsstr -> Options -> M (list ExecResult)) -> M B) :
  isRecoveryRequest req = true ->
  (forall a, steady (k a)) ->
  steady (fun batch => bind (await req answer) (fun a => k a batch)).
Proof.
  intros R K t. unfold bind, await. destruct (answer t) as [a|e].
  - destruct (K a (t ++ [req])) as (o & ev & N & F & E).
    exists o, (req :: ev). split; [exact N|]. split; [now constructor|].
    intros batch. rewrite E. now rewrite <- app_assoc.
  - exists (Throw e), [req]. split; [discriminate|].
    split; [now repeat constructor|]. reflexivity.
Qed.

Lemma steady_tryCatch
  (step : (list jsstr -> Options -> M (list ExecResult)) -> M unit) :
  steady step ->
  forall t, exists ev,
    Forall (fun q => isRecoveryRequest q = true) ev
    /\ forall batch, tryCatch (step batch) (fun _ => ret tt) t = (Ok tt, t ++ ev).
Proof.
  intros S t. destruct (S t) as (o & ev & N & F & E). exists ev.
  split; [exact F|]. intros batch. unfold tryCatch. rewrite E.
  destruct o as [[]|e|]; [reflexivity|reflexivity|now contradiction N].
Qed.

Lemma steady_of_tryCatch
  (step : (list jsstr -> Options -> M (list ExecResult)) -> M unit) :
  steady step -> steady (fun batch => tryCatch (step batch) (fun _ => ret tt)).
Proof.
  intros S t. destruct (steady_tryCatch step S t) as (ev & F & E).
  exists (Ok tt), ev. split; [discriminate|]. now split.
Qed.

(** X7.  When the user cancels the recovery dialogue, by answering cancel
    (-1) to the solution prompt or cancel to the execution-mode prompt, the
    dialogue ends normally without running any replacement command:
    whatever the generator answered, the only requests made are those of
    the dialogue itself, and the batch executor is not called. *)
Theorem cancelled_recovery_runs_nothing (env : Env) (rx : TextParsers)
  (cmd errorMessage : jsstr) (t : Trace) :
  (forall t0 options, selectedIndexPrompt env t0 options = Resolve (-1)%Z)
  \/ (forall t0 commands, executionModePrompt env t0 commands = Resolve cancel) ->
  exists ev,
    Forall (fun q => isRecoveryRequest q = true) ev
    /\ forall batch,
         suggestErrorSolution env rx batch cmd errorMessage t = (Ok tt, t ++ ev).
Proof.
  intros H. unfold suggestErrorSolution. apply steady_tryCatch.
  apply steady_await_bind; [reflexivity|]. intros response.
  unfold getUserSolutionChoice. apply steady_of_tryCatch.
  destruct (Nat.eqb _ 0); [apply steady_ret|].
  destruct H as [H|H].
  - (* the solution prompt is answered with cancel *)
    intros t1. unfold bind, await. rewrite H. simpl.
    exists (Ok tt), [ReqSelectedIndex (parseSolutionOptions rx response)].
    split; [discriminate|]. split; [repeat constructor|reflexivity].
  - (* the execution-mode prompt is answered with cancel *)
    assert (S2 : forall solution,
               steady (fun batch =>
                 getSpecificSolution env rx batch cmd errorMessage solution)).
    { intros solution. unfold getSpecificSolution. apply steady_of_tryCatch.
      apply steady_await_bind; [reflexivity|]. intros answer.
      unfold executeSpecificSolution.
      destruct (matchGitCommandPattern rx answer) as [[|m ms]|];
        try apply steady_ret.
      intros t1. unfold bind, await. rewrite H.
      exists (Ok tt), [ReqExecutionMode (map cleanMatch (m :: ms))].
      split; [discriminate|]. split; [repeat constructor|reflexivity]. }
    apply steady_await_bind; [reflexivity|]. intros selectedIndex.
    destruct (selectedIndex =? -1)%Z; [apply steady_ret|].
    destruct (selectedIndex =? _)%Z.
    + apply steady_await_bind; [reflexivity|]. intros custom. apply S2.
    + destruct (optionAt _ selectedIndex); [apply S2|apply steady_throw].
Qed.

Lemma cancelled_recovery_runs_nothing_witness :
  exists ev,
    Forall (fun q => isRecoveryRequest q = true) ev
    /\ forall batch,
         suggestErrorSolution cancellingEnv sampleParsers batch (js "git push")
           exitFailure []
         = (Ok tt, [] ++ ev).
Proof.
  refine (cancelled_recovery_runs_nothing cancellingEnv sampleParsers
            (js "git push") exitFailure [] _).
  right. reflexivity.
Defined.

(** ** Replacement commands *)

Lemma In_trimStart (c : char16) (s : jsstr) : In c (trimStart s) -> In c s.
Proof.
  induction s as [|x s IH]; simpl; [trivial|].
  destruct (isWhiteSpace x); [intros H; right; now apply IH|trivial].
Qed.

Lemma In_trim (c : char16) (s : jsstr) : In c (trim s) -> In c s.
Proof.
  unfold trim, trimEnd. intros H. apply In_trimStart.
  apply in_rev. apply In_trimStart. now apply in_rev in H.
Qed.

(** X8.  A replacement command, as it is shown to the user and handed to
    the batch executor, holds no backtick and no line feed, and has no
    whitespace at either end. *)
Theorem cleanMatch_is_clean (m : jsstr) :
  ~ In BACKTICK (cleanMatch m)
  /\ ~ In NEWLINE (cleanMatch m)
  /\ trim (cleanMatch m) = cleanMatch m.
Proof.
  unfold cleanMatch. split; [|split; [|apply trim_idempotent]];
    intros H; apply In_trim in H; apply filter_In in H as [_ H];
    vm_compute in H; discriminate.
Qed.

(** ** Danger classifier *)

Lemma matchHere_nil (s : jsstr) : matchHere s [] = true.
Proof. now destruct s. Qed.

Lemma matchHere_sound (s : jsstr) :
  forall p, matchHere s p = true -> exists m b, s = m ++ b /\ Matches p m.
Proof.
  induction s as [|x s IH]; intros [|[c|] p] H; simpl in H;
    try discriminate; try (exists [], []; split; [reflexivity|constructor]).
  - exists [], (x :: s). split; [reflexivity|constructor].
  - apply andb_true_iff in H as [E H]. apply char_eqb_eq in E. subst.
    destruct (IH _ H) as (m & b & -> & M).
    exists (c :: m), b. split; [reflexivity|now constructor].
  - apply andb_true_iff in H as [W H]. apply orb_true_iff in H as [H|H].
    + destruct (IH _ H) as (m & b & -> & M).
      inversion M as [| |w p' m' Nw Bw M' E1 E2]; subst.
      exists ((x :: w) ++ m'), b. split; [now rewrite <- !app_assoc|].
      constructor; [discriminate|simpl; now rewrite W|exact M'].
    + destruct (IH _ H) as (m & b & -> & M).
      exists ([x] ++ m), b. split; [reflexivity|].
      constructor; [discriminate|simpl; now rewrite W|exact M].
Qed.

Lemma matchHere_complete (p : RegExp) (m : jsstr) :
  Matches p m -> forall b, matchHere (m ++ b) p = true.
Proof.
  induction 1 as [|c p m M IH|w p m N B M IH]; intros b.
  - apply matchHere_nil.
  - simpl. now rewrite (proj2 (char_eqb_eq c c) eq_refl), IH.
  - induction w as [|x w IHw]; [now contradiction N|].
    simpl in B. apply andb_true_iff in B as [Bx Bw].
    simpl. rewrite Bx. simpl. destruct w as [|y w'].
    + simpl. rewrite IH. apply orb_true_r.
    + rewrite IHw; [reflexivity|discriminate|exact Bw].
Qed.

Lemma test_iff (p : RegExp) (s : jsstr) :
  test p s = true <-> exists a m b, s = a ++ m ++ b /\ Matches p m.
Proof.
  split.
  - induction s as [|x s IH]; cbn [test]; intros H.
    + rewrite orb_false_r in H. apply matchHere_sound in H as (m & b & E & M).
      now exists [], m, b.
    + apply orb_true_iff in H as [H|H].
      * apply matchHere_sound in H as (m & b & E & M). now exists [], m, b.
      * destruct (IH H) as (a & m & b & -> & M). now exists (x :: a), m, b.
  - intros (a & m & b & -> & M). induction a as [|x a IH].
    + cbn [app]. destruct (m ++ b) eqn:E; cbn [test]; rewrite <- ?E;
        rewrite (matchHere_complete p m M b); reflexivity.
    + cbn [app test]. rewrite IH. apply orb_true_r.
Qed.

(** X9.  A command is classified as dangerous exactly when it holds,
    anywhere, the words of one of the eight patterns separated by runs of
    one or more whitespace characters; so a dangerous command stays
    dangerous whatever is written before or after it. *)
Theorem isDangerousCommand_contains_a_pattern :
  (forall cmd,
     isDangerousCommand cmd = true
     <-> exists p a m b,
           In p dangerousPatterns /\ cmd = a ++ m ++ b /\ Matches p m)
  /\ (forall a cmd b,
        isDangerousCommand cmd = true ->
        isDangerousCommand (a ++ cmd ++ b) = true).
Proof.
  assert (Iff : forall cmd,
     isDangerousCommand cmd = true
     <-> exists p a m b,
           In p dangerousPatterns /\ cmd = a ++ m ++ b /\ Matches p m).
  { intros cmd. unfold isDangerousCommand. rewrite existsb_exists. split.
    - intros (p & I & T). apply test_iff in T as (a & m & b & E & M).
      now exists p, a, m, b.
    - intros (p & a & m & b & I & E & M). exists p. split; [exact I|].
      apply test_iff. now exists a, m, b. }
  split; [exact Iff|].
  intros a cmd b H. apply Iff in H as (p & a' & m & b' & I & -> & M).
  apply Iff. exists p, (a ++ a'), m, (b' ++ b).
  split; [exact I|]. split; [now rewrite <- !app_assoc|exact M].
Qed.

Lemma isDangerousCommand_contains_a_pattern_witness :
  isDangerousCommand
    (js "cd repo && " ++ js "git  push" ++ [TAB] ++ js "--force" ++ js " origin")
  = true.
Proof.
  apply (proj2 (proj1 isDangerousCommand_contains_a_pattern _)).
  exists (lit "git" ++ [Ws1] ++ lit "push" ++ [Ws1] ++ lit "--force"),
    (js "cd repo && "), (js "git  push" ++ [TAB] ++ js "--force"), (js " origin").
  split; [simpl; tauto|]. split; [reflexivity|].
  change (Matches (lit "git" ++ [Ws1] ++ lit "push" ++ [Ws1] ++ lit "--force")
            (js "git" ++ js "  " ++ js "push" ++ [TAB] ++ js "--force")).
  repeat (first [ apply MatchesEnd
                | apply MatchesChr
                | apply (MatchesWs (js "  ")); [discriminate|reflexivity|]
                | apply (MatchesWs [TAB]); [discriminate|reflexivity|] ]).
Defined.

(** ** Tokenizer: writing and reading back *)

Lemma space_is_whitespace (c : char16) :
  char_eqb c SPACE = true -> isWhiteSpace c = true.
Proof. intros H. apply char_eqb_eq in H. now subst. Qed.

Lemma parseLoop_plain (s : jsstr) :
  forall (A : list jsstr) (cur : jsstr),
  Forall (fun c => isWhiteSpace c = false /\ isQuote c = false) s ->
  parseLoop (mkParseState A cur false None) s
  = mkParseState A (cur ++ s) false None.
Proof.
  induction s as [|c s IH]; intros A cur H.
  - now rewrite app_nil_r.
  - inversion H as [|c' s' [W Q] H']; subst.
    rewrite parseLoop_cons. unfold parseStep, isQuote in *; simpl.
    rewrite Q. simpl.
    destruct (char_eqb c SPACE) eqn:E.
    + apply space_is_whitespace in E. congruence.
    + simpl. rewrite IH by assumption. now rewrite <- app_assoc.
Qed.

Lemma plainToken_trimmed (tok : jsstr) : plainToken tok -> trimmedToken tok.
Proof.
  intros [N F]. split; [exact N|].
  assert (W : forall c, In c tok -> isWhiteSpace c = false).
  { intros c I. rewrite Forall_forall in F. now apply F. }
  unfold trim, trimEnd.
  rewrite (trimStart_fixed tok) by (intros c r E; apply W; subst; now left).
  rewrite (trimStart_fixed (rev tok)); [apply rev_involutive|].
  intros c r E. apply W, in_rev. rewrite E. now left.
Qed.

Lemma Renders_parseLoop (piece tok : jsstr) :
  Renders piece tok ->
  parseLoop parseInit piece = mkParseState [] tok false None
  /\ trimmedToken tok.
Proof.
  intros [t P|q t Q N T].
  - split; [|now apply plainToken_trimmed].
    destruct P as [_ F]. apply (parseLoop_plain t [] [] F).
  - split; [|exact T].
    apply (parseLoop_span [] t q eq_refl Q N).
Qed.

Lemma Renders_parseCommand (piece tok : jsstr) :
  Renders piece tok -> parseCommand piece = [tok].
Proof.
  intros R. destruct (Renders_parseLoop _ _ R) as [E [N T]].
  unfold parseCommand. rewrite E. unfold parseFinish. cbn [args current].
  rewrite T. destruct tok; [contradiction|reflexivity].
Qed.

(** X10.  Writing and reading back: when every token is written as it is
    (it holds no whitespace and no quote character) or between two equal
    quote characters (it does not hold that character and is not blank at
    either end), and the pieces are joined by single spaces, [parseCommand]
    gives back exactly the tokens. *)
Theorem parseCommand_reads_back (pieces tokens : list jsstr) :
  Forall2 Renders pieces tokens ->
  parseCommand (unwords pieces) = tokens.
Proof.
  induction 1 as [|piece tok pieces tokens R F IH]; [reflexivity|].
  destruct pieces as [|piece' pieces].
  - inversion F; subst. now apply Renders_parseCommand.
  - change (unwords (piece :: piece' :: pieces))
      with (piece ++ SPACE :: unwords (piece' :: pieces)).
    rewrite parseCommand_space
      by (now rewrite (proj1 (Renders_parseLoop _ _ R))).
    now rewrite IH, (Renders_parseCommand _ _ R).
Qed.

Lemma parseCommand_reads_back_witness :
  parseCommand
    (unwords [js "git"; js "commit"; js "-m"; quoted DQUOTE (js "it's a  fix");
              quoted SQUOTE (js "--author=A B")])
  = [js "git"; js "commit"; js "-m"; js "it's a  fix"; js "--author=A B"].
Proof.
  apply (parseCommand_reads_back
           [js "git"; js "commit"; js "-m"; quoted DQUOTE (js "it's a  fix");
            quoted SQUOTE (js "--author=A B")]).
  repeat first
    [ apply Forall2_nil
    | apply Forall2_cons
    | apply RendersQuoted;
        [ reflexivity
        | vm_compute; intuition discriminate
        | split; [discriminate|vm_compute; reflexivity] ]
    | apply RendersPlain; split; [discriminate|];
        repeat (constructor; [split; reflexivity|]); constructor ].
Defined.

(** ** Commands read from a response *)

Lemma jsstr_eqb_eq (a b : jsstr) : jsstr_eqb a b = true <-> a = b.
Proof.
  revert b. induction a as [|x a IH]; intros [|y b]; simpl;
    try (split; [discriminate|discriminate]); [tauto|].
  rewrite andb_true_iff, char_eqb_eq, IH. split.
  - now intros [-> ->].
  - intros E. now inversion E.
Qed.

Lemma existsb_jsstr_eqb (x : jsstr) (l : list jsstr) :
  existsb (jsstr_eqb x) l = true <-> In x l.
Proof.
  rewrite existsb_exists. split.
  - intros (y & I & E). apply jsstr_eqb_eq in E. now subst.
  - intros I. exists x. split; [exact I|now apply jsstr_eqb_eq].
Qed.

Lemma dedup_In (commands : list jsstr) :
  forall seen x, In x (dedup seen commands) <-> In x commands /\ ~ In x seen.
Proof.
  induction commands as [|cmd rest IH]; intros seen x; simpl; [tauto|].
  destruct (existsb (jsstr_eqb cmd) seen) eqn:E.
  - apply existsb_jsstr_eqb in E. rewrite IH. split.
    + intros [I N]. split; [now right|exact N].
    + intros [[->|I] N]; [contradiction|now split].
  - assert (N : ~ In cmd seen).
    { intros I. apply existsb_jsstr_eqb in I. congruence. }
    simpl. rewrite IH. simpl. split.
    + intros [->|[I M]]; [split; [now left|exact N]|].
      split; [now right|]. intros J. apply M. now right.
    + intros [[->|I] M]; [now left|].
      destruct (list_eq_dec N.eq_dec cmd x) as [->|D]; [now left|].
      right. split; [exact I|]. intros [J|J]; [contradiction|contradiction].
Qed.

Lemma dedup_NoDup (commands : list jsstr) :
  forall seen, NoDup (dedup seen commands).
Proof.
  induction commands as [|cmd rest IH]; intros seen; simpl; [constructor|].
  destruct (existsb (jsstr_eqb cmd) seen); [apply IH|].
  constructor; [|apply IH].
  rewrite dedup_In. intros [_ N]. apply N. now left.
Qed.

(** X11.  The commands read from a response are pairwise different, none
    is empty and none has whitespace at either end, whichever of the three
    ways of reading found them. *)
Theorem parseCommands_wellformed (response : jsstr) :
  NoDup (PromptTemplate.parseCommands response)
  /\ Forall trimmedToken (PromptTemplate.parseCommands response).
Proof.
  unfold PromptTemplate.parseCommands.
  set (blocks := flat_map PromptTemplate.blockCommands _).
  set (lines := filter PromptTemplate.isGitLine _).
  set (found := map trim (matchAll PromptTemplate.gitAt 0 response)).
  set (commands := if Nat.eqb (length (if Nat.eqb (length blocks) 0
                                        then lines else blocks)) 0
                   then found
                   else if Nat.eqb (length blocks) 0 then lines else blocks).
  assert (T : forall c, In c commands -> trim c = c).
  { assert (Tb : forall c, In c blocks -> trim c = c).
    { intros c I. apply in_flat_map in I as (b & _ & I).
      unfold PromptTemplate.blockCommands in I.
      apply in_map_iff in I as (l & <- & _). apply trim_idempotent. }
    assert (Tl : forall c, In c lines -> trim c = c).
    { intros c I. apply filter_In in I as [I _].
      apply in_map_iff in I as (l & <- & _). apply trim_idempotent. }
    assert (Tf : forall c, In c found -> trim c = c).
    { intros c I. apply in_map_iff in I as (l & <- & _). apply trim_idempotent. }
    intros c. unfold commands.
    destruct (Nat.eqb (length blocks) 0);
      destruct (Nat.eqb (length _) 0); auto. }
  split.
  - apply NoDup_filter, dedup_NoDup.
  - apply Forall_forall. intros c I. apply filter_In in I as [I L].
    apply dedup_In in I as [I _]. split; [|now apply T].
    intros ->. discriminate.
Qed.

(** ** Validation of a list of commands *)

Lemma validateStep_app (i1 i2 w1 w2 : list jsstr) (index : nat) (command : jsstr) :
  PromptTemplate.validateStep (i1 ++ i2, w1 ++ w2) index command
  = (i1 ++ fst (PromptTemplate.validateStep (i2, w2) index command),
     w1 ++ snd (PromptTemplate.validateStep (i2, w2) index command)).
Proof.
  unfold PromptTemplate.validateStep. cbn [fst snd]. f_equal.
  - destruct (negb _ && negb _); [now rewrite app_assoc|reflexivity].
  - generalize PromptTemplate.dangerousPatterns. intros ps. revert w2.
    induction ps as [|p ps IH]; intros w2; cbn [fold_left]; [reflexivity|].
    destruct (test p command); [|apply IH].
    rewrite <- app_assoc. apply IH.
Qed.

Lemma validateLoop_app (commands : list jsstr) :
  forall index i1 i2 w1 w2,
  PromptTemplate.validateLoop commands index (i1 ++ i2, w1 ++ w2)
  = (i1 ++ fst (PromptTemplate.validateLoop commands index (i2, w2)),
     w1 ++ snd (PromptTemplate.validateLoop commands index (i2, w2))).
Proof.
  induction commands as [|command rest IH]; intros index i1 i2 w1 w2;
    cbn [PromptTemplate.validateLoop fst snd]; [reflexivity|].
  rewrite validateStep_app.
  destruct (PromptTemplate.validateStep (i2, w2) index command) as [i w].
  cbn [fst snd]. apply IH.
Qed.

Lemma validateLoop_counts (commands : list jsstr) :
  forall index,
  length (fst (PromptTemplate.validateLoop commands index ([], [])))
  = length (filter (fun c => negb (PromptTemplate.isGitLine c)) commands)
  /\ length (snd (PromptTemplate.validateLoop commands index ([], [])))
     = list_sum (map (fun c =>
         length (filter (fun p => test p c) PromptTemplate.dangerousPatterns))
         commands).
Proof.
  assert (W : forall (command : jsstr) index (ps : list RegExp) (ws : list jsstr),
    length (fold_left (fun warnings pattern =>
                 if test pattern command
                 then warnings ++ [PromptTemplate.warningText index command]
                 else warnings) ps ws)
    = length ws + length (filter (fun p => test p command) ps)).
  { intros command index ps. induction ps as [|p ps IH]; intros ws;
      cbn [fold_left filter]; [simpl; lia|].
    destruct (test p command); rewrite IH; [|reflexivity].
    rewrite length_app. simpl. lia. }
  induction commands as [|command rest IH]; intros index;
    [split; reflexivity|].
  cbn [PromptTemplate.validateLoop].
  unfold PromptTemplate.validateStep. cbn [fst snd].
  match goal with
  | |- context [PromptTemplate.validateLoop rest (S index) (?a, ?b)] =>
      set (i := a); set (w := b)
  end.
  rewrite <- (app_nil_r i), <- (app_nil_r w), validateLoop_app.
  cbn [fst snd]. rewrite !length_app. destruct (IH (S index)) as [-> ->].
  unfold w. rewrite W. unfold i.
  cbn [filter map list_sum]. unfold PromptTemplate.isGitLine.
  rewrite negb_orb.
  destruct (negb _ && negb _); simpl; split; lia.
Qed.

Lemma validateCommands_isValid (commands : list jsstr) :
  PromptTemplate.isValid (PromptTemplate.validateCommands commands)
  = forallb PromptTemplate.isGitLine commands.
Proof.
  unfold PromptTemplate.validateCommands. cbn [PromptTemplate.isValid].
  rewrite (proj1 (validateLoop_counts commands 0)).
  induction commands as [|c rest IH]; [reflexivity|].
  cbn [filter forallb]. destruct (PromptTemplate.isGitLine c); simpl;
    [exact IH|reflexivity].
Qed.

(** X12.  The verdict of [validateCommands]: the list is valid exactly when
    every command starts with [git ] or [gh ], there is one issue for every
    other command, one warning for every pattern a command matches (so a
    command may be warned about more than once), and the count is the
    number of commands. *)
Theorem validateCommands_verdict (commands : list jsstr) :
  PromptTemplate.isValid (PromptTemplate.validateCommands commands)
  = forallb PromptTemplate.isGitLine commands
  /\ length (PromptTemplate.issues (PromptTemplate.validateCommands commands))
     = length (filter (fun c => negb (PromptTemplate.isGitLine c)) commands)
  /\ length (PromptTemplate.warnings (PromptTemplate.validateCommands commands))
     = list_sum (map (fun c =>
         length (filter (fun p => test p c) PromptTemplate.dangerousPatterns))
         commands)
  /\ PromptTemplate.commandCount (PromptTemplate.validateCommands commands)
     = length commands.
Proof.
  split; [apply validateCommands_isValid|].
  unfold PromptTemplate.validateCommands.
  cbn [PromptTemplate.issues PromptTemplate.warnings
       PromptTemplate.commandCount].
  destruct (validateLoop_counts commands 0) as [I W].
  split; [exact I|split; [exact W|reflexivity]].
Qed.

Lemma validator_patterns_incl :
  incl PromptTemplate.dangerousPatterns dangerousPatterns.
Proof.
  intros p H. unfold PromptTemplate.dangerousPatterns in H.
  unfold dangerousPatterns. cbn [In] in *. tauto.
Qed.

Lemma validateCommands_no_warning (commands : list jsstr) :
  (forall c p, In c commands -> In p PromptTemplate.dangerousPatterns ->
               test p c = false) ->
  PromptTemplate.warnings (PromptTemplate.validateCommands commands) = [].
Proof.
  intros H. apply length_zero_iff_nil.
  unfold PromptTemplate.validateCommands. cbn [PromptTemplate.warnings].
  rewrite (proj2 (validateLoop_counts commands 0)).
  assert (F : forall c ps, In c commands ->
                incl ps PromptTemplate.dangerousPatterns ->
                filter (fun p => test p c) ps = []).
  { intros c ps C. induction ps as [|p ps IHp]; intros I; [reflexivity|].
    cbn [filter]. rewrite (H c p C (I p (or_introl eq_refl))).
    apply IHp. intros q Q. apply I. now right. }
  clear H. induction commands as [|c rest IH]; [reflexivity|].
  change (length (filter (fun p => test p c) PromptTemplate.dangerousPatterns)
          + list_sum (map (fun c => length (filter (fun p => test p c)
                             PromptTemplate.dangerousPatterns)) rest) = 0).
  rewrite (F c _ (or_introl eq_refl) (incl_refl _)).
  apply IH. intros c' ps C. apply F. now right.
Qed.

(** X13.  [validateCommands] warns about no command that the executor runs
    without asking: its patterns are among those of [isDangerousCommand];
    it is the executor that asks about more, as a forced deletion of a
    branch shows. *)
Theorem validateCommands_warns_less_than_executor :
  (forall commands,
     (forall c, In c commands -> isDangerousCommand c = false) ->
     PromptTemplate.warnings (PromptTemplate.validateCommands commands) = [])
  /\ isDangerousCommand (js "git branch -D topic") = true
  /\ PromptTemplate.warnings
       (PromptTemplate.validateCommands [js "git branch -D topic"]) = [].
Proof.
  split.
  - intros commands H. apply validateCommands_no_warning.
    intros c p I P. specialize (H c I). unfold isDangerousCommand in H.
    destruct (test p c) eqn:T; [|reflexivity].
    rewrite <- H. symmetry. apply existsb_exists. exists p.
    split; [now apply validator_patterns_incl|exact T].
  - split; vm_compute; reflexivity.
Qed.

Lemma validateCommands_warns_less_than_executor_witness :
  PromptTemplate.warnings
    (PromptTemplate.validateCommands [js "git status"; js "npm test"]) = [].
Proof.
  apply (proj1 validateCommands_warns_less_than_executor).
  intros c [<-|[<-|[]]]; reflexivity.
Defined.

Lemma startsWith_app (prefix s : jsstr) :
  startsWith prefix s = true <-> exists r, s = prefix ++ r.
Proof.
  revert s. induction prefix as [|p prefix IH]; intros s.
  - destruct s; simpl; split; eauto.
  - destruct s as [|c s]; simpl.
    + split; [discriminate|intros [r E]; discriminate].
    + rewrite andb_true_iff, char_eqb_eq, IH. split.
      * intros [-> [r ->]]. now exists r.
      * intros [r E]. inversion E. split; [reflexivity|now exists r].
Qed.

Lemma spawnOf_program (program rest : jsstr) :
  plainToken program ->
  spawnOf (program ++ SPACE :: rest)
  = ReqExeca (Some program) (parseCommand rest).
Proof.
  intros P. unfold spawnOf.
  rewrite parseCommand_space
    by (now rewrite (proj1 (Renders_parseLoop _ _ (RendersPlain _ P)))).
  now rewrite (Renders_parseCommand _ _ (RendersPlain _ P)).
Qed.

(** X14.  Every command of a list that [validateCommands] finds valid is
    [git] or [gh], a space and a rest, and [executeCommand] runs it as that
    program: whenever the command passes the danger check and is not a dry
    run, the first request [executeCommand] adds after the check is the
    process with [git] (or [gh]) as its file and the tokens of the rest as
    its arguments. *)
Theorem valid_commands_spawn_git_or_gh (commands : list jsstr) :
  PromptTemplate.isValid (PromptTemplate.validateCommands commands) = true ->
  Forall (fun c => exists program rest,
            (program = js "git" \/ program = js "gh")
            /\ c = program ++ SPACE :: rest
            /\ forall cfg this env rx depth options t,
                 passesDangerCheck env c t ->
                 this_dryRun this || opt_dryRun options = false ->
                 exists later,
                   snd (executeCommand cfg this env rx depth c options t)
                   = afterDangerCheck c t
                     ++ ReqExeca (Some program) (parseCommand rest) :: later)
         commands.
Proof.
  rewrite validateCommands_isValid, forallb_forall. intros H.
  apply Forall_forall. intros c I. specialize (H c I).
  assert (G : forall program rest, plainToken program ->
            c = program ++ SPACE :: rest ->
            forall cfg this env rx depth options t,
              passesDangerCheck env c t ->
              this_dryRun this || opt_dryRun options = false ->
              exists later,
                snd (executeCommand cfg this env rx depth c options t)
                = afterDangerCheck c t
                  ++ ReqExeca (Some program) (parseCommand rest) :: later).
  { intros program rest T E cfg this env rx depth options t P D.
    destruct (executeCommand_spawns_first cfg this env rx depth c options t P D)
      as [later L].
    exists later. rewrite L. f_equal. f_equal.
    fold (spawnOf c). rewrite E. now apply spawnOf_program. }
  unfold PromptTemplate.isGitLine in H. apply orb_true_iff in H as [H|H];
    apply startsWith_app in H as [rest E].
  - exists (js "git"), rest. split; [now left|]. split; [exact E|].
    apply G; [|exact E].
    split; [discriminate|repeat (constructor; [split; reflexivity|])].
    constructor.
  - exists (js "gh"), rest. split; [now right|]. split; [exact E|].
    apply G; [|exact E].
    split; [discriminate|repeat (constructor; [split; reflexivity|])].
    constructor.
Qed.

Lemma valid_commands_spawn_git_or_gh_witness :
  Forall (fun c => exists program rest,
            (program = js "git" \/ program = js "gh")
            /\ c = program ++ SPACE :: rest
            /\ forall cfg this env rx depth options t,
                 passesDangerCheck env c t ->
                 this_dryRun this || opt_dryRun options = false ->
                 exists later,
                   snd (executeCommand cfg this env rx depth c options t)
                   = afterDangerCheck c t
                     ++ ReqExeca (Some program) (parseCommand rest) :: later)
         [js "git push origin main"; js "gh pr create --fill"].
Proof.
  apply (valid_commands_spawn_git_or_gh
           [js "git push origin main"; js "gh pr create --fill"]).
  vm_compute. reflexivity.
Defined.

(** ** Responses with and without a fenced block *)

Lemma filter_all {A} (f : A -> bool) (l : list A) :
  (forall x, In x l -> f x = true) -> filter f l = l.
Proof.
  induction l as [|x l IH]; intros H; [reflexivity|]. cbn [filter].
  rewrite (H x (or_introl eq_refl)). f_equal. apply IH. intros y I.
  apply H. now right.
Qed.

Lemma dropPrefix_app (prefix s : jsstr) : dropPrefix prefix (prefix ++ s) = Some s.
Proof.
  induction prefix as [|p prefix IH]; [now destruct s|]. cbn [app dropPrefix].
  now rewrite (proj2 (char_eqb_eq p p) eq_refl).
Qed.

Lemma dropPrefix_FENCE_other (c : char16) (t : jsstr) :
  c <> BACKTICK -> dropPrefix PromptTemplate.FENCE (c :: t) = None.
Proof.
  intros N. unfold PromptTemplate.FENCE. cbn [dropPrefix].
  destruct (char_eqb c BACKTICK) eqn:E; [|reflexivity].
  apply char_eqb_eq in E. contradiction.
Qed.

Lemma blockAt_other (c : char16) (t : jsstr) :
  c <> BACKTICK -> PromptTemplate.blockAt (c :: t) = None.
Proof.
  intros N. unfold PromptTemplate.blockAt.
  now rewrite dropPrefix_FENCE_other.
Qed.

Lemma fenceAt_other (c : char16) (t : jsstr) :
  c <> BACKTICK -> PromptTemplate.fenceAt (c :: t) = None.
Proof.
  intros N. unfold PromptTemplate.fenceAt.
  now rewrite dropPrefix_FENCE_other.
Qed.

Lemma bareFenceAt_other (c : char16) (t : jsstr) :
  c <> BACKTICK -> PromptTemplate.bareFenceAt (c :: t) = None.
Proof.
  intros N. unfold PromptTemplate.bareFenceAt.
  now rewrite dropPrefix_FENCE_other.
Qed.

Lemma not_In_other (pre : jsstr) (c : char16) :
  ~ In BACKTICK pre -> In c pre -> c <> BACKTICK.
Proof. intros N I E. subst. contradiction. Qed.

Section Scanning.

Variable matchAt : jsstr -> option jsstr.

Lemma matchAll_skip (a s : jsstr) :
  matchAll matchAt (length a) (a ++ s) = matchAll matchAt 0 s.
Proof.
  induction a as [|c a IH]; [reflexivity|]. cbn [length app matchAll].
  exact IH.
Qed.

Lemma matchAll_pre (pre s : jsstr) :
  (forall c t, In c pre -> matchAt (c :: t) = None) ->
  matchAll matchAt 0 (pre ++ s) = matchAll matchAt 0 s.
Proof.
  induction pre as [|c pre IH]; intros H; [reflexivity|].
  cbn [app matchAll]. rewrite (H c _ (or_introl eq_refl)).
  apply IH. intros c' t I. apply H. now right.
Qed.

Lemma matchAll_hit (m s : jsstr) :
  m <> [] -> matchAt (m ++ s) = Some m ->
  matchAll matchAt 0 (m ++ s) = m :: matchAll matchAt 0 s.
Proof.
  intros N H. destruct m as [|c m]; [contradiction|].
  cbn [app matchAll]. cbn [app] in H. rewrite H. f_equal.
  cbn [length]. rewrite Nat.sub_succ, Nat.sub_0_r. apply matchAll_skip.
Qed.

Lemma matchAll_Forall (P : jsstr -> Prop) :
  (forall s m, matchAt s = Some m -> P m) ->
  forall s skip, Forall P (matchAll matchAt skip s).
Proof.
  intros H. induction s as [|c s IH]; intros skip; [constructor|].
  cbn [matchAll]. destruct skip as [|k]; [|apply IH].
  destruct (matchAt (c :: s)) as [m|] eqn:E; [|apply IH].
  constructor; [now apply (H _ _ E)|apply IH].
Qed.

Lemma removeAll_skip (a s : jsstr) :
  removeAll matchAt (length a) (a ++ s) = removeAll matchAt 0 s.
Proof.
  induction a as [|c a IH]; [reflexivity|]. cbn [length app removeAll].
  exact IH.
Qed.

Lemma removeAll_pre (pre s : jsstr) :
  (forall c t, In c pre -> matchAt (c :: t) = None) ->
  removeAll matchAt 0 (pre ++ s) = pre ++ removeAll matchAt 0 s.
Proof.
  induction pre as [|c pre IH]; intros H; [reflexivity|].
  cbn [app removeAll]. rewrite (H c _ (or_introl eq_refl)). f_equal.
  apply IH. intros c' t I. apply H. now right.
Qed.

Lemma removeAll_hit (m s : jsstr) :
  m <> [] -> matchAt (m ++ s) = Some m ->
  removeAll matchAt 0 (m ++ s) = removeAll matchAt 0 s.
Proof.
  intros N H. destruct m as [|c m]; [contradiction|].
  cbn [app removeAll]. cbn [app] in H. rewrite H.
  cbn [length]. rewrite Nat.sub_succ, Nat.sub_0_r. apply removeAll_skip.
Qed.

End Scanning.

Lemma matchAll_blockAt_none (s : jsstr) :
  ~ In BACKTICK s -> matchAll PromptTemplate.blockAt 0 s = [].
Proof.
  intros N. rewrite <- (app_nil_r s). rewrite matchAll_pre; [reflexivity|].
  intros c t I. apply blockAt_other. now apply (not_In_other s).
Qed.

Lemma trimStart_before_solid (x y : jsstr) (h : char16) :
  isWhiteSpace h = false -> exists x', trimStart (x ++ h :: y) = x' ++ h :: y.
Proof.
  intros H. induction x as [|c x IH]; cbn [app trimStart].
  - rewrite H. now exists [].
  - destruct (isWhiteSpace c); [exact IH|]. now exists (c :: x).
Qed.

(** Trimming keeps a prefix that holds no whitespace. *)
Lemma trim_prefix (a b : jsstr) :
  a <> [] -> (forall c, In c a -> isWhiteSpace c = false) ->
  exists b', trim (a ++ b) = a ++ b'.
Proof.
  intros N W. unfold trim, trimEnd.
  rewrite (trimStart_fixed (a ++ b)).
  2:{ intros c r E. destruct a as [|x a]; [contradiction|].
      inversion E; subst. apply W. now left. }
  rewrite rev_app_distr. destruct (rev a) as [|h y] eqn:R.
  { apply (f_equal (@rev _)) in R. rewrite rev_involutive in R.
    simpl in R. contradiction. }
  assert (Hh : isWhiteSpace h = false).
  { apply W, in_rev. rewrite R. now left. }
  destruct (trimStart_before_solid (rev b) y h Hh) as [x' ->].
  rewrite rev_app_distr, <- R, rev_involutive. now exists (rev x').
Qed.

Lemma gitAt_git (s m : jsstr) :
  PromptTemplate.gitAt s = Some m -> exists run, m = js "git" ++ run.
Proof.
  unfold PromptTemplate.gitAt. destruct (dropPrefix (js "git") s) as [r|];
    [|discriminate].
  destruct (takeWhile PromptTemplate.isCommandChar r)
    as [|w [|c run]]; try discriminate.
  destruct (isWhiteSpace w); [|discriminate].
  intros E. inversion E. now exists (w :: c :: run).
Qed.

Lemma isGitLine_starts (c : jsstr) :
  PromptTemplate.isGitLine c = true ->
  startsWith (js "git") c = true \/ startsWith (js "gh ") c = true.
Proof.
  unfold PromptTemplate.isGitLine. intros H.
  apply orb_true_iff in H as [H|H]; [left|now right].
  apply startsWith_app in H as [r ->]. apply startsWith_app.
  now exists (SPACE :: r).
Qed.

(** X15.  A response without a backtick holds no fenced block.  Every
    command read from it starts with [git] or with [gh ]; and when one of
    its lines, trimmed, starts with [git ] or [gh ], the commands are these
    lines, trimmed, each once and in their order, and [validateCommands]
    finds the list valid. *)
Theorem prose_response_commands (response : jsstr) :
  ~ In BACKTICK response ->
  Forall (fun c => startsWith (js "git") c = true
                   \/ startsWith (js "gh ") c = true)
         (PromptTemplate.parseCommands response)
  /\ (filter PromptTemplate.isGitLine (map trim (splitLines response)) <> [] ->
      PromptTemplate.parseCommands response
      = dedup [] (filter PromptTemplate.isGitLine
                    (map trim (splitLines response)))
      /\ PromptTemplate.isValid
           (PromptTemplate.validateCommands
              (PromptTemplate.parseCommands response)) = true).
Proof.
  intros N. unfold PromptTemplate.parseCommands.
  rewrite (matchAll_blockAt_none response N). cbn [flat_map length Nat.eqb].
  set (lines := filter PromptTemplate.isGitLine (map trim (splitLines response))).
  assert (L : forall c, In c lines -> PromptTemplate.isGitLine c = true).
  { intros c I. now apply filter_In in I as [_ I]. }
  split.
  - apply Forall_forall. intros c I. apply filter_In in I as [I _].
    apply dedup_In in I as [I _].
    destruct (Nat.eqb (length lines) 0); [|now apply isGitLine_starts, L].
    apply in_map_iff in I as (m & <- & I). left.
    pose proof (matchAll_Forall PromptTemplate.gitAt
                  (fun m => exists run, m = js "git" ++ run)
                  gitAt_git response 0) as F.
    rewrite Forall_forall in F. destruct (F m I) as [run ->].
    destruct (trim_prefix (js "git") run) as [b' ->]; [discriminate| |].
    + intros c [<-|[<-|[<-|[]]]]; reflexivity.
    + apply startsWith_app. now exists b'.
  - intros NE. destruct lines as [|l lines'] eqn:E; [contradiction|].
    cbn [length Nat.eqb]. rewrite <- E in *. clear E l lines' NE.
    assert (F : filter (fun cmd => negb (Nat.eqb (length cmd) 0))
                  (dedup [] lines) = dedup [] lines).
    { apply filter_all. intros c I. apply dedup_In in I as [I _].
      apply L, isGitLine_starts in I.
      destruct I as [I|I]; apply startsWith_app in I as [r ->]; reflexivity. }
    rewrite F. split; [reflexivity|].
    rewrite validateCommands_isValid. apply forallb_forall.
    intros c I. apply dedup_In in I as [I _]. now apply L.
Qed.

Lemma prose_response_commands_witness :
  PromptTemplate.parseCommands
    (js "Stage everything first:" ++ [NEWLINE] ++ js "  git add ." ++ [NEWLINE]
     ++ js "then" ++ [NEWLINE] ++ js "git commit -m wip" ++ [NEWLINE]
     ++ js "git add .")
  = [js "git add ."; js "git commit -m wip"].
Proof.
  refine (eq_trans (proj1 (proj2 (prose_response_commands
    (js "Stage everything first:" ++ [NEWLINE] ++ js "  git add ." ++ [NEWLINE]
     ++ js "then" ++ [NEWLINE] ++ js "git commit -m wip" ++ [NEWLINE]
     ++ js "git add .") _) _)) _).
  - vm_compute. intuition discriminate.
  - vm_compute. discriminate.
  - vm_compute. reflexivity.
Defined.

Lemma untilFence_content (content post : jsstr) :
  ~ In BACKTICK content ->
  PromptTemplate.untilFence (content ++ PromptTemplate.FENCE ++ post)
  = Some (content ++ PromptTemplate.FENCE).
Proof.
  induction content as [|c content IH]; intros N.
  - cbn [app]. destruct post; reflexivity.
  - cbn [app PromptTemplate.untilFence].
    rewrite dropPrefix_FENCE_other by (intros E; apply N; now left).
    rewrite IH by (intros I; apply N; now right). reflexivity.
Qed.

(** The language written after the opening fence is the one the expression
    settles on, whatever is matched after it. *)
Lemma language_choice {A} (F : jsstr -> jsstr -> option A) (lang t : jsstr) :
  In lang PromptTemplate.languages ->
  firstSome
    (map (fun l => match dropPrefix (l ++ [NEWLINE]) (lang ++ NEWLINE :: t) with
                   | Some body => F l body
                   | None => None
                   end)
         PromptTemplate.languages)
  = F lang t.
Proof.
  intros [<-|[<-|[<-|[<-|[]]]]]; vm_compute; destruct (F _ t); reflexivity.
Qed.

Lemma blockAt_block (lang content post : jsstr) :
  In lang PromptTemplate.languages -> ~ In BACKTICK content ->
  PromptTemplate.blockAt
    ((PromptTemplate.FENCE ++ lang ++ [NEWLINE] ++ content
      ++ PromptTemplate.FENCE) ++ post)
  = Some (PromptTemplate.FENCE ++ lang ++ [NEWLINE] ++ content
          ++ PromptTemplate.FENCE).
Proof.
  intros L N. unfold PromptTemplate.blockAt.
  rewrite <- !app_assoc, dropPrefix_app. cbn [app].
  rewrite (language_choice
             (fun l body =>
                option_map (fun m => PromptTemplate.FENCE ++ l ++ NEWLINE :: m)
                           (PromptTemplate.untilFence body))
             lang _ L).
  now rewrite untilFence_content.
Qed.

Lemma fenceAt_open (lang t : jsstr) :
  In lang PromptTemplate.languages ->
  PromptTemplate.fenceAt ((PromptTemplate.FENCE ++ lang ++ [NEWLINE]) ++ t)
  = Some (PromptTemplate.FENCE ++ lang ++ [NEWLINE]).
Proof.
  intros [<-|[<-|[<-|[<-|[]]]]]; vm_compute; reflexivity.
Qed.

Lemma blockCommands_block (lang content : jsstr) :
  In lang PromptTemplate.languages -> ~ In BACKTICK content ->
  PromptTemplate.blockCommands
    (PromptTemplate.FENCE ++ lang ++ [NEWLINE] ++ content
     ++ PromptTemplate.FENCE)
  = map trim (filter PromptTemplate.keepLine (splitLines content)).
Proof.
  intros L N. unfold PromptTemplate.blockCommands.
  assert (E : removeAll PromptTemplate.bareFenceAt 0
                (removeAll PromptTemplate.fenceAt 0
                   (PromptTemplate.FENCE ++ lang ++ [NEWLINE] ++ content
                    ++ PromptTemplate.FENCE)) = content).
  { replace (PromptTemplate.FENCE ++ lang ++ [NEWLINE] ++ content
             ++ PromptTemplate.FENCE)
      with ((PromptTemplate.FENCE ++ lang ++ [NEWLINE])
            ++ content ++ PromptTemplate.FENCE)
      by (now rewrite <- !app_assoc).
    rewrite removeAll_hit; [|discriminate|now apply fenceAt_open].
    rewrite removeAll_pre
      by (intros c t I; apply fenceAt_other; now apply (not_In_other content)).
    change (removeAll PromptTemplate.fenceAt 0 PromptTemplate.FENCE)
      with (@nil char16).
    rewrite removeAll_pre
      by (intros c t I; apply bareFenceAt_other;
          now apply (not_In_other content)).
    now rewrite app_nil_r. }
  now rewrite E.
Qed.

(** X16.  A response with one fenced block, opened by a fence with [bash],
    [shell], [sh] or nothing before the line feed, and without a backtick
    anywhere else: when the block holds a line that is not blank and does
    not start with [#], the commands are the lines of the block of that
    kind, trimmed, each once and in their order; the text before and after
    the block is not read. *)
Theorem fenced_block_commands (pre lang content post : jsstr) :
  In lang PromptTemplate.languages ->
  ~ In BACKTICK pre -> ~ In BACKTICK content -> ~ In BACKTICK post ->
  filter PromptTemplate.keepLine (splitLines content) <> [] ->
  PromptTemplate.parseCommands
    (pre ++ PromptTemplate.FENCE ++ lang ++ [NEWLINE] ++ content
     ++ PromptTemplate.FENCE ++ post)
  = dedup [] (map trim (filter PromptTemplate.keepLine (splitLines content))).
Proof.
  intros L Npre Ncontent Npost NE. unfold PromptTemplate.parseCommands.
  replace (PromptTemplate.FENCE ++ lang ++ [NEWLINE] ++ content
           ++ PromptTemplate.FENCE ++ post)
    with ((PromptTemplate.FENCE ++ lang ++ [NEWLINE] ++ content
           ++ PromptTemplate.FENCE) ++ post)
    by (now rewrite <- !app_assoc).
  rewrite matchAll_pre
    by (intros c t I; apply blockAt_other; now apply (not_In_other pre)).
  rewrite matchAll_hit; [|discriminate|now apply blockAt_block].
  rewrite (matchAll_blockAt_none post Npost).
  cbn [flat_map]. rewrite app_nil_r, blockCommands_block by assumption.
  set (kept := filter PromptTemplate.keepLine (splitLines content)) in *.
  assert (Z : Nat.eqb (length (map trim kept)) 0 = false)
    by (destruct kept; [contradiction|reflexivity]).
  rewrite Z. cbv iota. rewrite Z. cbv iota.
  apply filter_all. intros c I. apply dedup_In in I as [I _].
  apply in_map_iff in I as (x & <- & I). apply filter_In in I as [_ K].
  unfold PromptTemplate.keepLine in K. apply andb_true_iff in K as [K _].
  now destruct (trim x).
Qed.

Lemma fenced_block_commands_witness :
  PromptTemplate.parseCommands
    (js "Try this: git log" ++ [NEWLINE] ++ PromptTemplate.FENCE ++ js "bash"
     ++ [NEWLINE] ++ (js "# stage and commit" ++ [NEWLINE] ++ js "git add ."
                      ++ [NEWLINE] ++ js "  npm test" ++ [NEWLINE]
                      ++ js "git add ." ++ [NEWLINE])
     ++ PromptTemplate.FENCE ++ js " and then git push")
  = [js "git add ."; js "npm test"].
Proof.
  refine (eq_trans (fenced_block_commands
    (js "Try this: git log" ++ [NEWLINE]) (js "bash")
    (js "# stage and commit" ++ [NEWLINE] ++ js "git add ."
     ++ [NEWLINE] ++ js "  npm test" ++ [NEWLINE]
     ++ js "git add ." ++ [NEWLINE])
    (js " and then git push") _ _ _ _ _) _).
  - vm_compute. tauto.
  - vm_compute. intuition discriminate.
  - vm_compute. intuition discriminate.
  - vm_compute. intuition discriminate.
  - vm_compute. discriminate.
  - vm_compute. reflexivity.
Defined.

(** ** Name of the repository *)

Lemma lazyName_allowed (allowed : char16 -> bool) (tails : list jsstr)
  (rest : jsstr) :
  forall name n, lazyName allowed tails name rest = Some n ->
  forallb allowed name = true -> forallb allowed n = true.
Proof.
  induction rest as [|c rest IH]; intros name n; cbn [lazyName].
  - destruct (existsb _ tails); [|discriminate]. now intros [= <-].
  - destruct (existsb _ tails); [now intros [= <-]|].
    destruct (allowed c) eqn:A; [|discriminate].
    intros H F. apply (IH _ _ H). now rewrite forallb_app, F; simpl; rewrite A.
Qed.

Lemma nameAt_allowed (allowed : char16 -> bool) (tails : list jsstr)
  (s n : jsstr) :
  nameAt allowed tails s = Some n -> forallb allowed n = true.
Proof.
  destruct s as [|c rest]; [discriminate|]. cbn [nameAt].
  destruct (allowed c) eqn:A; [|discriminate].
  intros H. apply (lazyName_allowed _ _ _ _ _ H). simpl. now rewrite A.
Qed.

Lemma sshMatch_allowed (url n : jsstr) :
  sshMatch url = Some n -> forallb notSlash n = true.
Proof.
  unfold sshMatch. destruct (dropPrefix _ url) as [r|]; [|discriminate].
  destruct (takeWhile notColon r); [discriminate|].
  destruct (dropWhile notColon r) as [|x r']; [discriminate|].
  destruct (takeWhile notSlash r'); [discriminate|].
  destruct (dropWhile notSlash r') as [|y name]; [discriminate|].
  apply nameAt_allowed.
Qed.

Lemma httpsMatch_allowed (url n : jsstr) :
  httpsMatch url = Some n -> forallb notSlash n = true.
Proof.
  induction url as [|c rest IH]; [discriminate|]. cbn [httpsMatch].
  destruct (char_eqb c SLASH); [|exact IH].
  destruct (nameAt notSlash _ rest) as [m|] eqn:E; [|exact IH].
  intros [= <-]. now apply (nameAt_allowed _ _ _ _ E).
Qed.

Lemma generalMatch_allowed (url n : jsstr) :
  generalMatch url = Some n -> forallb notSeparator n = true.
Proof.
  induction url as [|c rest IH]; cbn [generalMatch].
  - discriminate.
  - destruct (nameAt notSeparator _ (c :: rest)) as [m|] eqn:E; [|exact IH].
    intros [= <-]. now apply (nameAt_allowed _ _ _ _ E).
Qed.

Lemma splitOn_pieces (sep : char16 -> bool) (s : jsstr) :
  forall cur, forallb (fun c => negb (sep c)) cur = true ->
  Forall (fun piece => forallb (fun c => negb (sep c)) piece = true)
         (splitOn sep cur s).
Proof.
  induction s as [|c s IH]; intros cur H; cbn [splitOn].
  - now constructor.
  - destruct (sep c) eqn:E.
    + constructor; [exact H|now apply IH].
    + apply IH. rewrite forallb_app, H. simpl. now rewrite E.
Qed.

Lemma Forall_last {A} (P : A -> Prop) (l : list A) (d : A) :
  Forall P l -> P d -> P (last l d).
Proof.
  induction 1 as [|x l Hx Hl IH]; intros Hd; [exact Hd|].
  destruct l; [exact Hx|]. now apply IH.
Qed.

Lemma In_stripGit (c : char16) (s : jsstr) : In c (stripGit s) -> In c s.
Proof.
  unfold stripGit. destruct (endsWith _ s); [|trivial].
  intros H. rewrite <- (firstn_skipn (length s - 4) s).
  apply in_or_app. now left.
Qed.

Lemma forallb_not_In (p : char16 -> bool) (c : char16) (s : jsstr) :
  forallb p s = true -> p c = false -> ~ In c s.
Proof.
  intros F P I. rewrite forallb_forall in F. specialize (F c I). congruence.
Qed.

(** X17.  The name of the repository is empty for an empty address and
    for one that holds both a less-than and a greater-than sign, and it
    holds no slash, whichever of the ways of reading the address gave it. *)
Theorem extractRepositoryName_no_slash :
  extractRepositoryName [] = []
  /\ (forall remoteUrl,
        includes LESS remoteUrl = true -> includes GREATER remoteUrl = true ->
        extractRepositoryName remoteUrl = [])
  /\ (forall remoteUrl, ~ In SLASH (extractRepositoryName remoteUrl)).
Proof.
  split; [reflexivity|]. split.
  - intros url L G. unfold extractRepositoryName. rewrite L, G.
    now destruct (negb (truthy url)).
  - intros url. unfold extractRepositoryName.
    destruct (negb (truthy url)); [intros []|].
    destruct (includes LESS url && includes GREATER url); [intros []|].
    set (repoName := match sshMatch url with Some _ => _ | None => _ end).
    assert (R : ~ In SLASH repoName).
    { unfold repoName. destruct (sshMatch url) as [n|] eqn:S.
      - apply (forallb_not_In notSlash); [|reflexivity].
        now apply (sshMatch_allowed url).
      - destruct (startsWith _ url).
        + destruct (httpsMatch url) as [n|] eqn:H; [|intros []].
          apply (forallb_not_In notSlash); [|reflexivity].
          now apply (httpsMatch_allowed url).
        + destruct (generalMatch url) as [n|] eqn:G; [|intros []].
          apply (forallb_not_In notSeparator); [|reflexivity].
          now apply (generalMatch_allowed url). }
    destruct (_ && negb (jsstr_eqb repoName (js ".."))); [exact R|].
    destruct (_ && Nat.ltb 0 _); [|intros []].
    intros I. apply In_stripGit in I. revert I.
    apply (forallb_not_In
             (fun c => negb (char_eqb c SLASH || char_eqb c BACKSLASH)));
      [|reflexivity].
    apply (Forall_last
             (fun piece => forallb (fun c => negb (char_eqb c SLASH
                                            || char_eqb c BACKSLASH)) piece
                           = true)); [|reflexivity].
    now apply splitOn_pieces.
Qed.

Lemma span_at (p : char16 -> bool) (a : jsstr) (c : char16) (x : jsstr) :
  forallb p a = true -> p c = false ->
  takeWhile p (a ++ c :: x) = a /\ dropWhile p (a ++ c :: x) = c :: x.
Proof.
  intros F C. induction a as [|y a IH]; cbn [app takeWhile dropWhile].
  - now rewrite C.
  - simpl in F. apply andb_true_iff in F as [Y F]. rewrite Y.
    destruct (IH F) as [-> ->]. now split.
Qed.

Lemma lazyName_exact (allowed : char16 -> bool) (tails : list jsstr)
  (sfx : jsstr) (q : jsstr) :
  forall name,
  In sfx tails -> forallb allowed q = true ->
  (forall q1 q2, q = q1 ++ q2 -> q2 <> [] -> ~ In (q2 ++ sfx) tails) ->
  lazyName allowed tails name (q ++ sfx) = Some (name ++ q).
Proof.
  induction q as [|c q IH]; intros name S F N.
  - cbn [app]. rewrite app_nil_r.
    destruct sfx; cbn [lazyName];
      now rewrite (proj2 (existsb_jsstr_eqb _ tails) S).
  - cbn [app lazyName].
    destruct (existsb (jsstr_eqb (c :: q ++ sfx)) tails) eqn:E.
    { apply existsb_jsstr_eqb in E. exfalso.
      apply (N [] (c :: q) eq_refl); [discriminate|exact E]. }
    simpl in F. apply andb_true_iff in F as [A F]. rewrite A.
    rewrite (IH (name ++ [c]) S F).
    + now rewrite <- app_assoc.
    + intros q1 q2 -> Q. apply (N (c :: q1) q2 eq_refl Q).
Qed.

Lemma nameAt_exact (allowed : char16 -> bool) (tails : list jsstr)
  (sfx repo : jsstr) :
  repo <> [] -> In sfx tails -> forallb allowed repo = true ->
  (forall q1 q2, repo = q1 ++ q2 -> q1 <> [] -> q2 <> [] ->
                 ~ In (q2 ++ sfx) tails) ->
  nameAt allowed tails (repo ++ sfx) = Some repo.
Proof.
  intros NE S F N. destruct repo as [|c q]; [contradiction|].
  cbn [app nameAt]. simpl in F. apply andb_true_iff in F as [A F]. rewrite A.
  apply (lazyName_exact allowed tails sfx q [c] S F).
  intros q1 q2 -> Q. apply (N (c :: q1) q2 eq_refl); [discriminate|exact Q].
Qed.

Lemma app_eq_split (q s t : jsstr) :
  q ++ s = t -> q = firstn (length t - length s) t.
Proof.
  intros <-. rewrite length_app, Nat.add_sub.
  rewrite firstn_app, Nat.sub_diag, firstn_all. cbn [firstn].
  now rewrite app_nil_r.
Qed.

Lemma endsWith_app (a suffix : jsstr) : endsWith suffix (a ++ suffix) = true.
Proof.
  unfold endsWith. rewrite rev_app_distr. apply startsWith_app. now exists (rev a).
Qed.

(** The texts that may follow the name in an address. *)
Lemma repositoryName_lazy (repo sfx q1 q2 : jsstr) :
  forallb notSlash repo = true -> endsWith (js ".git") repo = false ->
  repo = q1 ++ q2 -> q1 <> [] -> q2 <> [] ->
  In sfx [js ".git/"; js ".git"; js "/"; []] ->
  ~ In (q2 ++ sfx) [js ".git/"; js ".git"; js "/"; []].
Proof.
  intros F G -> N1 N2 S T.
  rewrite forallb_app in F. apply andb_true_iff in F as [_ F].
  cbn [In] in S, T.
  destruct S as [<-|[<-|[<-|[<-|[]]]]];
    destruct T as [T|[T|[T|[T|[]]]]]; symmetry in T;
    pose proof (app_eq_split _ _ _ T) as Q; vm_compute in Q; subst q2;
    first [ discriminate T
          | now contradiction N2
          | discriminate F
          | now rewrite endsWith_app in G ].
Qed.

Lemma tails_no_inner_slash (x y t : jsstr) :
  y <> [] -> In t [js ".git/"; js ".git"; js "/"; []] ->
  x ++ SLASH :: y <> t.
Proof.
  intros N T E.
  assert (I : In SLASH (removelast t)).
  { rewrite <- E. rewrite removelast_app by discriminate.
    apply in_or_app. right. destruct y; [contradiction|]. now left. }
  cbn [In] in T. destruct T as [<-|[<-|[<-|[<-|[]]]]];
    vm_compute in I; intuition discriminate.
Qed.

Lemma nameAt_blocked (x y : jsstr) :
  y <> [] ->
  nameAt notSlash [js ".git/"; js ".git"; js "/"; []] (x ++ SLASH :: y) = None.
Proof.
  intros N.
  assert (L : forall x name,
             lazyName notSlash [js ".git/"; js ".git"; js "/"; []] name
               (x ++ SLASH :: y) = None).
  { clear x. induction x as [|c x IH]; intros name.
    - cbn [app lazyName].
      destruct (existsb _ _) eqn:E; [|reflexivity].
      apply existsb_jsstr_eqb in E. exfalso.
      now apply (tails_no_inner_slash [] y _ N E).
    - cbn [app lazyName].
      destruct (existsb _ _) eqn:E.
      { apply existsb_jsstr_eqb in E. exfalso.
        now apply (tails_no_inner_slash (c :: x) y _ N E). }
      destruct (notSlash c); [apply IH|reflexivity]. }
  destruct x as [|c x]; [reflexivity|]. cbn [app nameAt].
  destruct (notSlash c); [apply L|reflexivity].
Qed.

Lemma httpsMatch_last (pre repo sfx : jsstr) :
  repo <> [] -> forallb notSlash repo = true ->
  endsWith (js ".git") repo = false ->
  In sfx [js ".git/"; js ".git"; js "/"; []] ->
  httpsMatch (pre ++ SLASH :: repo ++ sfx) = Some repo.
Proof.
  intros N F G S.
  assert (E : nameAt notSlash [js ".git/"; js ".git"; js "/"; []] (repo ++ sfx)
              = Some repo).
  { apply nameAt_exact; try assumption.
    intros q1 q2 R N1 N2. now apply (repositoryName_lazy repo sfx q1 q2). }
  induction pre as [|c pre IH]; cbn [app httpsMatch].
  - change (char_eqb SLASH SLASH) with true. cbv iota. now rewrite E.
  - destruct (char_eqb c SLASH); [|exact IH].
    rewrite nameAt_blocked; [exact IH|]. now destruct repo.
Qed.

Lemma sshMatch_url (host user repo sfx : jsstr) :
  host <> [] -> forallb notColon host = true ->
  user <> [] -> forallb notSlash user = true ->
  repo <> [] -> forallb notSlash repo = true ->
  endsWith (js ".git") repo = false ->
  In sfx [js ".git"; []] ->
  sshMatch (sshUrl host user (repo ++ sfx)) = Some repo.
Proof.
  intros Nh Fh Nu Fu N F G S. unfold sshUrl, sshMatch.
  rewrite dropPrefix_app.
  destruct (span_at notColon host COLON (user ++ SLASH :: repo ++ sfx) Fh eq_refl)
    as [-> ->].
  destruct host as [|h host]; [contradiction|].
  destruct (span_at notSlash user SLASH (repo ++ sfx) Fu eq_refl) as [-> ->].
  destruct user as [|u user]; [contradiction|].
  apply nameAt_exact; try assumption.
  intros q1 q2 R N1 N2 T.
  apply (repositoryName_lazy repo sfx q1 q2 F G R N1 N2).
  - cbn [In] in *. tauto.
  - cbn [In] in *. tauto.
Qed.

Lemma includes_app (c : char16) (a b : jsstr) :
  includes c (a ++ b) = includes c a || includes c b.
Proof. apply existsb_app. Qed.

Lemma extractRepositoryName_matched (url repo : jsstr) :
  truthy url = true -> includes LESS url = false ->
  repositoryName repo ->
  match sshMatch url with
  | Some name => name
  | None =>
      if startsWith (js "http") url
      then match httpsMatch url with Some name => name | None => [] end
      else match generalMatch url with Some name => name | None => [] end
  end = repo ->
  extractRepositoryName url = repo.
Proof.
  intros T L (N & _ & _ & D1 & D2) E. unfold extractRepositoryName.
  rewrite T, L, E. cbn [negb andb].
  destruct repo as [|c r]; [contradiction|]. cbn [truthy length Nat.ltb Nat.leb andb].
  destruct (jsstr_eqb (c :: r) (js ".")) eqn:E1;
    [apply jsstr_eqb_eq in E1; contradiction|].
  destruct (jsstr_eqb (c :: r) (js "..")) eqn:E2;
    [apply jsstr_eqb_eq in E2; contradiction|].
  reflexivity.
Qed.

(** X18.  The two usual ways of writing the address of a repository give
    the same name: for a host, a user and a name (not empty, without a
    slash, not ending in [.git], neither [.] nor [..]), the address
    [git@host:user/name], with or without [.git], and the address
    [https://host/user/name], with or without [.git] and with or without a
    closing slash, all give [name]. *)
Theorem extractRepositoryName_of_remote (host user repo : jsstr) :
  host <> [] -> forallb notColon host = true ->
  user <> [] -> forallb notSlash user = true ->
  repositoryName repo ->
  includes LESS (host ++ user ++ repo) = false ->
  Forall (fun url => extractRepositoryName url = repo)
    [ sshUrl host user repo;
      sshUrl host user (repo ++ js ".git");
      httpsUrl host user repo;
      httpsUrl host user (repo ++ js ".git");
      httpsUrl host user (repo ++ js "/");
      httpsUrl host user (repo ++ js ".git/") ].
Proof.
  intros Nh Fh Nu Fu R L.
  pose proof R as (N & F & G & _).
  rewrite !includes_app in L.
  apply orb_false_iff in L as [Lh L]. apply orb_false_iff in L as [Lu Lr].
  assert (Ssh : forall sfx, In sfx [js ".git"; []] ->
            extractRepositoryName (sshUrl host user (repo ++ sfx)) = repo).
  { intros sfx S. apply extractRepositoryName_matched; [reflexivity| |exact R|].
    - unfold sshUrl.
      change (includes LESS (js "git@" ++ host ++ [COLON] ++ user ++ [SLASH]
                             ++ repo ++ sfx) = false).
      rewrite !includes_app, Lh, Lu, Lr.
      cbn [In] in S. destruct S as [<-|[<-|[]]]; reflexivity.
    - now rewrite sshMatch_url. }
  assert (Shttps : forall sfx, In sfx [js ".git/"; js ".git"; js "/"; []] ->
            extractRepositoryName (httpsUrl host user (repo ++ sfx)) = repo).
  { intros sfx S. apply extractRepositoryName_matched; [reflexivity| |exact R|].
    - unfold httpsUrl.
      change (includes LESS (js "https://" ++ host ++ [SLASH] ++ user ++ [SLASH]
                             ++ repo ++ sfx) = false).
      rewrite !includes_app, Lh, Lu, Lr.
      cbn [In] in S. destruct S as [<-|[<-|[<-|[<-|[]]]]]; reflexivity.
    - change (sshMatch (httpsUrl host user (repo ++ sfx))) with (@None jsstr).
      change (startsWith (js "http") (httpsUrl host user (repo ++ sfx)))
        with true.
      cbv iota. unfold httpsUrl.
      replace (js "https://" ++ host ++ SLASH :: user ++ SLASH :: repo ++ sfx)
        with ((js "https://" ++ host ++ SLASH :: user) ++ SLASH :: repo ++ sfx)
        by (now rewrite <- !app_assoc).
      now rewrite httpsMatch_last. }
  repeat constructor.
  - rewrite <- (app_nil_r repo) at 1. apply Ssh. cbn [In]. tauto.
  - apply Ssh. cbn [In]. tauto.
  - rewrite <- (app_nil_r repo) at 1. apply Shttps. cbn [In]. tauto.
  - apply Shttps. cbn [In]. tauto.
  - apply Shttps. cbn [In]. tauto.
  - apply Shttps. cbn [In]. tauto.
Qed.

Lemma extractRepositoryName_of_remote_witness :
  Forall (fun url => extractRepositoryName url = js "rltgjqm")
    [ js "git@github.com:Floyre/rltgjqm";
      js "git@github.com:Floyre/rltgjqm.git";
      js "https://github.com/Floyre/rltgjqm";
      js "https://github.com/Floyre/rltgjqm.git";
      js "https://github.com/Floyre/rltgjqm/";
      js "https://github.com/Floyre/rltgjqm.git/" ].
Proof.
  apply (extractRepositoryName_of_remote
           (js "github.com") (js "Floyre") (js "rltgjqm")).
  - discriminate.
  - reflexivity.
  - discriminate.
  - reflexivity.
  - repeat split; try reflexivity; discriminate.
  - reflexivity.
Defined.

(** ** Recovery switched off in the configuration *)

Lemma executeCommandWith_autoSuggest_off (this : Executor) (env : Env)
  (suggest : jsstr -> jsstr -> M unit) (cmd : jsstr) (options : Options) :
  noRecovery (executeCommandWith (configWith false) this env suggest cmd options)
  /\ (forall t, exists r t',
        executeCommandWith (configWith false) this env suggest cmd options t
        = (Ok r, t')).
Proof.
  unfold executeCommandWith. split.
  - apply keeps_tryCatch.
    + apply keeps_bind.
      * destruct (isDangerousCommand cmd); [|apply keeps_ret].
        apply keeps_bind; [now apply keeps_await|intros; apply keeps_ret].
      * intros [|]; [apply keeps_ret|].
        destruct (this_dryRun this || opt_dryRun options); [apply keeps_ret|].
        apply keeps_bind; [now apply keeps_await|intros; apply keeps_ret].
    + intros message t. reflexivity.
  - intros t. unfold tryCatch, callGetAutoSuggestSolutions, configWith.
    unfold bind, confirmExecution, await, ret, throw. simpl.
    destruct (isDangerousCommand cmd).
    + destruct (confirmPrompt env t cmd) as [[|]|m]; simpl; eauto.
      destruct (this_dryRun this || opt_dryRun options); eauto.
      destruct (execa env _ _ _); eauto.
    + simpl. destruct (this_dryRun this || opt_dryRun options); eauto.
      destruct (execa env _ _ _); eauto.
Qed.

(** X19.  With a configuration whose [getAutoSuggestSolutions] answers
    false, [executeCommand] always returns a result, whatever the nesting
    depth granted, and a failure opens no recovery dialogue: no request of
    a dialogue is made by [executeCommand], by the batch executor in any
    mode, or by the legacy batch executor. *)
Theorem autoSuggest_off_opens_no_recovery (this : Executor) (env : Env)
  (rx : TextParsers) (depth : nat) (options : Options) (t : Trace) :
  (forall cmd, exists r t',
     executeCommand (configWith false) this env rx depth cmd options t
     = (Ok r, t')
     /\ filter isRecoveryRequest t' = filter isRecoveryRequest t)
  /\ (forall commands,
        filter isRecoveryRequest
          (snd (executeMultipleCommands (configWith false) this env rx depth
                  commands options t))
        = filter isRecoveryRequest t)
  /\ (forall commands continueOnError,
        filter isRecoveryRequest
          (snd (executeMultipleCommandsLegacy (configWith false) this env rx
                  depth commands options continueOnError t))
        = filter isRecoveryRequest t).
Proof.
  assert (E : forall cmd o,
             noRecovery (executeCommand (configWith false) this env rx depth
                           cmd o)).
  { intros cmd o. rewrite executeCommand_unfold.
    apply executeCommandWith_autoSuggest_off. }
  split; [|split].
  - intros cmd. rewrite executeCommand_unfold.
    match goal with
    | |- context [executeCommandWith _ _ _ ?s cmd options t] =>
        destruct (proj2 (executeCommandWith_autoSuggest_off this env s cmd
                           options) t) as (r & t' & H);
        pose proof (proj1 (executeCommandWith_autoSuggest_off this env s cmd
                             options) t) as K
    end.
    exists r, t'. split; [exact H|]. now rewrite H in K.
  - intros commands. unfold executeMultipleCommands.
    apply executeMultipleCommandsWith_keeps; try reflexivity.
    intros c. apply E.
  - intros commands continueOnError.
    apply (legacyLoop_keeps isRecoveryRequest
             (executeCommand (configWith false) this env rx depth)).
    intros c. apply E.
Qed.
